(** * Title matching and link merging of the tnlplatinum catalogue scripts

    A shallow embedding of the Python scripts under [scripts/]:
    - [cross_reference_films.py]: [normalize_title], [calculate_similarity],
      [find_matches];
    - [matching_algorithm.py]: [clean_title], [extract_episode_info],
      [calculate_match_score], [find_best_match], [match_videos_to_json];
    - [json_updater.py]: [update_entry_with_video_url] and the merge loop of
      [apply_matches_to_file];
    - [apply_video_url_updates.py]: the update loop of [apply_updates].

    Conventions of the embedding.
    - A Python [str] is a list of Unicode code points ([ustr]); literals are
      written as UTF-8 text and decoded by [u].
    - A JSON object (Python [dict]) is a [gmap string value]; [d.get(k)] is
      [get d k], [d.get(k, '')] is [get_or_empty d k].
    - Scores are Python floats that only ever hold decimal literals, results
      of the external ratio functions, and sums/maxima of these; they are
      modelled as rationals ([Q]) compared with [Qle_bool].
    - Library behaviour outside the repository (difflib, fuzzywuzzy, the
      Unicode tables behind [str.lower], [\w] and [\d]) is a parameter. *)

From Stdlib Require Import QArith.
From stdpp Require Import gmap strings list fin_maps sorting.

Set Default Proof Using "Type".
Open Scope list_scope.

(** ** Unicode strings *)

Definition ustr : Type := list N.

Module Utf8.

Definition byte_of (a : Ascii.ascii) : N := Ascii.N_of_ascii a.

(** Decoder for well-formed UTF-8 (one to four bytes per code point). *)
Fixpoint decode (bs : list N) : ustr :=
  match bs with
  | [] => []
  | b0 :: r0 =>
    if (b0 <? 128)%N then b0 :: decode r0
    else match r0 with
    | [] => []
    | b1 :: r1 =>
      if (b0 <? 224)%N then ((b0 - 192) * 64 + (b1 - 128))%N :: decode r1
      else match r1 with
      | [] => []
      | b2 :: r2 =>
        if (b0 <? 240)%N
        then ((b0 - 224) * 4096 + (b1 - 128) * 64 + (b2 - 128))%N :: decode r2
        else match r2 with
        | [] => []
        | b3 :: r3 =>
          ((b0 - 240) * 262144 + (b1 - 128) * 4096
           + (b2 - 128) * 64 + (b3 - 128))%N :: decode r3
        end
      end
    end
  end.

End Utf8.

(** [u "..."] is the Python string literal with that text. *)
Definition u (s : string) : ustr :=
  Utf8.decode (map Utf8.byte_of (String.list_ascii_of_string s)).

Definition ueqb (a b : ustr) : bool := bool_decide (a = b).

(** Python truthiness of a [str]: non-empty. *)
Definition nonempty (s : ustr) : bool :=
  match s with [] => false | _ => true end.

Definition NL : N := 10.
Definition SP : N := 32.

(** [str.isspace] per character, which is also what [\s] matches in a
    [str] pattern (CPython's [Py_UNICODE_ISSPACE]). *)
Definition is_space (c : N) : bool :=
  ((9 <=? c) && (c <=? 13) || (28 <=? c) && (c <=? 32)
   || (c =? 133) || (c =? 160) || (c =? 5760)
   || (8192 <=? c) && (c <=? 8202)
   || (c =? 8232) || (c =? 8233) || (c =? 8239) || (c =? 8287)
   || (c =? 12288))%N.

(** The regex dot without DOTALL: anything but a line feed. *)
Definition dot (c : N) : bool := negb (c =? NL)%N.

Definition one_of (cs : ustr) (c : N) : bool := bool_decide (c ∈ cs).

(** ASCII case folding, which is all that [re.IGNORECASE] does for the
    letters used in this program's patterns (y, o, u, t, b, e, p have no
    non-ASCII case variants). *)
Definition ascii_fold (c : N) : N :=
  if ((65 <=? c) && (c <=? 90))%N then (c + 32)%N else c.

(** [s.strip(chars)] and [s.strip()]. *)
Fixpoint lstrip_by (p : N → bool) (s : ustr) : ustr :=
  match s with
  | c :: s' => if p c then lstrip_by p s' else s
  | [] => []
  end.

Definition rstrip_by (p : N → bool) (s : ustr) : ustr :=
  rev (lstrip_by p (rev s)).

Definition strip_by (p : N → bool) (s : ustr) : ustr :=
  rstrip_by p (lstrip_by p s).

Definition strip (s : ustr) : ustr := strip_by is_space s.

(** [a in b] on strings. *)
Fixpoint starts_with (a b : ustr) : bool :=
  match a, b with
  | [], _ => true
  | x :: a', y :: b' => (x =? y)%N && starts_with a' b'
  | _ :: _, [] => false
  end.

Fixpoint contains (a b : ustr) : bool :=
  starts_with a b ||
  match b with
  | [] => false
  | _ :: b' => contains a b'
  end.

(** ** The fragment of Python's [re] the scripts use

    A backtracking matcher in continuation-passing style.  Repetition is
    only ever applied to a single character class in the scripts' patterns,
    so [Rep] carries a class; there is a single capture group. *)

Module Re.

Inductive regex : Type :=
| Eps
| Chr (p : N → bool)
| Cat (r1 r2 : regex)
| Rep (greedy : bool) (p : N → bool)
| Opt (r : regex)
| Cap (r : regex)
| Bol
| Eol.

Section Matcher.
Context {R : Type}.

Definition or_else (x : option R) (y : unit → option R) : option R :=
  match x with Some _ => x | None => y tt end.

(** [p*] (greedy) and [p*?] (lazy) at position [i] with rest [s]. *)
Fixpoint rep (greedy : bool) (p : N → bool) (i : nat) (s : ustr)
    (k : nat → ustr → option R) : option R :=
  match s with
  | c :: s' =>
    if p c then
      if greedy
      then or_else (rep greedy p (S i) s' k) (λ _, k i s)
      else or_else (k i s) (λ _, rep greedy p (S i) s' k)
    else k i s
  | [] => k i s
  end.

(** [run r i s g k]: match [r] at absolute position [i], the rest of
    the subject being [s] and group 1 being [g]; [k] continues. *)
Fixpoint run (r : regex) (i : nat) (s : ustr) (g : option ustr)
    (k : nat → ustr → option ustr → option R) : option R :=
  match r with
  | Eps => k i s g
  | Chr p =>
    match s with
    | c :: s' => if p c then k (S i) s' g else None
    | [] => None
    end
  | Cat r1 r2 => run r1 i s g (λ i' s' g', run r2 i' s' g' k)
  | Rep greedy p => rep greedy p i s (λ i' s', k i' s' g)
  | Opt r1 => or_else (run r1 i s g k) (λ _, k i s g)
  | Cap r1 => run r1 i s g (λ i' s' _, k i' s' (Some (take (i' - i) s)))
  | Bol => if Nat.eqb i 0 then k i s g else None
  | Eol =>
    match s with
    | [] => k i s g
    | [c] => if (c =? NL)%N then k i s g else None
    | _ => None
    end
  end.
End Matcher.

(** A match: start, end, text after the end, group 1. *)
Record rmatch : Type := MkMatch {
  m_start : nat;
  m_end : nat;
  m_rest : ustr;
  m_group1 : option ustr
}.

Definition match_at (r : regex) (i : nat) (s : ustr) : option rmatch :=
  run r i s None (λ i' s' g, Some (MkMatch i i' s' g)).

(** Leftmost match at or after position [i], [s] being the text from [i]. *)
Fixpoint search_from (r : regex) (i : nat) (s : ustr) : option rmatch :=
  match match_at r i s with
  | Some m => Some m
  | None =>
    match s with
    | [] => None
    | _ :: s' => search_from r (S i) s'
    end
  end.

(** [re.search(r, s)] *)
Definition search (r : regex) (s : ustr) : option rmatch := search_from r 0 s.

(** [re.split(r, s)[0]]: the text before the first match. *)
Definition split_head (r : regex) (s : ustr) : ustr :=
  match search r s with
  | Some m => take (m_start m) s
  | None => s
  end.

(** [re.sub(r, repl, s)] for a replacement without group references;
    [i] is the absolute position of [s]. *)
Fixpoint sub_from (fuel : nat) (r : regex) (repl : ustr) (i : nat)
    (s : ustr) : ustr :=
  match fuel with
  | O => s
  | S fuel' =>
    match search_from r i s with
    | None => s
    | Some m =>
      take (m_start m - i) s ++ repl ++
      (if Nat.eqb (m_end m) (m_start m)
       then match m_rest m with
            | [] => []
            | c :: rest' => c :: sub_from fuel' r repl (S (m_end m)) rest'
            end
       else sub_from fuel' r repl (m_end m) (m_rest m))
    end
  end.

Definition sub (r : regex) (repl : ustr) (s : ustr) : ustr :=
  sub_from (S (length s)) r repl 0 s.

(** Pattern builders. *)
Fixpoint lit (s : ustr) : regex :=
  match s with
  | [] => Eps
  | c :: s' => Cat (Chr (N.eqb c)) (lit s')
  end.

(** A literal under [re.IGNORECASE]. *)
Fixpoint lit_i (s : ustr) : regex :=
  match s with
  | [] => Eps
  | c :: s' => Cat (Chr (λ x, (ascii_fold x =? ascii_fold c)%N)) (lit_i s')
  end.

Definition star (p : N → bool) : regex := Rep true p.
Definition plus (p : N → bool) : regex := Cat (Chr p) (Rep true p).
Definition plus_lazy (p : N → bool) : regex := Cat (Chr p) (Rep false p).

Fixpoint seq (rs : list regex) : regex :=
  match rs with
  | [] => Eps
  | r :: rs' => Cat r (seq rs')
  end.

End Re.

(** [s.replace(old, '')] *)
Definition remove_all (old s : ustr) : ustr := Re.sub (Re.lit old) [] s.

(** ** cross_reference_films.py: normalize_title *)

(** [《(.+?)》] preceded by a label pattern. *)
Definition wrapped (label : list Re.regex) : Re.regex :=
  Re.seq (label ++ [Re.lit (u "《"); Re.Cap (Re.plus_lazy dot); Re.lit (u "》")]).

Definition patterns_to_extract : list Re.regex :=
  [ wrapped [Re.lit (u "試映劇場")];
    wrapped [Re.lit (u "試音片")];
    wrapped [Re.lit (u "試乜都得")];
    wrapped [Re.lit (u "試玩毛"); Re.star (λ c, negb (one_of (u "《") c))];
    wrapped [] ].

(** The [for pattern in patterns_to_extract] loop: the first pattern that
    matches replaces the title by its group 1. *)
Fixpoint extract_core (ps : list Re.regex) (normalized : ustr) : ustr :=
  match ps with
  | [] => normalized
  | p :: ps' =>
    match Re.search p normalized with
    | Some m => default [] (Re.m_group1 m)
    | None => extract_core ps' normalized
    end
  end.

Definition normalize_title (title : ustr) : ustr :=
  if negb (nonempty title) then []
  else
    let normalized := strip title in
    let normalized := extract_core patterns_to_extract normalized in
    let normalized := Re.split_head (Re.Chr (one_of (u "｜|"))) normalized in
    let normalized := Re.split_head (Re.lit (u "- YouTube")) normalized in
    let normalized := Re.split_head (Re.lit_i (u "- youtube")) normalized in
    let normalized := Re.sub (Re.plus is_space) [SP] normalized in
    let normalized := strip_by (one_of (u "《》[]()｜|：:")) normalized in
    strip normalized.

(** ** matching_algorithm.py: clean_title *)

Definition clean_title (title : ustr) : ustr :=
  if negb (nonempty title) then []
  else
    let title :=
      Re.sub (Re.seq [Re.star is_space; Re.Chr (one_of (u "｜|"));
                      Re.star is_space; Re.lit (u "試當真");
                      Re.star dot; Re.Eol]) [] title in
    let title :=
      Re.sub (Re.seq [Re.star is_space; Re.lit (u "-"); Re.star is_space;
                      Re.lit (u "YouTube"); Re.star dot; Re.Eol]) [] title in
    let prefix (label : string) :=
      Re.seq [Re.Bol; Re.star is_space; Re.lit (u label); Re.star is_space;
              Re.Opt (Re.Chr (one_of (u "《〈")))] in
    let title := Re.sub (prefix "試映劇場") [] title in
    let title := Re.sub (prefix "試音片") [] title in
    let title := Re.sub (prefix "試乜都得") [] title in
    let title :=
      Re.sub (Re.seq [Re.Chr (one_of (u "》〉")); Re.star is_space; Re.Eol])
             [] title in
    let title := Re.sub (Re.plus is_space) [SP] title in
    strip title.

(** ** Titles that normalization leaves alone

    The vocabulary in which the fixed points of [normalize_title] and
    [clean_title] are described. *)

(** [a in b] up to ASCII case. *)
Fixpoint starts_with_fold (a b : ustr) : bool :=
  match a, b with
  | [], _ => true
  | x :: a', y :: b' => (ascii_fold y =? ascii_fold x)%N && starts_with_fold a' b'
  | _ :: _, [] => false
  end.

Fixpoint contains_fold (a b : ustr) : bool :=
  starts_with_fold a b ||
  match b with
  | [] => false
  | _ :: b' => contains_fold a b'
  end.

(** Every whitespace character is a space that is not followed by
    another whitespace character. *)
Fixpoint single_spaced (s : ustr) : bool :=
  match s with
  | [] => true
  | c :: s' =>
    (if is_space c
     then (c =? SP)%N && match s' with
                         | [] => true
                         | d :: _ => negb (is_space d)
                         end
     else true)
    && single_spaced s'
  end.

(** Neither the first nor the last character is in the class [p]. *)
Definition edge_free (p : N → bool) (s : ustr) : bool :=
  match s with [] => true | c :: _ => negb (p c) end
  && match rev s with [] => true | c :: _ => negb (p c) end.

(** The pattern [r] matches nowhere in [s]: every attempt on a suffix of [s]
    fails, whatever follows the pattern. *)
Definition dead (s : ustr) (r : Re.regex) : Prop :=
  ∀ (R : Type) (i : nat) (s' : ustr) (g : option ustr)
    (k : nat → ustr → option ustr → option R),
    s' `suffix_of` s → Re.run r i s' g k = None.

(** The least number of characters a match of [r] takes. *)
Fixpoint min_len (r : Re.regex) : nat :=
  match r with
  | Re.Chr _ => 1
  | Re.Cat r1 r2 => min_len r1 + min_len r2
  | Re.Cap r1 => min_len r1
  | _ => 0
  end.

(** The first character, if any, is not in the class [p]; likewise the
    last. *)
Definition head_free (p : N → bool) (s : ustr) : bool :=
  match s with [] => true | c :: _ => negb (p c) end.

Definition last_free (p : N → bool) (s : ustr) : bool :=
  match rev s with [] => true | c :: _ => negb (p c) end.

(** Some "《" is followed, after at least one character, by a "》". *)
Fixpoint spans (s : ustr) : bool :=
  match s with
  | [] => false
  | _ :: s' =>
    starts_with (u "《") s && contains (u "》") (drop 1 s') || spans s'
  end.

(** [a] occurs in [s] followed by [b], directly or after one space. *)
Definition follows (a b s : ustr) : bool :=
  contains (a ++ b) s || contains (a ++ SP :: b) s.

(** The normal forms [normalize_title] leaves as they are: no
    "- youtube" in any letter case, no "《" that is followed after at least
    one character by a "》", and no bracket, pipe or colon as first or last
    character. *)
Definition is_normal (s : ustr) : bool :=
  negb (contains_fold (u "- youtube") s)
  && negb (spans s)
  && edge_free (one_of (u "《》[]()｜|：:")) s.

(** The clean forms [clean_title] leaves as they are: no pipe that is
    followed by the channel name, no hyphen that is followed by the site
    name (directly or after one space), none of the three playlist labels
    at the start, and no closing title bracket as last character. *)
Definition is_clean (s : ustr) : bool :=
  negb (follows (u "｜") (u "試當真") s)
  && negb (follows (u "|") (u "試當真") s)
  && negb (follows (u "-") (u "YouTube") s)
  && negb (starts_with (u "試映劇場") s)
  && negb (starts_with (u "試音片") s)
  && negb (starts_with (u "試乜都得") s)
  && last_free (one_of (u "》〉")) s.

(** ** JSON values and objects *)

(** The JSON scalars the catalogue files hold in the fields the scripts
    read: null (Python [None]), strings and integers. *)
Inductive value : Type :=
| VNull
| VStr (s : ustr)
| VInt (n : Z).

#[global] Instance value_eq_dec : EqDecision value.
Proof. solve_decision. Defined.

(** Python truthiness. *)
Definition truthy (v : value) : bool :=
  match v with
  | VNull => false
  | VStr s => nonempty s
  | VInt n => negb (n =? 0)%Z
  end.

(** Python [==] on these values. *)
Definition veqb (a b : value) : bool := bool_decide (a = b).

(** The text of a title field.  The catalogue's text fields are strings or
    null; the string functions below are only defined on strings. *)
Definition text (v : value) : ustr :=
  match v with
  | VStr s => s
  | _ => []
  end.

(** [d.get(k)] and [d.get(k, '')]. *)
Definition get (d : gmap string value) (k : string) : value :=
  default VNull (d !! k).

Definition get_or_empty (d : gmap string value) (k : string) : value :=
  default (VStr []) (d !! k).

(** ** Scores *)

Definition Qlt_bool (a b : Q) : bool := negb (Qle_bool b a).

(** Python's [max(a, b)] and [min(a, b)]: the first argument unless the
    second is strictly larger (smaller). *)
Definition fmax (a b : Q) : Q := if Qlt_bool a b then b else a.
Definition fmin (a b : Q) : Q := if Qlt_bool b a then b else a.

(** ** cross_reference_films.py *)

Module CrossRef.

Definition placeholders : list ustr := [u "／"; u "/"; u "-"; u ""; u " "].

(** A candidate as built by [find_matches]. *)
Record candidate : Type := MkCandidate {
  film : gmap string value;
  match_item : gmap string value;
  source : string;
  confidence : Q;
  match_type : string;
  film_title : value;
  film_full_title : value;
  match_title : value;
  match_full_title : value;
  video_url : value
}.

(** [max(similarities, key=lambda x: x[1])]: the first maximal pair. *)
Fixpoint max_by_score (best : string * Q) (l : list (string * Q))
    : string * Q :=
  match l with
  | [] => best
  | x :: l' => max_by_score (if Qlt_bool (snd best) (snd x) then x else best) l'
  end.

(** [list.sort(key=confidence, reverse=True)]: a stable sort, descending. *)
Fixpoint insert_desc (x : candidate) (l : list candidate) : list candidate :=
  match l with
  | [] => [x]
  | y :: l' =>
    if Qlt_bool (confidence x) (confidence y)
    then y :: insert_desc x l'
    else x :: l
  end.

Definition sort_desc (l : list candidate) : list candidate :=
  foldr insert_desc [] l.

(** [x] may stand before [y] in a list of descending confidence. *)
Definition not_below (x y : candidate) : Prop :=
  Qle_bool (confidence y) (confidence x) = true.

(** [c] has confidence [q] (equality of scores, as Python's [==]). *)
Definition scores (q : Q) (c : candidate) : Prop :=
  Qeq_bool (confidence c) q = true.

#[global] Instance scores_dec q c : Decision (scores q c).
Proof. unfold scores. apply _. Defined.

Section WithLibrary.
(** [SequenceMatcher(None, a, b).ratio()], [str.lower] and the
    character class [\w]. *)
Variable ratio : ustr → ustr → Q.
Variable lower : ustr → ustr.
Variable is_word : N → bool.

Definition calculate_similarity (str1 str2 : ustr) : Q :=
  if negb (nonempty str1) || negb (nonempty str2) then 0
  else if bool_decide (str2 ∈ placeholders)
          || (length (strip str2) <? 2)%nat then 0
  else if ueqb str1 str2 then 1
  else
    let norm1 := normalize_title str1 in
    let norm2 := normalize_title str2 in
    if negb (nonempty norm1) || negb (nonempty norm2)
       || (length (strip norm1) <? 2)%nat
       || (length (strip norm2) <? 2)%nat then 0
    else if ueqb norm1 norm2 then 0.95
    else
      let similarity := ratio (lower norm1) (lower norm2) in
      let similarity :=
        if (contains (lower norm1) (lower norm2)
            || contains (lower norm2) (lower norm1))
           && (3 <=? Nat.min (length norm1) (length norm2))%nat
        then fmax similarity 0.8 else similarity in
      let clean1 := Re.sub (Re.Chr (λ c, negb (is_word c))) [] (lower norm1) in
      let clean2 := Re.sub (Re.Chr (λ c, negb (is_word c))) [] (lower norm2) in
      if ueqb clean1 clean2 && (3 <=? length clean1)%nat
      then fmax similarity 0.9
      else if (contains clean1 clean2 || contains clean2 clean1)
              && (3 <=? Nat.min (length clean1) (length clean2))%nat
      then fmax similarity 0.85
      else similarity.

(** One comparison of the [similarities] list: appended when both
    fields are truthy. *)
Definition compare_fields (name : string) (a b : value)
    : list (string * Q) :=
  if truthy a && truthy b
  then [(name, calculate_similarity (text a) (text b))]
  else [].

(** The pairs compared for one pool item, in the order they are
    appended. *)
Definition similarities_of (source_name : string)
    (film item : gmap string value) : list (string * Q) :=
  let film_title := get_or_empty film "title" in
  let film_full_title := get_or_empty film "fullTitle" in
  let other_title := get_or_empty item "title" in
  let other_full_title := get_or_empty item "fullTitle" in
  let other_song := get_or_empty item "song" in
  let other_movie := get_or_empty item "movie" in
  compare_fields "title_to_title" film_title other_title
  ++ compare_fields "title_to_fullTitle" film_title other_full_title
  ++ compare_fields "fullTitle_to_title" film_full_title other_title
  ++ compare_fields "fullTitle_to_fullTitle" film_full_title other_full_title
  ++ (if bool_decide (source_name = "songs")
      then compare_fields "title_to_song" film_title other_song
           ++ compare_fields "title_to_movie" film_title other_movie
      else []).

(** The body of [for item in other_data]: the candidate the item
    contributes to [best_matches], if any. *)
Definition consider (source_name : string) (min_confidence : Q)
    (film item : gmap string value) : list candidate :=
  if negb (truthy (get item "videoUrl")) then []
  else
    match similarities_of source_name film item with
    | [] => []
    | first :: others =>
      let '(best_sim_type, best_sim_score) := max_by_score first others in
      if Qle_bool min_confidence best_sim_score
      then [ {| film := film;
                match_item := item;
                source := source_name;
                confidence := best_sim_score;
                match_type := best_sim_type;
                film_title := get_or_empty film "title";
                film_full_title := get_or_empty film "fullTitle";
                match_title := get_or_empty item "title";
                match_full_title := get_or_empty item "fullTitle";
                video_url := get item "videoUrl" |} ]
      else []
    end.

(** [best_matches] before sorting, in pool order. *)
Definition best_matches_of (source_name : string) (min_confidence : Q)
    (other_data : list (gmap string value)) (film : gmap string value)
    : list candidate :=
  flat_map (consider source_name min_confidence film) other_data.

(** What one film extends [matches] with: [best_matches[:3]] after the
    sort. *)
Definition top_matches (source_name : string) (min_confidence : Q)
    (other_data : list (gmap string value)) (film : gmap string value)
    : list candidate :=
  take 3 (sort_desc (best_matches_of source_name min_confidence other_data film)).

(** [find_matches] with [debug_film=None] (the debug output only
    prints). *)
Definition find_matches (films_without_url other_data : list (gmap string value))
    (source_name : string) (min_confidence : Q) : list candidate :=
  flat_map (top_matches source_name min_confidence other_data)
           films_without_url.

End WithLibrary.

End CrossRef.

(** ** matching_algorithm.py *)

Module Matching.

(** The [match_info] dictionary of [match_videos_to_json]; it is also the
    shape of match that [json_updater.py] consumes. *)
Record match_info : Type := MkMatchInfo {
  video : gmap string value;
  json_entry : gmap string value;
  confidence : Q;
  video_url : value;
  match_type : string
}.

(** Python's [max(scores)] over a non-empty list. *)
Definition max_list (first : Q) (others : list Q) : Q :=
  fold_left fmax others first.

(** [is_playlist_appropriate]: the body is [return True]. *)
Definition is_playlist_appropriate (playlist : value)
    (json_entry : gmap string value) : bool := true.

Section WithLibrary.
(** fuzzywuzzy's [fuzz.ratio], [fuzz.token_sort_ratio] and
    [fuzz.partial_ratio], and the character class [\d]. *)
Variable fuzz_ratio : ustr → ustr → Q.
Variable fuzz_token_sort_ratio : ustr → ustr → Q.
Variable fuzz_partial_ratio : ustr → ustr → Q.
Variable is_digit : N → bool.

(** [re.search(r'EP(\d+)', title, re.IGNORECASE)]; the episode is
    [group(0)]. *)
Definition extract_episode_info (title : ustr) : ustr * option ustr :=
  match Re.search (Re.Cat (Re.lit_i (u "EP")) (Re.Cap (Re.plus is_digit)))
                  title with
  | Some ep_match =>
    let episode :=
      take (Re.m_end ep_match - Re.m_start ep_match)
           (drop (Re.m_start ep_match) title) in
    let base_title := strip (remove_all episode title) in
    (base_title, Some episode)
  | None => (title, None)
  end.

Definition calculate_match_score (video_title json_title json_full_title : ustr)
    : Q :=
  let clean_video := clean_title video_title in
  let clean_json := clean_title json_title in
  let clean_full := clean_title json_full_title in
  if ueqb clean_video clean_json || ueqb clean_video clean_full then 100
  else
    let scores :=
      (if contains clean_json clean_video || contains clean_video clean_json
       then [95%Q] else [])
      ++ (if nonempty clean_full
             && (contains clean_full clean_video
                 || contains clean_video clean_full)
          then [95%Q] else [])
      ++ [fuzz_ratio clean_video clean_json]
      ++ (if nonempty clean_full
          then [fuzz_ratio clean_video clean_full] else [])
      ++ [fuzz_token_sort_ratio clean_video clean_json]
      ++ (if nonempty clean_full
          then [fuzz_token_sort_ratio clean_video clean_full] else [])
      ++ [fuzz_partial_ratio clean_video clean_json]
      ++ (if nonempty clean_full
          then [fuzz_partial_ratio clean_video clean_full] else [])
      ++ (let '(video_base, video_ep) := extract_episode_info clean_video in
          let '(json_base, json_ep) := extract_episode_info clean_json in
          match video_ep, json_ep with
          | Some v, Some j =>
            if nonempty v && nonempty j && ueqb v j
            then [fmin (fuzz_ratio video_base json_base + 20) 100]%Q
            else []
          | _, _ => []
          end) in
    match scores with
    | [] => 0
    | first :: others => max_list first others
    end.

Section WithThreshold.
(** [self.min_confidence] *)
Variable min_confidence : Q.

(** The body of [for entry in json_entries] on the pair
    [(best_match, best_score)]. *)
Definition best_step (video : gmap string value)
    (best : option (gmap string value) * Q)
    (entry : gmap string value) : option (gmap string value) * Q :=
  let video_title := get_or_empty video "title" in
  let playlist := get_or_empty video "playlist" in
  let title := get_or_empty entry "title" in
  let full_title := get_or_empty entry "fullTitle" in
  if truthy (get entry "videoUrl")
     && negb (veqb (get video "url") (get entry "videoUrl"))
  then best
  else
    let score :=
      calculate_match_score (text video_title) (text title) (text full_title) in
    let score :=
      if is_playlist_appropriate playlist entry then (score + 5)%Q else score in
    if Qlt_bool (snd best) score && Qle_bool min_confidence score
    then (Some entry, score)
    else best.

Definition find_best_match (video : gmap string value)
    (json_entries : list (gmap string value))
    : option (gmap string value) * Q :=
  fold_left (best_step video) json_entries (None, 0%Q).

(** What one video appends to [matches]; [if match:] is the
    truthiness of a dictionary, false for [None] and for [{}]. *)
Definition match_video (json_entries : list (gmap string value))
    (video : gmap string value) : list match_info :=
  match find_best_match video json_entries with
  | (Some entry, score) =>
    if bool_decide (entry = ∅) then []
    else [ {| video := video;
              json_entry := entry;
              confidence := score;
              video_url := get_or_empty video "url";
              match_type := if Qle_bool 90 score
                            then "automatic" else "fuzzy" |} ]
  | (None, _) => []
  end.

Definition match_videos_to_json (videos json_entries : list (gmap string value))
    : list match_info :=
  flat_map (match_video json_entries) videos.

End WithThreshold.
End WithLibrary.

(** An entry the loop of [find_best_match] does not skip. *)
Definition unlinked_or_same (video entry : gmap string value) : Prop :=
  truthy (get entry "videoUrl") = false
  ∨ get entry "videoUrl" = get video "url".

(** What the loop maintains about [best_match]. *)
Definition best_from (video : gmap string value)
    (seen : list (gmap string value))
    (best : option (gmap string value) * Q) : Prop :=
  match best.1 with
  | Some entry => entry ∈ seen ∧ unlinked_or_same video entry
  | None => True
  end.

End Matching.

(** ** json_updater.py *)

Module Updater.

Import Matching.

(** Logging levels and the records the merge loop emits. *)
Inductive level : Type := DEBUG | INFO | WARNING | ERROR.

Inductive event : Type :=
| Replacing (entry_id existing_url video_url : value)
| UpdatedId (entry_id : value) (confidence : Q)
| SkippingDuplicate (entry_id existing_url : value)
| UpdatedTitle (title : value) (confidence : Q).

Definition level_of (e : event) : level :=
  match e with
  | Replacing _ _ _ => INFO
  | UpdatedId _ _ => INFO
  | SkippingDuplicate _ _ => DEBUG
  | UpdatedTitle _ _ => INFO
  end.

#[global] Instance level_eq_dec : EqDecision level.
Proof. solve_decision. Defined.

Definition update_entry_with_video_url (entry : gmap string value)
    (video_url : value) (confidence : Q) : gmap string value :=
  <["videoUrl" := video_url]> entry.

(** The outcome of a loop over [data]: the data, the number of updates
    counted, the log records. *)
Definition outcome : Type := list (gmap string value) * nat * list event.

(** [for i, entry in enumerate(data)] of the branch with an id: the first
    entry with that id is decided on, then [break]. *)
Fixpoint by_id (entry_id video_url : value) (confidence : Q)
    (data : list (gmap string value)) : outcome :=
  match data with
  | [] => ([], 0, [])
  | entry :: rest =>
    if veqb (get entry "id") entry_id then
      let existing_url := get entry "videoUrl" in
      if negb (truthy existing_url) || Qlt_bool 95 confidence
         || negb (veqb existing_url video_url)
      then (update_entry_with_video_url entry video_url confidence :: rest,
            1,
            (if truthy existing_url && negb (veqb existing_url video_url)
             then [Replacing entry_id existing_url video_url] else [])
            ++ [UpdatedId entry_id confidence])
      else (entry :: rest, 0, [SkippingDuplicate entry_id existing_url])
    else
      let '(rest', n, log) := by_id entry_id video_url confidence rest in
      (entry :: rest', n, log)
  end.

(** The same loop of the branch without an id, matching by title. *)
Fixpoint by_title (title video_url : value) (confidence : Q)
    (data : list (gmap string value)) : outcome :=
  match data with
  | [] => ([], 0, [])
  | entry :: rest =>
    if veqb (get entry "title") title then
      if negb (truthy (get entry "videoUrl")) || Qlt_bool 95 confidence
      then (update_entry_with_video_url entry video_url confidence :: rest,
            1, [UpdatedTitle title confidence])
      else (entry :: rest, 0, [])
    else
      let '(rest', n, log) := by_title title video_url confidence rest in
      (entry :: rest', n, log)
  end.

(** The body of [for match in matches]. *)
Definition merge_match (data : list (gmap string value)) (m : match_info)
    : outcome :=
  let entry_id := get (json_entry m) "id" in
  if negb (veqb entry_id VNull)
  then by_id entry_id (video_url m) (confidence m) data
  else by_title (get_or_empty (json_entry m) "title")
                (video_url m) (confidence m) data.

(** Lines 113-144 of [apply_matches_to_file]: the merge loop over the
    loaded [data], with [updates_made] and the log. *)
Fixpoint apply_matches (data : list (gmap string value))
    (matches : list match_info) : outcome :=
  match matches with
  | [] => (data, 0, [])
  | m :: matches' =>
    let '(data1, n1, log1) := merge_match data m in
    let '(data2, n2, log2) := apply_matches data1 matches' in
    (data2, n1 + n2, log1 ++ log2)
  end.

Definition data_of (o : outcome) : list (gmap string value) := o.1.1.
Definition updates_made (o : outcome) : nat := o.1.2.
Definition log_of (o : outcome) : list event := o.2.

(** The record a match addresses: the first one in list order that
    carries the match's id or, for a match without id, its title. *)
Definition has_id (entry_id : value) (entry : gmap string value) : Prop :=
  get entry "id" = entry_id.

Definition has_title (title : value) (entry : gmap string value) : Prop :=
  get entry "title" = title.

#[global] Instance has_id_dec entry_id entry : Decision (has_id entry_id entry).
Proof. unfold has_id. apply _. Defined.

#[global] Instance has_title_dec title entry : Decision (has_title title entry).
Proof. unfold has_title. apply _. Defined.

Definition by_identity (m : match_info) : bool :=
  negb (veqb (get (json_entry m) "id") VNull).

Definition locate (data : list (gmap string value)) (m : match_info)
    : option (nat * gmap string value) :=
  if by_identity m
  then list_find (has_id (get (json_entry m) "id")) data
  else list_find (has_title (get_or_empty (json_entry m) "title")) data.

End Updater.

(** ** apply_video_url_updates.py *)

Module ApplyUpdates.

(** The fields of a cross-reference match that [apply_updates] reads. *)
Record xref_match : Type := MkXref {
  film_title : value;
  video_url : value;
  confidence : Q
}.

(** [for i, film in enumerate(films)]: the first film with that title and
    no link gets the link, then [break]. *)
Fixpoint update_first (film_title video_url : value)
    (films : list (gmap string value)) : list (gmap string value) * nat :=
  match films with
  | [] => ([], 0)
  | film :: rest =>
    if veqb (get film "title") film_title && negb (truthy (get film "videoUrl"))
    then (<["videoUrl" := video_url]> film :: rest, 1)
    else
      let '(rest', n) := update_first film_title video_url rest in
      (film :: rest', n)
  end.

(** [for match in high_confidence_matches] *)
Fixpoint update_all (films : list (gmap string value))
    (matches : list xref_match) : list (gmap string value) * nat :=
  match matches with
  | [] => (films, 0)
  | m :: matches' =>
    let '(films1, n1) := update_first (film_title m) (video_url m) films in
    let '(films2, n2) := update_all films1 matches' in
    (films2, n1 + n2)
  end.

(** [apply_updates] on the loaded [films] and [results['all_matches']]:
    the films written back and [updates_made]. *)
Definition apply_updates (films : list (gmap string value))
    (all_matches : list xref_match) (min_confidence : Q)
    : list (gmap string value) * nat :=
  let high_confidence_matches :=
    filter (λ m, Qle_bool min_confidence (confidence m) = true) all_matches in
  update_all films high_confidence_matches.

(** A film the loop may link for a match: it has the match's title and no
    link yet. *)
Definition awaits_link (film_title : value) (film : gmap string value) : Prop :=
  get film "title" = film_title ∧ truthy (get film "videoUrl") = false.

#[global] Instance awaits_link_dec film_title film :
  Decision (awaits_link film_title film).
Proof. unfold awaits_link. apply _. Defined.

(** [film'] is [film] up to a link it did not have: a film that has a link
    is kept as it is, and every field but [videoUrl] is kept in any case. *)
Definition kept (film film' : gmap string value) : Prop :=
  (truthy (get film "videoUrl") = true → film' = film)
  ∧ ∀ k : string, k ≠ "videoUrl" → film' !! k = film !! k.

End ApplyUpdates.

(** ** cross_reference_films.py: the matches of a run and their tiers *)

Module CrossRefRun.

Import CrossRef.

(** What a candidate records about the film and the pool item it pairs. *)
Definition well_formed (source_name : string) (min_confidence : Q)
    (the_film item : gmap string value) (c : candidate) : Prop :=
  film c = the_film
  ∧ match_item c = item
  ∧ source c = source_name
  ∧ truthy (get item "videoUrl") = true
  ∧ video_url c = get item "videoUrl"
  ∧ film_title c = get_or_empty the_film "title"
  ∧ Qle_bool min_confidence (confidence c) = true.

(** The confidence tiers of [main]. *)
Definition high_confidence (all_matches : list candidate) : list candidate :=
  filter (λ m, Qle_bool 0.9 (confidence m) = true) all_matches.

Definition medium_confidence (all_matches : list candidate) : list candidate :=
  filter (λ m, Qle_bool 0.8 (confidence m) && Qlt_bool (confidence m) 0.9 = true)
         all_matches.

Definition low_confidence (all_matches : list candidate) : list candidate :=
  filter (λ m, Qle_bool 0.6 (confidence m) && Qlt_bool (confidence m) 0.8 = true)
         all_matches.

Section WithLibrary.
Variable ratio : ustr → ustr → Q.
Variable lower : ustr → ustr.
Variable is_word : N → bool.

(** [films_without_url] of [main]. *)
Definition films_without_url (films : list (gmap string value))
    : list (gmap string value) :=
  filter (λ film, truthy (get film "videoUrl") = false) films.

(** [all_matches] of [main]: the four searches with threshold 0.6, then the
    sort by confidence. *)
Definition all_matches (films ads variety_shows audition_films songs
                        : list (gmap string value)) : list candidate :=
  let without := films_without_url films in
  let ads_matches := find_matches ratio lower is_word without ads "ads" 0.6 in
  let variety_matches :=
    find_matches ratio lower is_word without variety_shows "variety-shows" 0.6 in
  let audition_matches :=
    find_matches ratio lower is_word without audition_films "audition-films" 0.6 in
  let songs_matches :=
    find_matches ratio lower is_word without songs "songs" 0.6 in
  sort_desc (ads_matches ++ variety_matches ++ audition_matches ++ songs_matches).

End WithLibrary.

(** [film'] is [film], or [film] linked with the link of a pool item:
    [film] had no link, and one of the [matches] of high confidence has
    its title and pairs it with an item of the [pool] that has a link. *)
Definition linked_from (matches : list candidate)
    (pool : list (gmap string value)) (film film' : gmap string value)
    : Prop :=
  film' = film
  ∨ ∃ m, m ∈ matches
         ∧ Qle_bool 0.9 (confidence m) = true
         ∧ truthy (get film "videoUrl") = false
         ∧ get film "title" = film_title m
         ∧ match_item m ∈ pool
         ∧ truthy (get (match_item m) "videoUrl") = true
         ∧ film' = <["videoUrl" := get (match_item m) "videoUrl"]> film.

(** A match as [apply_video_url_updates.py] reads it back from the results
    file. *)
Definition as_result (m : candidate) : ApplyUpdates.xref_match :=
  {| ApplyUpdates.film_title := film_title m;
     ApplyUpdates.video_url := video_url m;
     ApplyUpdates.confidence := confidence m |}.

End CrossRefRun.

(** ** cross_reference_films.py: the summary of a run *)

Module CrossRefMain.

Import CrossRef.

(** The exceptions the summary of [main] can raise. *)
Inductive error : Type := KeyError | ZeroDivisionError.

(** ['coverage_improvement_potential'] is a string made of three numbers:
    the films with matches, the films without a link, and the percentage
    of the former among the latter. *)
Record summary : Type := MkSummary {
  total_films : nat;
  films_with_url : nat;
  films_without_url : nat;
  total_matches_found : nat;
  unique_films_with_matches : nat;
  coverage_improvement_potential : nat * nat * Q
}.

Record confidence_breakdown : Type := MkBreakdown {
  high_confidence : nat;
  medium_confidence : nat;
  low_confidence : nat
}.

Record matches_by_source : Type := MkBySource {
  ads : nat;
  variety_shows : nat;
  audition_films : nat;
  songs : nat
}.

Record results : Type := MkResults {
  summary_of : summary;
  confidence_breakdown_of : confidence_breakdown;
  matches_by_source_of : matches_by_source;
  all_matches : list candidate
}.

(** [len([m for m in all_matches if m['source'] == source])] *)
Definition from_source (source_name : string) (all_matches : list candidate)
    : nat :=
  length (filter (λ m, source m = source_name) all_matches).

Section WithLibrary.
Variable ratio : ustr → ustr → Q.
Variable lower : ustr → ustr.
Variable is_word : N → bool.

(** [main] on the loaded data, from the split of the films to the results
    it saves.  [match['film']['title']] raises [KeyError] for a film that
    has no title; the percentage divides by the number of films without a
    link. *)
Definition main (films ads variety_shows audition_films songs
                 : list (gmap string value)) : error + results :=
  let films_without_url := CrossRefRun.films_without_url films in
  let films_with_url :=
    filter (λ film, truthy (get film "videoUrl") = true) films in
  let all_matches :=
    CrossRefRun.all_matches ratio lower is_word films ads variety_shows
                            audition_films songs in
  let high_confidence := CrossRefRun.high_confidence all_matches in
  let medium_confidence := CrossRefRun.medium_confidence all_matches in
  let low_confidence := CrossRefRun.low_confidence all_matches in
  match mapM (λ m, film m !! "title") all_matches with
  | None => inl KeyError
  | Some titles =>
    let unique_films_with_matches := length (remove_dups titles) in
    match length films_without_url with
    | 0 => inl ZeroDivisionError
    | S _ =>
      inr (MkResults
             (MkSummary (length films) (length films_with_url)
                (length films_without_url) (length all_matches)
                unique_films_with_matches
                (unique_films_with_matches, length films_without_url,
                 (inject_Z (Z.of_nat unique_films_with_matches)
                  / inject_Z (Z.of_nat (length films_without_url)) * 100)%Q))
             (MkBreakdown (length high_confidence) (length medium_confidence)
                (length low_confidence))
             (MkBySource (from_source "ads" all_matches)
                (from_source "variety-shows" all_matches)
                (from_source "audition-films" all_matches)
                (from_source "songs" all_matches))
             all_matches)
    end
  end.

End WithLibrary.

(** The sources [main] searches. *)
Definition sources : list string :=
  ["ads"; "variety-shows"; "audition-films"; "songs"].

(** What holds of the numbers of saved results. *)
Definition consistent (r : results) : Prop :=
  films_with_url (summary_of r) + films_without_url (summary_of r)
  = total_films (summary_of r)
  ∧ 0 < films_without_url (summary_of r)
  ∧ total_matches_found (summary_of r) = length (all_matches r)
  ∧ high_confidence (confidence_breakdown_of r)
    + medium_confidence (confidence_breakdown_of r)
    + low_confidence (confidence_breakdown_of r)
    = total_matches_found (summary_of r)
  ∧ ads (matches_by_source_of r) + variety_shows (matches_by_source_of r)
    + audition_films (matches_by_source_of r) + songs (matches_by_source_of r)
    = total_matches_found (summary_of r)
  ∧ unique_films_with_matches (summary_of r) ≤ total_matches_found (summary_of r)
  ∧ unique_films_with_matches (summary_of r) ≤ films_without_url (summary_of r)
  ∧ (unique_films_with_matches (summary_of r) = 0
     ↔ total_matches_found (summary_of r) = 0)
  ∧ (0 <= (coverage_improvement_potential (summary_of r)).2)%Q
  ∧ ((coverage_improvement_potential (summary_of r)).2 <= 100)%Q.

End CrossRefMain.

(** ** json_updater.py: statistics and validation *)

Module Stats.

(** An element of a data file: an object, or a string (the file of
    supporting actors is an array of strings). *)
Inductive element : Type :=
| Object (d : gmap string value)
| Text (s : ustr).

(** [isinstance(entry, dict) and entry.get('videoUrl')] *)
Definition has_url (entry : element) : bool :=
  match entry with
  | Object d => truthy (get d "videoUrl")
  | Text _ => false
  end.

(** [sum(1 for entry in data if ...)] *)
Fixpoint count_if (p : element → bool) (data : list element) : nat :=
  match data with
  | [] => 0
  | entry :: rest => (if p entry then 1 else 0) + count_if p rest
  end.

Record file_statistics : Type := MkStatistics {
  filename : string;
  total_entries : nat;
  entries_with_urls : nat;
  entries_without_urls : Z;
  url_coverage : Q
}.

(** [get_file_statistics] on the loaded [data] of a known file. *)
Definition get_file_statistics (filename : string) (data : list element)
    : file_statistics :=
  let total_entries := length data in
  let entries_with_urls :=
    match data with
    | Object _ :: _ => count_if has_url data
    | _ => 0
    end in
  let entries_without_urls :=
    (Z.of_nat total_entries - Z.of_nat entries_with_urls)%Z in
  {| filename := filename;
     total_entries := total_entries;
     entries_with_urls := entries_with_urls;
     entries_without_urls := entries_without_urls;
     url_coverage :=
       if (0 <? total_entries)%nat
       then (inject_Z (Z.of_nat entries_with_urls)
             / inject_Z (Z.of_nat total_entries) * 100)%Q
       else 0%Q |}.

(** An issue reported by [validate_video_urls]. *)
Record issue : Type := MkIssue {
  entry_id : value;
  title : value;
  problem : string;
  url : value
}.

Definition watch_prefix : ustr := u "https://www.youtube.com/watch?v=".

(** [validate_video_urls] on the loaded [data]. *)
Definition validate_video_urls (data : list (gmap string value)) : list issue :=
  flat_map (λ entry,
    let video_url := get entry "videoUrl" in
    if truthy video_url && negb (starts_with watch_prefix (text video_url))
    then [ {| entry_id := get entry "id";
              title := get entry "title";
              problem := "Invalid URL format";
              url := video_url |} ]
    else []) data.

End Stats.

(** ** video_matcher.py: the confidence counts of the report *)

Module Report.

Import Matching.

(** The three counts of [generate_report] for one file. *)
Definition high_confidence_matches (matches : list match_info) : nat :=
  length (filter (λ m, Qle_bool 90 (confidence m) = true) matches).

Definition medium_confidence_matches (matches : list match_info) : nat :=
  length (filter (λ m, Qle_bool 75 (confidence m)
                       && Qlt_bool (confidence m) 90 = true) matches).

Definition low_confidence_matches (matches : list match_info) : nat :=
  length (filter (λ m, Qlt_bool (confidence m) 75 = true) matches).

End Report.

(** ** json_updater.py and video_matcher.py: updating the files *)

Module VideoMatcher.

Import Matching.

(** [json_files] of [JSONUpdater]. *)
Definition json_files : gmap string string :=
  list_to_map [("variety-shows", "variety-shows.json");
               ("films", "films.json");
               ("songs", "songs.json");
               ("ads", "ads.json");
               ("audition-films", "audition-films.json");
               ("supporting-actors", "supporting-actors.json")].

(** What the file system answers for a file: whether [backup_file] returns
    a path, what [load_json_file] returns ([[]] when the file cannot be
    read), and whether [save_json_file] succeeds. *)
Record file_io : Type := MkIO {
  backup_made : bool;
  loaded : list (gmap string value);
  save_ok : bool
}.

(** What [apply_matches_to_file] does to its file. *)
Inductive write : Type :=
| NoWrite
| Saved (filename : string) (data : list (gmap string value))
| SaveFailed (filename : string) (data : list (gmap string value)).

(** [apply_matches_to_file]: the number it returns and the write it
    makes. *)
Definition apply_matches_to_file (io : string → file_io) (file_type : string)
    (matches : list match_info) : nat * write :=
  match json_files !! file_type with
  | None => (0, NoWrite)
  | Some filename =>
    if backup_made (io filename) then
      match loaded (io filename) with
      | [] => (0, NoWrite)
      | data =>
        let o := Updater.apply_matches data matches in
        if 0 <? Updater.updates_made o then
          if save_ok (io filename)
          then (Updater.updates_made o, Saved filename (Updater.data_of o))
          else (0, SaveFailed filename (Updater.data_of o))
        else (Updater.updates_made o, NoWrite)
      end
    else (0, NoWrite)
  end.

(** [apply_matches] of [VideoMatcher] over the items of [all_matches], in
    order: the update results and the writes.  The keys of [all_matches]
    are distinct, so each file is read once. *)
Fixpoint apply_matches (io : string → file_io)
    (all_matches : list (string * list match_info)) (dry_run : bool)
    : list (string * nat) * list write :=
  match all_matches with
  | [] => ([], [])
  | (json_file_type, matches) :: rest =>
    let '(updates_made, w) :=
      if dry_run then (length matches, NoWrite)
      else apply_matches_to_file io json_file_type matches in
    let '(update_results, writes) := apply_matches io rest dry_run in
    ((json_file_type, updates_made) :: update_results, w :: writes)
  end.

(** The update results of [main]: with [--report-only] nothing is applied
    and every match counts. *)
Definition update_results (io : string → file_io)
    (all_matches : list (string * list match_info))
    (report_only dry_run : bool) : list (string * nat) * list write :=
  if report_only
  then ((λ kv, (kv.1, length kv.2)) <$> all_matches, [])
  else apply_matches io all_matches dry_run.

(** The two sums of the summary of [generate_report]. *)
Definition total_matches_found (all_matches : list (string * list match_info))
    : nat :=
  sum_list_with (λ kv, length kv.2) all_matches.

Definition total_updates_applied (update_results : list (string * nat)) : nat :=
  sum_list_with snd update_results.

(** A write that touches the file. *)
Definition writes_to (w : write) (filename : string)
    (data : list (gmap string value)) : Prop :=
  w = Saved filename data ∨ w = SaveFailed filename data.

End VideoMatcher.

(** ** Concrete catalogue data used in the examples below *)

Module Examples.

Import Matching.

Definition url1 : value := VStr (u "https://www.youtube.com/watch?v=AAAAAAAAAAA").
Definition url2 : value := VStr (u "https://www.youtube.com/watch?v=BBBBBBBBBBB").

(** A variety-show record with an id that is already linked to [url1]. *)
Definition linked_show : gmap string value :=
  {[ "id" := VInt 1; "title" := VStr (u "試玩毛EP06《哈利波腎》"); "videoUrl" := url1 ]}.

(** A match for that record proposing [url2] with confidence 80. *)
Definition other_url_match : match_info :=
  {| video := {[ "title" := VStr (u "試玩毛EP06《哈利波腎》｜試當真"); "url" := url2 ]};
     json_entry := {[ "id" := VInt 1; "title" := VStr (u "試玩毛EP06《哈利波腎》") ]};
     confidence := 80;
     video_url := url2;
     match_type := "fuzzy" |}.

(** The same proposal with confidence 99. *)
Definition sure_other_url_match : match_info :=
  {| video := {[ "title" := VStr (u "試玩毛EP06《哈利波腎》｜試當真"); "url" := url2 ]};
     json_entry := {[ "id" := VInt 1; "title" := VStr (u "試玩毛EP06《哈利波腎》") ]};
     confidence := 99;
     video_url := url2;
     match_type := "automatic" |}.

(** The same proposal for a record that is looked up by title. *)
Definition linked_film : gmap string value :=
  {[ "title" := VStr (u "哈利波腎"); "videoUrl" := url1 ]}.

Definition other_url_title_match : match_info :=
  {| video := {[ "title" := VStr (u "哈利波腎"); "url" := url2 ]};
     json_entry := {[ "title" := VStr (u "哈利波腎") ]};
     confidence := 80;
     video_url := url2;
     match_type := "fuzzy" |}.

(** The record with [id = 42] and no link, and a match for it. *)
Definition record42 : gmap string value :=
  {[ "id" := VInt 42; "title" := VStr (u "哈利波腎") ]}.

Definition match42 (confidence : Q) : match_info :=
  {| video := {[ "title" := VStr (u "哈利波腎"); "url" := url1 ]};
     json_entry := record42;
     confidence := confidence;
     video_url := url1;
     match_type := "automatic" |}.

(** Two films that share a title, told apart by their year. *)
Definition film_2020 : gmap string value :=
  {[ "title" := VStr (u "哈利波腎"); "year" := VInt 2020 ]}.

Definition film_2021 : gmap string value :=
  {[ "title" := VStr (u "哈利波腎"); "year" := VInt 2021 ]}.

Definition title_match : match_info :=
  {| video := {[ "title" := VStr (u "哈利波腎"); "url" := url1 ]};
     json_entry := {[ "title" := VStr (u "哈利波腎") ]};
     confidence := 80;
     video_url := url1;
     match_type := "fuzzy" |}.

(** A record with the title of [record42] that is linked to [url2]. *)
Definition taken_film : gmap string value :=
  {[ "title" := VStr (u "哈利波腎"); "videoUrl" := url2 ]}.

(** A video whose cleaned title is that of [record42]. *)
Definition video_hp : gmap string value :=
  {[ "title" := VStr (u "哈利波腎｜試當真"); "url" := url1;
     "playlist" := VStr (u "試玩毛") ]}.

(** Stand-ins for the library functions where an example needs some. *)
Definition no_ratio : ustr → ustr → Q := λ _ _, 0%Q.
Definition ascii_digit (c : N) : bool := ((48 <=? c) && (c <=? 57))%N.

End Examples.

(** ** matching_algorithm.py: the two tests of the loop of find_best_match *)

Module MatchingSpec.

Import Matching.

(** The scale of the fuzzy ratios, 0 to 100. *)
Definition percent (q : Q) : Prop := (0 <= q)%Q ∧ (q <= 100)%Q.

(** [entry.get('videoUrl') and video.get('url') != entry.get('videoUrl')]:
    the entry is passed over. *)
Definition passed_over (video entry : gmap string value) : bool :=
  truthy (get entry "videoUrl")
  && negb (veqb (get video "url") (get entry "videoUrl")).

Section WithLibrary.
Variable fuzz_ratio : ustr → ustr → Q.
Variable fuzz_token_sort_ratio : ustr → ustr → Q.
Variable fuzz_partial_ratio : ustr → ustr → Q.
Variable is_digit : N → bool.

(** [score] of the loop for [entry], the playlist bonus included. *)
Definition boosted_score (video entry : gmap string value) : Q :=
  let score :=
    calculate_match_score fuzz_ratio fuzz_token_sort_ratio fuzz_partial_ratio
      is_digit (text (get_or_empty video "title"))
      (text (get_or_empty entry "title"))
      (text (get_or_empty entry "fullTitle")) in
  if is_playlist_appropriate (get_or_empty video "playlist") entry
  then (score + 5)%Q else score.

(** What the loop has established about [(best_match, best_score)] once it
    has gone through the entries [seen]. *)
Definition best_among (min_confidence : Q) (video : gmap string value)
    (seen : list (gmap string value))
    (best : option (gmap string value) * Q) : Prop :=
  Qle_bool 0 best.2 = true
  ∧ (∀ entry, entry ∈ seen → passed_over video entry = false →
       Qle_bool min_confidence (boosted_score video entry) = true →
       Qle_bool (boosted_score video entry) best.2 = true)
  ∧ match best.1 with
    | Some entry =>
      entry ∈ seen
      ∧ passed_over video entry = false
      ∧ best.2 = boosted_score video entry
      ∧ Qle_bool min_confidence best.2 = true
      ∧ Qlt_bool 0 best.2 = true
    | None => best.2 = 0%Q
    end.

End WithLibrary.

End MatchingSpec.

(** ** json_updater.py: what a batch of matches may do to a record *)

Module UpdaterSpec.

Import Matching.

(** [entry'] is [entry] with, at most, its link replaced by the URL of one
    of the [matches]; every other field is as before. *)
Definition relinked (matches : list match_info)
    (entry entry' : gmap string value) : Prop :=
  (∀ k : string, k ≠ "videoUrl" → entry' !! k = entry !! k)
  ∧ (entry' = entry
     ∨ ∃ m, m ∈ matches ∧ entry' !! "videoUrl" = Some (video_url m)).

(** The number of records with a link, as [get_file_statistics] counts
    them. *)
Definition linked_count (data : list (gmap string value)) : nat :=
  Stats.count_if Stats.has_url (Stats.Object <$> data).

(** A link that [validate_video_urls] does not report. *)
Definition valid_link (video_url : value) : Prop :=
  truthy video_url = true →
  starts_with Stats.watch_prefix (text video_url) = true.

End UpdaterSpec.

(** ** apply_video_url_updates.py: how a run may change a film *)

Module ApplyUpdatesSpec.

Import ApplyUpdates.

(** [film'] is [film], or [film] linked by one of the [matches] that
    reaches the minimum confidence and names its title, [film] having had
    no link. *)
Definition linked_by (matches : list xref_match) (min_confidence : Q)
    (film film' : gmap string value) : Prop :=
  film' = film
  ∨ ∃ m, m ∈ matches
         ∧ Qle_bool min_confidence (confidence m) = true
         ∧ awaits_link (film_title m) film
         ∧ film' = <["videoUrl" := video_url m]> film.

End ApplyUpdatesSpec.

(** ** Further example data *)

Module MoreExamples.

Import Examples.

(** A pool item whose title contains the title of [film_2020]. *)
Definition spin_off : gmap string value :=
  {[ "title" := VStr (u "哈利波腎外傳"); "videoUrl" := url2 ]}.

(** The candidate [find_matches] builds for [film_2020] and [linked_film]. *)
Definition exact_candidate : CrossRef.candidate :=
  {| CrossRef.film := film_2020;
     CrossRef.match_item := linked_film;
     CrossRef.source := "ads";
     CrossRef.confidence := 1;
     CrossRef.match_type := "title_to_title";
     CrossRef.film_title := VStr (u "哈利波腎");
     CrossRef.film_full_title := VStr [];
     CrossRef.match_title := VStr (u "哈利波腎");
     CrossRef.match_full_title := VStr [];
     CrossRef.video_url := url1 |}.

(** A match of the results file for the films titled as [film_2020]. *)
Definition result_hp : ApplyUpdates.xref_match :=
  {| ApplyUpdates.film_title := VStr (u "哈利波腎");
     ApplyUpdates.video_url := url1;
     ApplyUpdates.confidence := 0.95 |}.

(** The candidate [find_matches] builds for [film_2020] and [spin_off] under
    the stand-ins of the examples ([no_ratio] for the sequence matcher,
    ASCII digits for the word characters): the containment rule gives 0.8.
    With the library's own word characters the rule on the cleaned titles
    gives 0.85. *)
Definition partial_candidate : CrossRef.candidate :=
  {| CrossRef.film := film_2020;
     CrossRef.match_item := spin_off;
     CrossRef.source := "ads";
     CrossRef.confidence := 0.8;
     CrossRef.match_type := "title_to_title";
     CrossRef.film_title := VStr (u "哈利波腎");
     CrossRef.film_full_title := VStr [];
     CrossRef.match_title := VStr (u "哈利波腎外傳");
     CrossRef.match_full_title := VStr [];
     CrossRef.video_url := url2 |}.

(** The results of a run on [film_2020] with the two items as ads, under
    the same stand-ins. *)
Definition results_hp_run : CrossRefMain.results :=
  CrossRefMain.MkResults
    (CrossRefMain.MkSummary 1 0 1 2 1 (1, 1, 100%Q))
    (CrossRefMain.MkBreakdown 1 1 0)
    (CrossRefMain.MkBySource 2 0 0 0)
    [exact_candidate; partial_candidate].

End MoreExamples.

(** * Properties *)

(** ** The merge loop of json_updater.py *)

Section UpdaterFacts.
Import Matching Updater.

Implicit Types (data : list (gmap string value)) (m : match_info).
Implicit Types (entry e : gmap string value).

(** The id loop, read as "find the first record with the id, decide". *)
Lemma by_id_find entry_id video_url confidence data :
  by_id entry_id video_url confidence data =
  match list_find (has_id entry_id) data with
  | Some (i, e) =>
    let existing_url := get e "videoUrl" in
    if negb (truthy existing_url) || Qlt_bool 95 confidence
       || negb (veqb existing_url video_url)
    then (<[i := <["videoUrl" := video_url]> e]> data, 1,
          (if truthy existing_url && negb (veqb existing_url video_url)
           then [Replacing entry_id existing_url video_url] else [])
          ++ [UpdatedId entry_id confidence])
    else (data, 0, [SkippingDuplicate entry_id existing_url])
  | None => (data, 0, [])
  end.
Proof.
  induction data as [|entry rest IH]; [done|].
  cbn [by_id list_find]. unfold veqb at 1, has_id at 1.
  destruct (decide (get entry "id" = entry_id)) as [Heq|Hne].
  - rewrite bool_decide_eq_true_2 by done. cbn.
    by destruct (_ || _).
  - rewrite bool_decide_eq_false_2 by done.
    rewrite IH. destruct (list_find _ rest) as [[i e]|]; cbn; [|done].
    by destruct (_ || _).
Qed.

Lemma by_title_find title video_url confidence data :
  by_title title video_url confidence data =
  match list_find (has_title title) data with
  | Some (i, e) =>
    if negb (truthy (get e "videoUrl")) || Qlt_bool 95 confidence
    then (<[i := <["videoUrl" := video_url]> e]> data, 1,
          [UpdatedTitle title confidence])
    else (data, 0, [])
  | None => (data, 0, [])
  end.
Proof.
  induction data as [|entry rest IH]; [done|].
  cbn [by_title list_find]. unfold veqb at 1, has_title at 1.
  destruct (decide (get entry "title" = title)) as [Heq|Hne].
  - rewrite bool_decide_eq_true_2 by done. cbn.
    by destruct (_ || _).
  - rewrite bool_decide_eq_false_2 by done.
    rewrite IH. destruct (list_find _ rest) as [[i e]|]; cbn; [|done].
    by destruct (_ || _).
Qed.

(** Setting the link keeps a record where the lookup finds it. *)
Lemma list_find_update (P : gmap string value → Prop)
    `{!∀ x, Decision (P x)} data i e e' :
  list_find P data = Some (i, e) → P e' →
  list_find P (<[i := e']> data) = Some (i, e').
Proof.
  intros (Hi & _ & Hleast)%list_find_Some He'.
  apply list_find_insert_Some. right; left.
  split_and!; eauto using lookup_lt_Some.
Qed.

Lemma has_id_update entry_id e video_url :
  has_id entry_id e → has_id entry_id (<["videoUrl" := video_url]> e).
Proof. unfold has_id, get. by rewrite lookup_insert_ne. Qed.

Lemma has_title_update title e video_url :
  has_title title e → has_title title (<["videoUrl" := video_url]> e).
Proof. unfold has_title, get. by rewrite lookup_insert_ne. Qed.

Lemma get_update_videoUrl e video_url :
  get (<["videoUrl" := video_url]> e) "videoUrl" = video_url.
Proof. unfold get. by rewrite lookup_insert_eq. Qed.

Lemma locate_update data m i e :
  locate data m = Some (i, e) →
  locate (<[i := <["videoUrl" := video_url m]> e]> data) m
  = Some (i, <["videoUrl" := video_url m]> e).
Proof.
  unfold locate. destruct (by_identity m); intros Hfind.
  - apply (list_find_update _ _ _ e); [done|].
    apply has_id_update. by apply list_find_Some in Hfind as (_ & ? & _).
  - apply (list_find_update _ _ _ e); [done|].
    apply has_title_update. by apply list_find_Some in Hfind as (_ & ? & _).
Qed.

(** [merge_match] in terms of [locate]. *)
Lemma merge_match_locate data m :
  merge_match data m =
  if by_identity m
  then by_id (get (json_entry m) "id") (video_url m) (confidence m) data
  else by_title (get_or_empty (json_entry m) "title")
                (video_url m) (confidence m) data.
Proof. done. Qed.

(** C1 (as amended).  Override protection is a property of the title
    lookup only.  Let a match address a record whose link [U1] is set, and
    propose a different URL [U2].  If the match carries no id (lookup by
    title) and its confidence is at most 95, the merge step leaves the
    data as it is, counts no update and logs nothing.  If the match
    carries an id, the step replaces [U1] by [U2] at any confidence,
    counts one update and logs the replacement. *)
Theorem override_protection data m i e :
  locate data m = Some (i, e) →
  truthy (get e "videoUrl") = true →
  get e "videoUrl" ≠ video_url m →
  (by_identity m = false → Qle_bool (confidence m) 95 = true →
   merge_match data m = (data, 0, []))
  ∧ (by_identity m = true →
     merge_match data m =
       (<[i := <["videoUrl" := video_url m]> e]> data, 1,
        [Replacing (get (json_entry m) "id") (get e "videoUrl") (video_url m);
         UpdatedId (get (json_entry m) "id") (confidence m)])).
Proof.
  intros Hfind Hset Hne.
  rewrite merge_match_locate. unfold locate in Hfind.
  split; intros Hid; rewrite Hid in Hfind |- *.
  - intros Hconf. rewrite by_title_find, Hfind. unfold Qlt_bool.
    rewrite Hset, Hconf. done.
  - rewrite by_id_find, Hfind. cbn zeta. unfold veqb.
    rewrite Hset, bool_decide_eq_false_2 by done.
    cbn [negb orb andb]. by rewrite orb_true_r.
Qed.

(** C3 (as amended).  Let a match address a record that carries no link,
    and propose a non-empty URL.  The first application sets the link and
    counts one update.  The second application leaves the data exactly as
    the first left it, so the link equals the proposed URL after either
    call; it counts no update when the confidence is at most 95, and counts
    one more update when the confidence exceeds 95. *)
Theorem merge_idempotent data m i e :
  locate data m = Some (i, e) →
  truthy (get e "videoUrl") = false →
  truthy (video_url m) = true →
  let first := merge_match data m in
  let second := merge_match (data_of first) m in
  data_of first = <[i := <["videoUrl" := video_url m]> e]> data
  ∧ updates_made first = 1
  ∧ data_of first !! i = Some (<["videoUrl" := video_url m]> e)
  ∧ get (<["videoUrl" := video_url m]> e) "videoUrl" = video_url m
  ∧ data_of second = data_of first
  ∧ updates_made second = (if Qle_bool (confidence m) 95 then 0 else 1).
Proof.
  intros Hfind Hunset Hurl first second.
  assert (Hlt : i < length data).
  { unfold locate in Hfind.
    destruct (by_identity m);
      apply list_find_Some in Hfind as (?%lookup_lt_Some & _); done. }
  assert (Hfirst : first
    = (<[i := <["videoUrl" := video_url m]> e]> data, 1,
       log_of first)).
  { subst first. rewrite merge_match_locate. unfold locate in Hfind.
    destruct (by_identity m).
    - rewrite by_id_find, Hfind. cbn zeta. rewrite Hunset. done.
    - rewrite by_title_find, Hfind. rewrite Hunset. done. }
  assert (Hsecond : data_of second = data_of first
    ∧ updates_made second = (if Qle_bool (confidence m) 95 then 0 else 1)).
  { subst second. rewrite Hfirst. cbn [data_of fst].
    pose proof (locate_update _ _ _ _ Hfind) as Hfind'.
    rewrite merge_match_locate. unfold locate in Hfind'.
    destruct (by_identity m).
    - rewrite by_id_find, Hfind'. cbn zeta.
      rewrite get_update_videoUrl, Hurl. unfold veqb, Qlt_bool.
      rewrite bool_decide_eq_true_2 by done. cbn [negb orb andb].
      rewrite insert_insert_eq, list_insert_insert_eq.
      destruct (Qle_bool (confidence m) 95); done.
    - rewrite by_title_find, Hfind'.
      rewrite get_update_videoUrl, Hurl. unfold Qlt_bool. cbn [negb orb].
      rewrite insert_insert_eq, list_insert_insert_eq.
      destruct (Qle_bool (confidence m) 95); done. }
  rewrite Hfirst at 1 2 3. cbn [data_of updates_made fst snd].
  split_and!; try done.
  - by apply list_lookup_insert_eq.
  - apply get_update_videoUrl.
  - apply Hsecond.
  - apply Hsecond.
Qed.

(** C8 (as amended).  A lookup by title raises no warning, whatever the
    number of records with that title: the merge step logs no record of
    level WARNING, keeps the number of records, and leaves every record
    unchanged except the first one, in list order, that has the match's
    title. *)
Theorem title_lookup_decides_first data m :
  by_identity m = false →
  Forall (λ ev, level_of ev ≠ WARNING) (log_of (merge_match data m))
  ∧ length (data_of (merge_match data m)) = length data
  ∧ ∀ j, fst <$> locate data m ≠ Some j →
         data_of (merge_match data m) !! j = data !! j.
Proof.
  intros Hid. rewrite merge_match_locate. unfold locate. rewrite Hid.
  rewrite by_title_find.
  destruct (list_find _ data) as [[i e]|]; [|by repeat constructor].
  destruct (_ || _); cbn [data_of log_of fst snd].
  - split_and!; [by repeat constructor|by rewrite length_insert|].
    intros j Hj. apply list_lookup_insert_ne. cbn in Hj. congruence.
  - by repeat constructor.
Qed.

End UpdaterFacts.

Section UpdaterExamples.
Import Matching Updater Examples.

(** C1, witness: the title lookup skips the proposal for [linked_film];
    the lookup by id replaces the link of [linked_show] also at confidence
    99. *)
Lemma override_protection_witness :
  merge_match [linked_film] other_url_title_match = ([linked_film], 0, [])
  ∧ merge_match [linked_show] sure_other_url_match
    = ([<["videoUrl" := url2]> linked_show], 1,
       [Replacing (VInt 1) url1 url2; UpdatedId (VInt 1) 99]).
Proof.
  split.
  - refine (proj1 (override_protection [linked_film] other_url_title_match 0
                     linked_film _ _ _) _ _).
    + vm_compute. reflexivity.
    + vm_compute. reflexivity.
    + intros H. vm_compute in H. discriminate H.
    + vm_compute. reflexivity.
    + vm_compute. reflexivity.
  - refine (proj2 (override_protection [linked_show] sure_other_url_match 0
                     linked_show _ _ _) _).
    + vm_compute. reflexivity.
    + vm_compute. reflexivity.
    + intros H. vm_compute in H. discriminate H.
    + vm_compute. reflexivity.
Defined.

(** C1, counterexample: [linked_show] carries [url1]; the proposal of
    [url2] with confidence 80 addresses it by id and replaces the link. *)
Lemma override_protection_fails_with_id :
  truthy (get linked_show "videoUrl") = true
  ∧ get linked_show "videoUrl" ≠ video_url other_url_match
  ∧ Qle_bool (confidence other_url_match) 95 = true
  ∧ merge_match [linked_show] other_url_match
    = ([<["videoUrl" := url2]> linked_show], 1,
       [Replacing (VInt 1) url1 url2; UpdatedId (VInt 1) 80])
  ∧ get (<["videoUrl" := url2]> linked_show) "videoUrl" = url2
  ∧ apply_matches [linked_show] [other_url_match]
    = ([<["videoUrl" := url2]> linked_show], 1,
       [Replacing (VInt 1) url1 url2; UpdatedId (VInt 1) 80]).
Proof.
  split_and!; try (vm_compute; reflexivity).
  intros H. vm_compute in H. discriminate H.
Qed.

(** C3, witness: the record with id 42 and the match of confidence 0.97. *)
Lemma merge_idempotent_witness :
  data_of (merge_match [record42] (match42 0.97))
  = <[0 := <["videoUrl" := url1]> record42]> [record42]
  ∧ updates_made (merge_match [record42] (match42 0.97)) = 1
  ∧ data_of (merge_match [record42] (match42 0.97)) !! 0
    = Some (<["videoUrl" := url1]> record42)
  ∧ get (<["videoUrl" := url1]> record42) "videoUrl" = url1
  ∧ data_of (merge_match (data_of (merge_match [record42] (match42 0.97)))
                         (match42 0.97))
    = data_of (merge_match [record42] (match42 0.97))
  ∧ updates_made (merge_match (data_of (merge_match [record42] (match42 0.97)))
                              (match42 0.97)) = 0.
Proof.
  refine (merge_idempotent [record42] (match42 0.97) 0 record42 _ _ _).
  - vm_compute. reflexivity.
  - vm_compute. reflexivity.
  - vm_compute. reflexivity.
Defined.

(** C3, counterexample: with confidence 97 the second application of the
    same match is counted as an update again. *)
Lemma merge_reapplied_above_95 :
  updates_made (merge_match [record42] (match42 97)) = 1
  ∧ updates_made (merge_match (data_of (merge_match [record42] (match42 97)))
                              (match42 97)) = 1
  ∧ log_of (merge_match (data_of (merge_match [record42] (match42 97)))
                        (match42 97)) = [UpdatedId (VInt 42) 97]
  ∧ apply_matches [record42] [match42 97; match42 97]
    = ([<["videoUrl" := url1]> record42], 2,
       [UpdatedId (VInt 42) 97; UpdatedId (VInt 42) 97]).
Proof. split_and!; vm_compute; reflexivity. Qed.

(** C8, witness: a match without id on the two films of one title. *)
Lemma title_lookup_decides_first_witness :
  Forall (λ ev, level_of ev ≠ WARNING)
         (log_of (merge_match [film_2020; film_2021] title_match))
  ∧ length (data_of (merge_match [film_2020; film_2021] title_match))
    = length [film_2020; film_2021]
  ∧ ∀ j, fst <$> locate [film_2020; film_2021] title_match ≠ Some j →
         data_of (merge_match [film_2020; film_2021] title_match) !! j
         = [film_2020; film_2021] !! j.
Proof.
  refine (title_lookup_decides_first [film_2020; film_2021] title_match _).
  vm_compute. reflexivity.
Defined.

(** C8, counterexample: two records have the title of the match; the merge
    step links the first one and logs one INFO record, no warning. *)
Lemma ambiguous_title_not_reported :
  length (filter (has_title (VStr (u "哈利波腎"))) [film_2020; film_2021]) = 2
  ∧ by_identity title_match = false
  ∧ merge_match [film_2020; film_2021] title_match
    = ([<["videoUrl" := url1]> film_2020; film_2021], 1,
       [UpdatedTitle (VStr (u "哈利波腎")) 80])
  ∧ level_of (UpdatedTitle (VStr (u "哈利波腎")) 80) = INFO
  ∧ bool_decide (<["videoUrl" := url1]> film_2020 = film_2020) = false.
Proof. split_and!; vm_compute; reflexivity. Qed.

End UpdaterExamples.

(** ** The update loop of apply_video_url_updates.py *)

Section ApplyUpdatesFacts.
Import ApplyUpdates.

Implicit Types (films : list (gmap string value)) (film : gmap string value).

Lemma update_first_find film_title video_url films :
  update_first film_title video_url films =
  match list_find (awaits_link film_title) films with
  | Some (i, film) => (<[i := <["videoUrl" := video_url]> film]> films, 1)
  | None => (films, 0)
  end.
Proof.
  induction films as [|film rest IH]; [done|].
  cbn [update_first list_find].
  destruct (decide (awaits_link film_title film)) as [[Ht Hu]|Hno].
  - unfold veqb. by rewrite bool_decide_eq_true_2, Hu.
  - replace (veqb (get film "title") film_title
             && negb (truthy (get film "videoUrl"))) with false.
    + rewrite IH. by destruct (list_find _ rest) as [[i f]|].
    + symmetry. apply not_true_is_false. intros [Ht Hu]%andb_true_iff.
      apply Hno. split.
      * by apply bool_decide_eq_true in Ht.
      * by apply negb_true_iff in Hu.
Qed.

Lemma kept_refl film : kept film film.
Proof. by split. Qed.

Lemma kept_trans film1 film2 film3 :
  kept film1 film2 → kept film2 film3 → kept film1 film3.
Proof.
  intros [Hsame12 Hframe12] [Hsame23 Hframe23]. split.
  - intros Hset. rewrite <- (Hsame12 Hset). apply Hsame23.
    by rewrite (Hsame12 Hset).
  - intros k Hk. by rewrite Hframe23, Hframe12.
Qed.

Lemma kept_link film video_url :
  truthy (get film "videoUrl") = false →
  kept film (<["videoUrl" := video_url]> film).
Proof.
  intros Hunset. split; [congruence|].
  intros k Hk. by rewrite lookup_insert_ne.
Qed.

Lemma Forall2_kept_refl films : Forall2 kept films films.
Proof. induction films; constructor; auto using kept_refl. Qed.

Lemma update_first_kept film_title video_url films :
  Forall2 kept films (update_first film_title video_url films).1.
Proof.
  rewrite update_first_find.
  destruct (list_find _ films) as [[i film]|] eqn:Hfind;
    [|apply Forall2_kept_refl].
  apply list_find_Some in Hfind as (Hi & [_ Hunset] & _). cbn [fst].
  rewrite <- (list_insert_id films i film) at 1 by done.
  apply Forall2_insert; [apply Forall2_kept_refl|by apply kept_link].
Qed.

Lemma update_all_kept films matches :
  Forall2 kept films (update_all films matches).1.
Proof.
  revert films. induction matches as [|m matches IH]; intros films.
  - apply Forall2_kept_refl.
  - cbn [update_all].
    pose proof (update_first_kept (film_title m) (video_url m) films) as H1.
    destruct (update_first _ _ films) as [films1 n1]. cbn [fst] in H1.
    pose proof (IH films1) as H2.
    destruct (update_all films1 matches) as [films2 n2]. cbn [fst] in *.
    eapply Forall2_trans; [|done..]. apply kept_trans.
Qed.

(** C10.  For a match, the loop of [apply_updates] changes at most one
    film: the first film in list order that has the match's title and no
    link; it sets that film's [videoUrl] and nothing else, whatever the
    confidence of the match.  Over a whole run, a film that has a link is
    never changed, and every field other than [videoUrl] of every film is
    unchanged. *)
Theorem apply_updates_frame films all_matches min_confidence :
  (∀ m : xref_match,
     update_first (film_title m) (video_url m) films =
     match list_find (awaits_link (film_title m)) films with
     | Some (i, film) =>
       (<[i := <["videoUrl" := video_url m]> film]> films, 1)
     | None => (films, 0)
     end)
  ∧ Forall2 kept films (apply_updates films all_matches min_confidence).1.
Proof.
  split.
  - intros m. apply update_first_find.
  - apply update_all_kept.
Qed.

End ApplyUpdatesFacts.

(** ** find_best_match and match_videos_to_json *)

Section MatchingFacts.
Import Matching.

Context (fuzz_ratio fuzz_token_sort_ratio fuzz_partial_ratio : ustr → ustr → Q).
Context (is_digit : N → bool) (min_confidence : Q).

Abbreviation best_step :=
  (best_step fuzz_ratio fuzz_token_sort_ratio fuzz_partial_ratio is_digit
             min_confidence).
Abbreviation find_best_match :=
  (find_best_match fuzz_ratio fuzz_token_sort_ratio fuzz_partial_ratio is_digit
                   min_confidence).
Abbreviation match_video :=
  (match_video fuzz_ratio fuzz_token_sort_ratio fuzz_partial_ratio is_digit
               min_confidence).
Abbreviation match_videos_to_json :=
  (match_videos_to_json fuzz_ratio fuzz_token_sort_ratio fuzz_partial_ratio
                        is_digit min_confidence).

Implicit Types (video entry : gmap string value).
Implicit Types (json_entries : list (gmap string value)).

Lemma best_step_from video seen best entry :
  best_from video seen best →
  best_from video (seen ++ [entry]) (best_step video best entry).
Proof.
  intros Hbest.
  assert (Hold : best_from video (seen ++ [entry]) best).
  { unfold best_from in *. destruct best.1; [|done].
    destruct Hbest. split; [set_solver|done]. }
  unfold Matching.best_step.
  destruct (truthy (get entry "videoUrl")) eqn:Hset; cbn [andb].
  - unfold veqb.
    destruct (decide (get video "url" = get entry "videoUrl")) as [Heq|Hne].
    + rewrite bool_decide_eq_true_2 by done. cbn [negb].
      destruct (_ && _); [|done].
      split; cbn [fst]; [set_solver|by right].
    + by rewrite bool_decide_eq_false_2 by done.
  - destruct (_ && _); [|done].
    split; cbn [fst]; [set_solver|by left].
Qed.

Lemma fold_best_from video json_entries seen best :
  best_from video seen best →
  best_from video (seen ++ json_entries)
            (fold_left (best_step video) json_entries best).
Proof.
  revert seen best. induction json_entries as [|entry rest IH];
    intros seen best Hbest; cbn [fold_left].
  - by rewrite app_nil_r.
  - rewrite (assoc_L (++) seen [entry] rest : seen ++ entry :: rest = _).
    apply IH. by apply best_step_from.
Qed.

Lemma find_best_match_from video json_entries :
  best_from video json_entries (find_best_match video json_entries).
Proof. apply (fold_best_from video json_entries [] (None, 0%Q)). done. Qed.

(** C9.  The entry [find_best_match] selects is one of the entries given,
    and its link is either not set or equal to the video's url: an entry
    linked to another URL is never selected.  Hence every match of
    [match_videos_to_json] proposes a first link for its entry or the URL
    the entry already carries. *)
Theorem no_conflicting_proposal video videos json_entries :
  (∀ entry score,
     find_best_match video json_entries = (Some entry, score) →
     entry ∈ json_entries
     ∧ (truthy (get entry "videoUrl") = false
        ∨ get entry "videoUrl" = get video "url"))
  ∧ (∀ m,
       m ∈ match_videos_to_json videos json_entries →
       json_entry m ∈ json_entries
       ∧ (truthy (get (json_entry m) "videoUrl") = false
          ∨ get (json_entry m) "videoUrl" = video_url m)).
Proof.
  split.
  - intros entry score Hbest.
    pose proof (find_best_match_from video json_entries) as Hfrom.
    unfold best_from in Hfrom. by rewrite Hbest in Hfrom.
  - intros m Hm. unfold Matching.match_videos_to_json in Hm.
    apply list_elem_of_In, in_flat_map in Hm as (v & _ & Hm).
    apply list_elem_of_In in Hm. unfold Matching.match_video in Hm.
    pose proof (find_best_match_from v json_entries) as Hfrom.
    unfold best_from in Hfrom.
    destruct (find_best_match v json_entries) as [[e|] s]; [|set_solver].
    cbn [fst] in Hfrom. destruct Hfrom as [Hin Hok].
    case_bool_decide; [set_solver|].
    apply list_elem_of_singleton in Hm as ->. cbn.
    split; [done|]. destruct Hok as [Hunset|Hsame]; [by left|].
    destruct (truthy (get e "videoUrl")) eqn:Hset; [right|by left].
    rewrite Hsame in Hset |- *. unfold get, get_or_empty in Hset |- *.
    by destruct (v !! "url").
Qed.

(** C5, the failing input.  With the default threshold of 70, a video
    whose cleaned title equals the cleaned title of an entry scores 100,
    the playlist bonus of 5 is added without a cap, and [find_best_match]
    returns confidence 105, above the scale's maximum of 100. *)
Theorem exact_match_scores_105 :
  Matching.find_best_match fuzz_ratio fuzz_token_sort_ratio fuzz_partial_ratio
    is_digit 70 Examples.video_hp [Examples.record42]
  = (Some Examples.record42, 105%Q)
  ∧ Qle_bool 105 100 = false.
Proof.
  split; [|done].
  unfold Matching.find_best_match. cbn [fold_left].
  unfold Matching.best_step. cbn [snd].
  replace (truthy (get Examples.record42 "videoUrl")) with false
    by (vm_compute; reflexivity).
  cbn [andb].
  replace (calculate_match_score _ _ _ _ _ _ _) with 100%Q
    by (vm_compute; reflexivity).
  done.
Qed.

End MatchingFacts.

Section MatchingExamples.
Import Matching Examples.

(** C9, witness: [video_hp] carries [url1].  [taken_film] has its title
    and comes first, but is linked to [url2]: alone it gives no match, and
    before [record42] it is passed over. *)
Lemma no_conflicting_proposal_witness :
  truthy (get taken_film "videoUrl") = true
  ∧ get taken_film "videoUrl" ≠ get video_hp "url"
  ∧ find_best_match no_ratio no_ratio no_ratio ascii_digit 70 video_hp
      [taken_film] = (None, 0%Q)
  ∧ find_best_match no_ratio no_ratio no_ratio ascii_digit 70 video_hp
      [taken_film; record42] = (Some record42, 105%Q)
  ∧ (record42 ∈ [taken_film; record42]
     ∧ (truthy (get record42 "videoUrl") = false
        ∨ get record42 "videoUrl" = get video_hp "url"))
  ∧ (record42 ∈ [taken_film; record42]
     ∧ (truthy (get record42 "videoUrl") = false
        ∨ get record42 "videoUrl" = url1)).
Proof.
  split; [|split; [|split; [|split; [|split]]]].
  - vm_compute. reflexivity.
  - intros H. vm_compute in H. discriminate H.
  - vm_compute. reflexivity.
  - vm_compute. reflexivity.
  - refine (proj1 (no_conflicting_proposal no_ratio no_ratio no_ratio
                     ascii_digit 70 video_hp [video_hp]
                     [taken_film; record42]) record42 105%Q _).
    vm_compute. reflexivity.
  - refine (proj2 (no_conflicting_proposal no_ratio no_ratio no_ratio
                     ascii_digit 70 video_hp [video_hp]
                     [taken_film; record42])
              {| video := video_hp; json_entry := record42; confidence := 105;
                 video_url := url1; match_type := "automatic" |} _).
    vm_compute. constructor.
Defined.

End MatchingExamples.

(** ** normalize_title and calculate_similarity *)

Section SimilarityFacts.
Import CrossRef.

Context (ratio : ustr → ustr → Q) (lower : ustr → ustr) (is_word : N → bool).

Abbreviation calculate_similarity :=
  (calculate_similarity ratio lower is_word).

(** The normal forms of the placeholder strings are shorter than two
    characters. *)
Lemma placeholder_normal_form p :
  p ∈ placeholders → (length (strip (normalize_title p)) <? 2)%nat = true.
Proof.
  unfold placeholders. rewrite !elem_of_cons, elem_of_nil.
  intros [->|[->|[->|[->|[->|[]]]]]]; vm_compute; reflexivity.
Qed.

(** C6.  A placeholder string scores 0 against every string, in either
    argument position. *)
Theorem placeholder_scores_zero a p :
  p ∈ placeholders →
  calculate_similarity a p = 0%Q ∧ calculate_similarity p a = 0%Q.
Proof.
  intros Hp. split.
  - unfold CrossRef.calculate_similarity.
    destruct (negb (nonempty a) || negb (nonempty p)); [done|].
    by rewrite bool_decide_eq_true_2.
  - unfold CrossRef.calculate_similarity.
    destruct (negb (nonempty p) || negb (nonempty a)); [done|].
    destruct (bool_decide (a ∈ placeholders)) eqn:Ha; [done|].
    cbn [orb]. destruct (length (strip a) <? 2)%nat; [done|].
    replace (ueqb p a) with false.
    2:{ symmetry. apply bool_decide_eq_false. intros ->.
        by apply bool_decide_eq_false in Ha. }
    rewrite (placeholder_normal_form p Hp).
    by destruct (negb (nonempty (normalize_title p))),
                (negb (nonempty (normalize_title a))).
Qed.

(** C7.  The flagship title normalizes to its core, and scores 0.95
    against the catalogue title: both normalize to the same core. *)
Theorem flagship_scenario :
  normalize_title (u "試玩毛EP06《哈利波腎》｜試當真") = u "哈利波腎"
  ∧ calculate_similarity (u "試玩毛EP06《哈利波腎》｜試當真")
                         (u "試玩毛EP06《哈利波腎》") = 0.95%Q
  ∧ Qle_bool 0.9 (calculate_similarity (u "試玩毛EP06《哈利波腎》｜試當真")
                                       (u "試玩毛EP06《哈利波腎》")) = true.
Proof.
  assert (Hscore : calculate_similarity (u "試玩毛EP06《哈利波腎》｜試當真")
                                        (u "試玩毛EP06《哈利波腎》") = 0.95%Q)
    by (vm_compute; reflexivity).
  split_and!; [vm_compute; reflexivity|done|by rewrite Hscore].
Qed.

End SimilarityFacts.

Section SimilarityExamples.
Import CrossRef Examples.

(** C6, witness: the single slash against a title. *)
Lemma placeholder_scores_zero_witness :
  calculate_similarity no_ratio id ascii_digit (u "哈利波腎") (u "/") = 0%Q
  ∧ calculate_similarity no_ratio id ascii_digit (u "/") (u "哈利波腎") = 0%Q.
Proof.
  refine (placeholder_scores_zero no_ratio id ascii_digit
            (u "哈利波腎") (u "/") _).
  vm_compute. do 1 constructor. constructor.
Defined.

End SimilarityExamples.

(** ** find_matches *)

Section SortFacts.
Import CrossRef.

Implicit Types (c x y : candidate) (l : list candidate).

Lemma Qlt_bool_true a b : Qlt_bool a b = true → Qle_bool a b = true.
Proof.
  unfold Qlt_bool. rewrite negb_true_iff. intros Hba.
  apply Qle_bool_iff, Qlt_le_weak, Qnot_le_lt. intros Hle.
  apply Qle_bool_iff in Hle. congruence.
Qed.

Lemma Qlt_bool_false a b : Qlt_bool a b = false → Qle_bool b a = true.
Proof. unfold Qlt_bool. by rewrite negb_false_iff. Qed.

Lemma Qlt_bool_not_eq a b : Qlt_bool a b = true → Qeq_bool b a = false.
Proof.
  unfold Qlt_bool. rewrite negb_true_iff. intros Hba.
  apply not_true_is_false. intros Heq%Qeq_bool_iff.
  assert (Qle_bool b a = true); [|congruence].
  apply Qle_bool_iff. rewrite Heq. apply Qle_refl.
Qed.

Lemma not_below_trans x y z : not_below x y → not_below y z → not_below x z.
Proof.
  unfold not_below. rewrite !Qle_bool_iff. intros Hyx Hzy.
  by apply Qle_trans with (confidence y).
Qed.

Lemma elem_of_insert_desc c x l : c ∈ insert_desc x l ↔ c = x ∨ c ∈ l.
Proof.
  induction l as [|y l IH]; cbn [insert_desc].
  - rewrite list_elem_of_singleton, elem_of_nil. tauto.
  - destruct (Qlt_bool _ _); rewrite !elem_of_cons, ?IH; tauto.
Qed.

Lemma elem_of_sort_desc c l : c ∈ sort_desc l ↔ c ∈ l.
Proof.
  induction l as [|x l IH]; [done|]. unfold sort_desc in *. cbn [foldr].
  by rewrite elem_of_insert_desc, IH, elem_of_cons.
Qed.

Lemma insert_desc_sorted x l :
  StronglySorted not_below l → StronglySorted not_below (insert_desc x l).
Proof.
  induction 1 as [|y l Hsorted IH Hall]; cbn [insert_desc].
  - by repeat constructor.
  - destruct (Qlt_bool (confidence x) (confidence y)) eqn:Hlt.
    + constructor; [done|].
      apply Forall_forall. intros c [->|Hc]%elem_of_insert_desc.
      * by apply Qlt_bool_true.
      * by eapply Forall_forall in Hall.
    + assert (not_below x y) by by apply Qlt_bool_false.
      constructor; [by constructor|].
      constructor; [done|].
      eapply Forall_impl; [done|]. intros c Hc. by eapply not_below_trans.
Qed.

Lemma sort_desc_sorted l : StronglySorted not_below (sort_desc l).
Proof.
  induction l as [|x l IH]; [constructor|].
  by apply insert_desc_sorted.
Qed.

(** Stability: inserting [x] only passes candidates of strictly higher
    confidence, so the candidates of any one confidence keep their order. *)
Lemma filter_insert_desc q x l :
  filter (scores q) (insert_desc x l) = filter (scores q) (x :: l).
Proof.
  induction l as [|y l IH]; [done|]. cbn [insert_desc].
  destruct (Qlt_bool (confidence x) (confidence y)) eqn:Hlt; [|done].
  rewrite filter_cons, IH, !filter_cons.
  destruct (decide (scores q y)) as [Hy|]; [|done].
  destruct (decide (scores q x)) as [Hx|]; [|done].
  exfalso. unfold scores in *. apply Qlt_bool_not_eq in Hlt.
  apply Qeq_bool_iff in Hx, Hy.
  assert (Qeq_bool (confidence y) (confidence x) = true); [|congruence].
  apply Qeq_bool_iff. by rewrite Hx, Hy.
Qed.

Lemma filter_sort_desc q l :
  filter (scores q) (sort_desc l) = filter (scores q) l.
Proof.
  induction l as [|x l IH]; [done|]. unfold sort_desc in *. cbn [foldr].
  by rewrite filter_insert_desc, !filter_cons, IH.
Qed.

Lemma filter_sublist_mono (P : candidate → Prop) `{!∀ c, Decision (P c)}
    l1 l2 :
  l1 `sublist_of` l2 → filter P l1 `sublist_of` filter P l2.
Proof.
  induction 1 as [|x l1 l2 _ IH|x l1 l2 _ IH]; [done|..];
    rewrite ?filter_cons; destruct (decide (P x));
    auto using sublist_skip, sublist_cons.
Qed.

End SortFacts.

Section FindMatchesFacts.
Import CrossRef.

Context (ratio : ustr → ustr → Q) (lower : ustr → ustr) (is_word : N → bool).

Abbreviation consider := (consider ratio lower is_word).
Abbreviation best_matches_of := (best_matches_of ratio lower is_word).
Abbreviation top_matches := (top_matches ratio lower is_word).
Abbreviation find_matches := (find_matches ratio lower is_word).

Implicit Types (film item : gmap string value).
Implicit Types (other_data : list (gmap string value)).

Lemma consider_cases source_name min_confidence film item :
  consider source_name min_confidence film item = []
  ∨ ∃ c, consider source_name min_confidence film item = [c]
         ∧ match_item c = item
         ∧ Qle_bool min_confidence (confidence c) = true.
Proof.
  unfold CrossRef.consider.
  destruct (negb _); [by left|].
  destruct (similarities_of _ _ _ _ _ _) as [|first others]; [by left|].
  destruct (max_by_score first others) as [best_sim_type best_sim_score].
  destruct (Qle_bool _ _) eqn:Hmin; [|by left].
  right. eexists. by split_and!.
Qed.

Lemma best_matches_threshold source_name min_confidence other_data film c :
  c ∈ best_matches_of source_name min_confidence other_data film →
  Qle_bool min_confidence (confidence c) = true.
Proof.
  unfold CrossRef.best_matches_of.
  intros (item & _ & Hc)%list_elem_of_In%in_flat_map.
  apply list_elem_of_In in Hc.
  destruct (consider_cases source_name min_confidence film item)
    as [Hnil|(c' & Hone & _ & Hmin)].
  - rewrite Hnil in Hc. by apply elem_of_nil in Hc.
  - rewrite Hone in Hc. by apply list_elem_of_singleton in Hc as ->.
Qed.

(** The candidates of a film stand in pool order. *)
Lemma best_matches_pool_order (P : candidate → Prop)
    `{!∀ c, Decision (P c)} source_name min_confidence other_data film :
  match_item <$> filter P (best_matches_of source_name min_confidence
                                           other_data film)
  `sublist_of` other_data.
Proof.
  unfold CrossRef.best_matches_of.
  induction other_data as [|item rest IH]; [done|].
  cbn [flat_map]. rewrite filter_app, fmap_app.
  destruct (consider_cases source_name min_confidence film item)
    as [->|(c & -> & <- & _)].
  - cbn. by apply sublist_cons.
  - rewrite filter_cons, filter_nil.
    destruct (decide (P c)); cbn.
    + by apply sublist_skip.
    + by apply sublist_cons.
Qed.

(** C4.  [find_matches] extends its result, film by film, with
    [top_matches]: at most 3 candidates, each with a confidence of at least
    [min_confidence], in descending order of confidence; the candidates of
    any one confidence stand in the order of the pool (the sort is stable
    and has no secondary key). *)
Theorem find_matches_selection films_without_url other_data source_name
    min_confidence :
  find_matches films_without_url other_data source_name min_confidence
  = flat_map (top_matches source_name min_confidence other_data)
             films_without_url
  ∧ ∀ film,
      let best := top_matches source_name min_confidence other_data film in
      length best ≤ 3
      ∧ Forall (λ c, Qle_bool min_confidence (confidence c) = true) best
      ∧ StronglySorted not_below best
      ∧ ∀ q, match_item <$> filter (scores q) best `sublist_of` other_data.
Proof.
  split; [done|]. intros film best. subst best.
  unfold CrossRef.top_matches. split_and!.
  - rewrite length_take. lia.
  - apply Forall_forall.
    intros c (i & Hc%list_elem_of_lookup_2 & _)%elem_of_take.
    apply (proj1 (elem_of_sort_desc _ _)) in Hc.
    by eapply best_matches_threshold.
  - apply (StronglySorted_app_1_l _ _ (drop 3 (sort_desc
      (best_matches_of source_name min_confidence other_data film)))).
    rewrite take_drop. apply sort_desc_sorted.
  - intros q.
    transitivity (match_item <$> filter (scores q)
      (sort_desc (best_matches_of source_name min_confidence other_data film))).
    + apply fmap_sublist, filter_sublist_mono, sublist_take.
    + rewrite filter_sort_desc. apply best_matches_pool_order.
Qed.

End FindMatchesFacts.

(** ** The matcher on strings a pattern cannot match *)

Section RegexFacts.
Import Re.

Implicit Types (r : regex) (s pat : ustr) (p : N → bool).

Lemma rep_none {R} greedy p i s (k : nat → ustr → option R) :
  (∀ i' s', s' `suffix_of` s → k i' s' = None) →
  rep greedy p i s k = None.
Proof.
  revert i. induction s as [|c s IH]; intros i Hk; cbn [rep].
  - by apply Hk.
  - assert (rep greedy p (S i) s k = None) as Hrest.
    { apply IH. intros i' s' Hs'. apply Hk. by apply suffix_cons_r. }
    destruct (p c); [|by apply Hk].
    destruct greedy; unfold or_else; rewrite ?Hrest, ?Hk; done.
Qed.

Lemma run_none r : ∀ {R} i s g (k : nat → ustr → option ustr → option R),
  (∀ i' s' g', s' `suffix_of` s → k i' s' g' = None) →
  run r i s g k = None.
Proof.
  induction r as [|p|r1 IH1 r2 IH2|greedy p|r1 IH1|r1 IH1| |];
    intros R i s g k Hk; cbn [run].
  - by apply Hk.
  - destruct s as [|c s]; [done|]. destruct (p c); [|done].
    apply Hk. by apply suffix_cons_r.
  - apply IH1. intros i' s' g' Hs'. apply IH2.
    intros i'' s'' g'' Hs''. apply Hk. by etrans.
  - apply rep_none. intros i' s' Hs'. by apply Hk.
  - unfold or_else. rewrite IH1 by done. by apply Hk.
  - apply IH1. intros i' s' g' Hs'. by apply Hk.
  - destruct (Nat.eqb i 0); [|done]. by apply Hk.
  - destruct s as [|c [|d s]]; [by apply Hk| |done].
    destruct (c =? NL)%N; [|done]. by apply Hk.
Qed.

Lemma dead_chr s p : forallb (λ c, negb (p c)) s = true → dead s (Chr p).
Proof.
  intros Hall R i s' g k Hs'. cbn [run].
  destruct s' as [|c s']; [done|].
  assert (c ∈ s) as Hc.
  { destruct Hs' as [pre ->]. set_solver. }
  rewrite forallb_forall in Hall. apply list_elem_of_In, Hall in Hc.
  apply negb_true_iff in Hc. by rewrite Hc.
Qed.

Lemma dead_cat_l s r1 r2 : dead s r1 → dead s (Cat r1 r2).
Proof. intros Hdead R i s' g k Hs'. cbn [run]. by apply Hdead. Qed.

Lemma dead_cat_r s r1 r2 : dead s r2 → dead s (Cat r1 r2).
Proof.
  intros Hdead R i s' g k Hs'. cbn [run]. apply run_none.
  intros i' s'' g' Hs''. apply Hdead. by etrans.
Qed.

Lemma dead_seq s rs : Exists (dead s) rs → dead s (seq rs).
Proof.
  induction 1 as [r rs Hr|r rs _ IH]; cbn [seq];
    [by apply dead_cat_l|by apply dead_cat_r].
Qed.

Lemma run_lit {R} pat : ∀ i s g (k : nat → ustr → option ustr → option R),
  run (lit pat) i s g k =
  if starts_with pat s then k (i + length pat) (drop (length pat) s) g
  else None.
Proof.
  induction pat as [|c pat IH]; intros i s g k; cbn [lit run starts_with].
  - by rewrite Nat.add_0_r.
  - destruct s as [|x s]; [done|]. cbn [length drop].
    destruct (c =? x)%N; [|done]. cbn [andb].
    rewrite IH. by rewrite Nat.add_succ_r.
Qed.

Lemma run_lit_i {R} pat : ∀ i s g (k : nat → ustr → option ustr → option R),
  run (lit_i pat) i s g k =
  if starts_with_fold pat s then k (i + length pat) (drop (length pat) s) g
  else None.
Proof.
  induction pat as [|c pat IH]; intros i s g k;
    cbn [lit_i run starts_with_fold].
  - by rewrite Nat.add_0_r.
  - destruct s as [|x s]; [done|]. cbn [length drop].
    destruct (ascii_fold x =? ascii_fold c)%N; [|done]. cbn [andb].
    rewrite IH. by rewrite Nat.add_succ_r.
Qed.

Lemma contains_suffix pat s s' :
  contains pat s = false → s' `suffix_of` s → starts_with pat s' = false.
Proof.
  intros Hno [pre ->]. induction pre as [|c pre IH].
  - destruct s'; cbn in Hno; by apply orb_false_iff in Hno as [? _].
  - apply IH. cbn in Hno. by apply orb_false_iff in Hno as [_ ?].
Qed.

Lemma contains_fold_suffix pat s s' :
  contains_fold pat s = false → s' `suffix_of` s →
  starts_with_fold pat s' = false.
Proof.
  intros Hno [pre ->]. induction pre as [|c pre IH].
  - destruct s'; cbn in Hno; by apply orb_false_iff in Hno as [? _].
  - apply IH. cbn in Hno. by apply orb_false_iff in Hno as [_ ?].
Qed.

Lemma dead_lit s pat : contains pat s = false → dead s (lit pat).
Proof.
  intros Hno R i s' g k Hs'.
  by rewrite run_lit, (contains_suffix pat s s').
Qed.

Lemma dead_lit_i s pat : contains_fold pat s = false → dead s (lit_i pat).
Proof.
  intros Hno R i s' g k Hs'.
  by rewrite run_lit_i, (contains_fold_suffix pat s s').
Qed.

(** A literal occurs up to case wherever it occurs exactly. *)
Lemma starts_with_fold_of pat pat' : ∀ s,
  ascii_fold <$> pat = ascii_fold <$> pat' →
  starts_with pat s = true → starts_with_fold pat' s = true.
Proof.
  revert pat'. induction pat as [|c pat IH]; intros [|c' pat'] s Hfold;
    try done.
  destruct s as [|x s]; [done|]. cbn.
  injection Hfold as Hc Hpat.
  intros [->%N.eqb_eq Hrest]%andb_prop.
  rewrite Hc, N.eqb_refl. cbn. by apply IH.
Qed.

Lemma contains_fold_of pat pat' s :
  ascii_fold <$> pat = ascii_fold <$> pat' →
  contains_fold pat' s = false → contains pat s = false.
Proof.
  intros Hfold. induction s as [|x s IH]; cbn.
  - intros Hno%orb_false_iff. destruct Hno as [Hno _].
    rewrite orb_false_r. apply not_true_is_false.
    intros Hyes%(starts_with_fold_of pat pat'); [congruence|done].
  - intros [Hno Hrest]%orb_false_iff. rewrite (IH Hrest), orb_false_r.
    apply not_true_is_false.
    intros Hyes%(starts_with_fold_of pat pat'); [congruence|done].
Qed.

Lemma search_from_dead s r : dead s r → ∀ s' i,
  s' `suffix_of` s → search_from r i s' = None.
Proof.
  intros Hdead s'. induction s' as [|c s' IH]; intros i Hs';
    cbn [search_from]; unfold match_at; rewrite Hdead by done; [done|].
  apply IH. by eapply suffix_cons_l.
Qed.

Lemma search_dead s r : dead s r → search r s = None.
Proof. intros Hdead. by apply (search_from_dead s). Qed.

Lemma sub_dead s r repl : dead s r → sub r repl s = s.
Proof.
  intros Hdead. unfold sub. cbn [sub_from]. by rewrite (search_from_dead s).
Qed.

Lemma split_head_dead s r : dead s r → split_head r s = s.
Proof. intros Hdead. unfold split_head. by rewrite search_dead. Qed.

End RegexFacts.

(** ** Whitespace and edges of settled titles *)

Section TidyFacts.
Import Re.

Implicit Types (s : ustr) (p : N → bool).

Lemma lstrip_by_head p s :
  match s with [] => true | c :: _ => negb (p c) end = true →
  lstrip_by p s = s.
Proof.
  destruct s as [|c s]; [done|]. cbn. by intros ->%negb_true_iff.
Qed.

Lemma strip_by_edge_free p s : edge_free p s = true → strip_by p s = s.
Proof.
  intros [Hhead Hlast]%andb_prop. unfold strip_by, rstrip_by.
  rewrite (lstrip_by_head p s) by done.
  rewrite (lstrip_by_head p (rev s)) by done.
  apply rev_involutive.
Qed.

(** On a single-spaced string the first match of [\s+] is one space. *)
Lemma search_single_space s : ∀ i,
  single_spaced s = true →
  match search_from (plus is_space) i s with
  | None => True
  | Some m =>
    i ≤ m_start m ∧ m_end m = S (m_start m)
    ∧ s = take (m_start m - i) s ++ SP :: m_rest m
    ∧ single_spaced (m_rest m) = true
    ∧ length (m_rest m) < length s
  end.
Proof.
  induction s as [|c s IH]; intros i Hs; [done|].
  cbn [single_spaced] in Hs. apply andb_prop in Hs as [Hc Hs].
  cbn [search_from]. unfold match_at. unfold plus at 1. cbn [run].
  destruct (is_space c) eqn:Hspace.
  - apply andb_prop in Hc as [->%N.eqb_eq Hnext].
    assert (rep true is_space (S i) s
              (λ i' s', Some (MkMatch i i' s' None))
            = Some (MkMatch i (S i) s None)) as ->.
    { destruct s as [|d s]; [done|]. cbn [rep].
      apply negb_true_iff in Hnext. by rewrite Hnext. }
    cbn [m_start m_end m_rest]. rewrite Nat.sub_diag.
    split_and!; [lia|done|done|done|cbn [length]; lia].
  - specialize (IH (S i) Hs). cbv beta iota.
    destruct (search_from (plus is_space) (S i) s) as [m|]; [|done].
    destruct IH as (Hstart & Hend & Htake & Hrest & Hlen).
    split_and!; [lia|done| |done|cbn [length]; lia].
    replace (m_start m - i) with (S (m_start m - S i)) by lia.
    cbn [take app]. by rewrite <- Htake.
Qed.

Lemma sub_from_single_spaced fuel : ∀ s i,
  length s < fuel → single_spaced s = true →
  sub_from fuel (plus is_space) [SP] i s = s.
Proof.
  induction fuel as [|fuel IH]; intros s i Hfuel Hs; [lia|].
  cbn [sub_from].
  pose proof (search_single_space s i Hs) as Hm.
  destruct (search_from (plus is_space) i s) as [m|]; [|done].
  destruct Hm as (Hstart & Hend & Htake & Hrest & Hlen).
  rewrite Hend.
  replace (S (m_start m) =? m_start m)%nat with false
    by (symmetry; apply Nat.eqb_neq; lia).
  rewrite IH by (done || lia). cbn [app]. by rewrite <- Htake.
Qed.

Lemma sub_single_spaced s :
  single_spaced s = true → sub (plus is_space) [SP] s = s.
Proof. intros Hs. unfold sub. apply sub_from_single_spaced; [lia|done]. Qed.

(** A pattern anchored at the start matches at position 0 or nowhere. *)
Lemma search_from_bol r s : ∀ i, 0 < i → search_from (Cat Bol r) i s = None.
Proof.
  induction s as [|c s IH]; intros i Hi; cbn [search_from];
    unfold match_at; cbn [run];
    replace (i =? 0)%nat with false by (symmetry; apply Nat.eqb_neq; lia);
    [done|].
  apply IH. lia.
Qed.

(** The playlist-label prefix of [clean_title] on a title that starts
    with neither whitespace nor the label. *)
Lemma search_label_prefix label rest s :
  match s with [] => true | c :: _ => negb (is_space c) end = true →
  starts_with label s = false →
  search (seq (Bol :: star is_space :: lit label :: rest)) s = None.
Proof.
  intros Hhead Hlabel. unfold search. cbn [seq].
  assert (match_at (Cat Bol (Cat (star is_space) (Cat (lit label) (seq rest))))
                   0 s = None) as Hat.
  { unfold match_at, star. cbn [run Nat.eqb].
    assert (∀ R (k : nat → ustr → option R),
              rep true is_space 0 s k = k 0 s) as ->.
    { intros R k. destruct s as [|c s]; [done|]. cbn [rep].
      apply negb_true_iff in Hhead. by rewrite Hhead. }
    by rewrite run_lit, Hlabel. }
  destruct s as [|c s]; cbn [search_from]; rewrite Hat; [done|].
  apply search_from_bol. lia.
Qed.

End TidyFacts.

(** ** Further properties of the normalizers *)

Section StripFacts.

Implicit Types (s : ustr) (p : N → bool).

Lemma lstrip_by_all p s : forallb p s = true → lstrip_by p s = [].
Proof.
  induction s as [|c s IH]; [done|]. cbn.
  intros [-> Hs]%andb_prop. by apply IH.
Qed.

Lemma lstrip_by_head_free p s :
  match lstrip_by p s with [] => true | c :: _ => negb (p c) end = true.
Proof.
  induction s as [|c s IH]; [done|]. cbn.
  destruct (p c) eqn:Hc; [done|]. by rewrite Hc.
Qed.

(** What [lstrip_by] removes is a prefix. *)
Lemma lstrip_by_suffix p s : lstrip_by p s `suffix_of` s.
Proof.
  induction s as [|c s IH]; [done|]. cbn.
  destruct (p c); [by apply suffix_cons_r|done].
Qed.

Lemma strip_by_edge_free_result p s : edge_free p (strip_by p s) = true.
Proof.
  unfold edge_free, strip_by, rstrip_by.
  set (t := lstrip_by p s).
  pose proof (lstrip_by_head_free p s) as Hhead. fold t in Hhead.
  pose proof (lstrip_by_head_free p (rev t)) as Hlast.
  pose proof (lstrip_by_suffix p (rev t)) as [pre Hpre].
  rewrite rev_involutive, Hlast, andb_true_r.
  destruct (lstrip_by p (rev t)) as [|c rest] eqn:Hrest; [done|].
  apply (f_equal (@rev N)) in Hpre.
  rewrite rev_involutive, rev_app_distr in Hpre.
  rewrite Hpre in Hhead.
  destruct (rev (c :: rest)) as [|d front] eqn:Hrev.
  - apply (f_equal (@length N)) in Hrev. rewrite length_rev in Hrev. done.
  - done.
Qed.

End StripFacts.

Section NormalizerEdges.

Implicit Types (s title : ustr).

(** X1.  A title that consists of whitespace only normalizes to the empty
    string. *)
Theorem normalize_title_blank title :
  forallb is_space title = true → normalize_title title = [].
Proof.
  intros Hblank. unfold normalize_title.
  destruct (nonempty title); [|done]. cbn [negb]. cbv zeta.
  replace (strip title) with (@nil N).
  - vm_compute. reflexivity.
  - unfold strip, strip_by. by rewrite lstrip_by_all.
Qed.

(** X2.  Neither normalizer returns a title that starts or ends with a
    whitespace character. *)
Theorem normal_forms_trimmed title :
  edge_free is_space (normalize_title title) = true
  ∧ edge_free is_space (clean_title title) = true.
Proof.
  split.
  - unfold normalize_title. destruct (negb (nonempty title)); [done|].
    apply strip_by_edge_free_result.
  - unfold clean_title. destruct (negb (nonempty title)); [done|].
    apply strip_by_edge_free_result.
Qed.

End NormalizerEdges.

(** ** Idempotence of the two normalizers *)

Section EngineFacts.
Import Re.

Implicit Types (r : regex) (s pat : ustr) (p : N → bool).

Lemma rep_inv {R} greedy p (k : nat → ustr → option R) x : ∀ s i,
  rep greedy p i s k = Some x →
  ∃ n, n ≤ length s ∧ forallb p (take n s) = true
       ∧ k (i + n) (drop n s) = Some x.
Proof.
  induction s as [|c s IH]; intros i; cbn [rep].
  - intros Hk. exists 0. rewrite Nat.add_0_r. split_and!; [lia|done|done].
  - destruct (p c) eqn:Hc.
    + intros Hrun.
      assert (rep greedy p (S i) s k = Some x ∨ k i (c :: s) = Some x)
        as [Hrest|Hhere].
      { destruct greedy; unfold or_else in Hrun.
        - destruct (rep true p (S i) s k); [by left|by right].
        - destruct (k i (c :: s)); [by right|by left]. }
      * destruct (IH _ Hrest) as (n & Hn & Hall & Hk).
        exists (S n). cbn [length take drop forallb]. rewrite Hc, Hall.
        split_and!; [lia|done|]. by rewrite Nat.add_succ_r.
      * exists 0. rewrite Nat.add_0_r. split_and!; [lia|done|done].
    + intros Hk. exists 0. rewrite Nat.add_0_r. split_and!; [lia|done|done].
Qed.

Lemma run_inv r : ∀ {R} i s g (k : nat → ustr → option ustr → option R) x,
  run r i s g k = Some x →
  ∃ n g', min_len r ≤ n ∧ n ≤ length s
          ∧ k (i + n) (drop n s) g' = Some x.
Proof.
  induction r as [|p|r1 IH1 r2 IH2|greedy p|r1 IH1|r1 IH1| |];
    intros R i s g k x; cbn [run min_len].
  - intros Hk. exists 0, g. rewrite Nat.add_0_r. split_and!; [lia|lia|done].
  - destruct s as [|c s]; [done|]. destruct (p c); [|done].
    intros Hk. exists 1, g. cbn [length drop].
    rewrite Nat.add_1_r. split_and!; [lia|lia|done].
  - intros (n1 & g1 & Hmin1 & Hn1 & Hrun)%IH1.
    apply IH2 in Hrun as (n2 & g2 & Hmin2 & Hn2 & Hk).
    rewrite length_drop in Hn2. rewrite drop_drop in Hk.
    exists (n1 + n2), g2. rewrite Nat.add_assoc.
    split_and!; [lia|lia|done].
  - intros (n & Hn & _ & Hk)%rep_inv. exists n, g.
    split_and!; [lia|done|done].
  - unfold or_else. destruct (run r1 i s g k) as [y|] eqn:Hrun.
    + intros [= ->]. apply IH1 in Hrun as (n & g' & _ & Hn & Hk).
      exists n, g'. split_and!; [lia|done|done].
    + intros Hk. exists 0, g. rewrite Nat.add_0_r.
      split_and!; [lia|lia|done].
  - intros (n & g' & Hmin & Hn & Hk)%IH1. by exists n, (Some (take (i + n - i) s)).
  - destruct (Nat.eqb i 0); [|done]. intros Hk. exists 0, g.
    rewrite Nat.add_0_r. split_and!; [lia|lia|done].
  - intros Hk. exists 0, g. rewrite Nat.add_0_r.
    split_and!; [lia|lia|].
    destruct s as [|c [|d s]]; [done| |done].
    by destruct (c =? NL)%N.
Qed.

(** What a match is made of. *)
Lemma match_at_inv r i s m :
  match_at r i s = Some m →
  ∃ n, m_start m = i ∧ m_end m = i + n ∧ m_rest m = drop n s
       ∧ min_len r ≤ n ∧ n ≤ length s.
Proof.
  unfold match_at. intros (n & g & Hmin & Hn & [= <-])%run_inv.
  by exists n.
Qed.

Lemma search_from_inv r : ∀ s i m,
  search_from r i s = Some m →
  ∃ j, j ≤ length s ∧ match_at r (i + j) (drop j s) = Some m.
Proof.
  induction s as [|c s IH]; intros i m; cbn [search_from].
  - destruct (match_at r i []) eqn:Hat; [|done].
    intros [= ->]. exists 0. by rewrite Nat.add_0_r.
  - destruct (match_at r i (c :: s)) eqn:Hat.
    + intros [= ->]. exists 0. rewrite Nat.add_0_r. split; [lia|done].
    + intros (j & Hj & Hm)%IH. exists (S j). cbn [length drop].
      rewrite Nat.add_succ_r. split; [lia|done].
Qed.

Lemma search_from_some r : ∀ s i j,
  j ≤ length s → is_Some (match_at r (i + j) (drop j s)) →
  is_Some (search_from r i s).
Proof.
  induction s as [|c s IH]; intros i j Hj Hat; cbn [search_from].
  - assert (j = 0) as -> by (cbn in Hj; lia).
    rewrite Nat.add_0_r in Hat. cbn [drop] in Hat.
    by destruct Hat as [m ->].
  - destruct (match_at r i (c :: s)) eqn:Hhere; [done|].
    destruct j as [|j].
    + rewrite Nat.add_0_r in Hat. cbn [drop] in Hat.
      rewrite Hhere in Hat. by destruct Hat.
    + apply (IH (S i) j); [cbn in Hj; lia|].
      by rewrite Nat.add_succ_r in Hat.
Qed.

(** Some path through a repetition succeeds when the continuation does
    after [n] characters of the class. *)
Lemma rep_some {R} greedy p (k : nat → ustr → option R) : ∀ n s i,
  n ≤ length s → forallb p (take n s) = true →
  is_Some (k (i + n) (drop n s)) → is_Some (rep greedy p i s k).
Proof.
  induction n as [|n IH]; intros s i Hn Hall Hk.
  - rewrite Nat.add_0_r, drop_0 in Hk.
    destruct s as [|c s]; [done|]. cbn [rep].
    destruct (p c); [|done].
    destruct greedy; unfold or_else.
    + by destruct (rep true p (S i) s k).
    + destruct Hk as [y Hk]. by rewrite Hk.
  - destruct s as [|c s]; [cbn in Hn; lia|].
    cbn [take forallb] in Hall. apply andb_prop in Hall as [Hc Hall].
    cbn [rep]. rewrite Hc.
    assert (is_Some (rep greedy p (S i) s k)) as [y Hrest].
    { apply (IH s (S i)); [cbn in Hn; lia|done|].
      by rewrite Nat.add_succ_r in Hk. }
    destruct greedy; unfold or_else.
    + by rewrite Hrest.
    + by destruct (k i (c :: s)).
Qed.

End EngineFacts.

Section LengthFacts.
Import Re.

Implicit Types (r : regex) (s pat repl : ustr) (p q : N → bool).

Lemma search_from_shape r s i m :
  search_from r i s = Some m →
  ∃ j n, m_start m = i + j ∧ m_end m = i + j + n
         ∧ m_rest m = drop (j + n) s
         ∧ min_len r ≤ n ∧ j + n ≤ length s
         ∧ match_at r (i + j) (drop j s) = Some m.
Proof.
  intros (j & Hj & Hat)%search_from_inv.
  pose proof Hat as (n & Hstart & Hend & Hrest & Hmin & Hn)%match_at_inv.
  rewrite length_drop in Hn. rewrite drop_drop in Hrest.
  exists j, n. split_and!; try done. lia.
Qed.

Lemma sub_from_length r repl : length repl ≤ min_len r → ∀ fuel s i,
  length (sub_from fuel r repl i s) ≤ length s.
Proof.
  intros Hrepl. induction fuel as [|fuel IH]; intros s i; cbn [sub_from];
    [done|].
  destruct (search_from r i s) as [m|] eqn:Hsearch; [|done].
  apply search_from_shape in Hsearch
    as (j & n & -> & -> & -> & Hmin & Hlen & _).
  rewrite !length_app, length_take.
  destruct (i + j + n =? i + j)%nat eqn:Hempty.
  - apply Nat.eqb_eq in Hempty.
    destruct (drop (j + n) s) as [|c rest] eqn:Hdrop.
    + cbn [length]. lia.
    + apply (f_equal (@length N)) in Hdrop. rewrite length_drop in Hdrop.
      cbn [length] in Hdrop |- *.
      specialize (IH rest (S (i + j + n))). lia.
  - specialize (IH (drop (j + n) s) (i + j + n)).
    rewrite length_drop in IH. lia.
Qed.

Lemma sub_length r repl s :
  length repl ≤ min_len r → length (sub r repl s) ≤ length s.
Proof. intros Hrepl. by apply sub_from_length. Qed.

(** A removal that finds a match shortens the string. *)
Lemma sub_shorter r s :
  0 < min_len r → is_Some (search r s) → length (sub r [] s) < length s.
Proof.
  intros Hmin [m Hsearch]. unfold sub, search in *. cbn [sub_from].
  rewrite Hsearch.
  apply search_from_shape in Hsearch
    as (j & n & -> & -> & -> & Hn & Hlen & _).
  replace (0 + j + n =? 0 + j)%nat with false
    by (symmetry; apply Nat.eqb_neq; lia).
  rewrite !length_app, length_take. cbn [length].
  pose proof (sub_from_length r [] (Nat.le_0_l _) (length s)
                (drop (j + n) s) (0 + j + n)) as Hrest.
  rewrite length_drop in Hrest. lia.
Qed.

Lemma sub_cases r s :
  0 < min_len r →
  search r s = None ∧ sub r [] s = s ∨ length (sub r [] s) < length s.
Proof.
  intros Hmin. destruct (search r s) as [m|] eqn:Hsearch.
  - right. apply sub_shorter; [done|]. by rewrite Hsearch.
  - left. split; [done|]. unfold sub, search in *. cbn [sub_from].
    by rewrite Hsearch.
Qed.

Lemma split_head_length r s : length (split_head r s) ≤ length s.
Proof.
  unfold split_head. destruct (search r s); [|done].
  rewrite length_take. lia.
Qed.

Lemma split_head_cases r s :
  0 < min_len r →
  search r s = None ∧ split_head r s = s
  ∨ length (split_head r s) < length s.
Proof.
  intros Hmin. unfold split_head.
  destruct (search r s) as [m|] eqn:Hsearch; [right|by left].
  apply search_from_shape in Hsearch as (j & n & -> & _ & _ & Hn & Hlen & _).
  rewrite length_take. lia.
Qed.

Lemma split_head_prefix r s : split_head r s `prefix_of` s.
Proof.
  unfold split_head. destruct (search r s); [|done]. apply prefix_take.
Qed.

(** What a substitution returns is made of the subject and of the
    replacement. *)
Lemma sub_from_forallb q r repl : forallb q repl = true → ∀ fuel s i,
  forallb q s = true → forallb q (sub_from fuel r repl i s) = true.
Proof.
  intros Hrepl. induction fuel as [|fuel IH]; intros s i Hs; cbn [sub_from];
    [done|].
  destruct (search_from r i s) as [m|] eqn:Hsearch; [|done].
  apply search_from_shape in Hsearch as (j & n & -> & -> & -> & _ & _ & _).
  assert (forallb q (take (i + j - i) s) = true) as Htake.
  { rewrite <- (take_drop (i + j - i) s) in Hs.
    rewrite forallb_app in Hs. by apply andb_prop in Hs as [? _]. }
  assert (forallb q (drop (j + n) s) = true) as Hdrop.
  { rewrite <- (take_drop (j + n) s) in Hs.
    rewrite forallb_app in Hs. by apply andb_prop in Hs as [_ ?]. }
  rewrite !forallb_app, Htake, Hrepl. cbn [andb].
  destruct (_ =? _)%nat.
  - destruct (drop (j + n) s) as [|c rest]; [done|].
    cbn [forallb] in Hdrop |- *. apply andb_prop in Hdrop as [-> Hrest].
    by apply IH.
  - by apply IH.
Qed.

Lemma strip_by_middle p s : ∃ pre post, s = pre ++ strip_by p s ++ post.
Proof.
  unfold strip_by, rstrip_by.
  destruct (lstrip_by_suffix p s) as [pre Hpre].
  destruct (lstrip_by_suffix p (rev (lstrip_by p s))) as [post Hpost].
  exists pre, (rev post).
  rewrite Hpre at 1. f_equal.
  rewrite <- rev_app_distr, <- Hpost. by rewrite rev_involutive.
Qed.

Lemma strip_by_length p s : length (strip_by p s) ≤ length s.
Proof.
  destruct (strip_by_middle p s) as (pre & post & Hs).
  rewrite Hs at 2. rewrite !length_app. lia.
Qed.

Lemma strip_by_forallb p q s :
  forallb q s = true → forallb q (strip_by p s) = true.
Proof.
  destruct (strip_by_middle p s) as (pre & post & Hs).
  rewrite Hs at 1. rewrite !forallb_app.
  by intros [_ [? _]%andb_prop]%andb_prop.
Qed.

Lemma strip_by_fixed p s : strip_by p s = s → edge_free p s = true.
Proof. intros <-. apply strip_by_edge_free_result. Qed.

End LengthFacts.

Section SpaceFacts.
Import Re.

Implicit Types (s pre post : ustr) (p q : N → bool).

Lemma rep_greedy_max {R} p (f : nat → ustr → R) : ∀ s i,
  ∃ n, n ≤ length s
       ∧ rep true p i s (λ i' s', Some (f i' s')) = Some (f (i + n) (drop n s))
       ∧ head_free p (drop n s) = true.
Proof.
  induction s as [|c s IH]; intros i.
  - exists 0. by rewrite Nat.add_0_r.
  - cbn [rep]. destruct (p c) eqn:Hc.
    + destruct (IH (S i)) as (n & Hn & -> & Hhead). exists (S n).
      cbn [or_else length drop]. rewrite Nat.add_succ_r.
      split_and!; [lia|done|done].
    + exists 0. rewrite Nat.add_0_r. cbn [drop head_free]. rewrite Hc.
      split_and!; [lia|done|done].
Qed.

(** The first match of [\s+]: the first whitespace character and all that
    follow it. *)
Lemma search_space : ∀ s i,
  match search_from (plus is_space) i s with
  | None => forallb (λ c, negb (is_space c)) s = true
  | Some m =>
    ∃ j n, m_start m = i + j ∧ m_end m = i + j + S n
           ∧ forallb (λ c, negb (is_space c)) (take j s) = true
           ∧ (j = 0 → head_free is_space s = false)
           ∧ m_rest m = drop (j + S n) s ∧ j + S n ≤ length s
           ∧ head_free is_space (m_rest m) = true
  end.
Proof.
  induction s as [|c s IH]; intros i; [done|].
  cbn [search_from]. unfold match_at. unfold plus at 1. cbn [run].
  destruct (is_space c) eqn:Hc.
  - destruct (rep_greedy_max is_space (λ i' s', MkMatch i i' s' None) s (S i))
      as (n & Hn & -> & Hhead).
    exists 0, n. cbn [m_start m_end m_rest length drop take forallb head_free].
    rewrite Hc. split_and!; try done; lia.
  - specialize (IH (S i)).
    destruct (search_from (plus is_space) (S i) s) as [m|].
    + destruct IH as (j & n & Hstart & Hend & Hpre & _ & Hrest & Hlen & Hhead).
      exists (S j), n. cbn [length drop take forallb head_free].
      rewrite Hc, Hpre. split_and!; try done; lia.
    + cbn [forallb]. by rewrite Hc.
Qed.

Lemma single_spaced_join pre s :
  forallb (λ c, negb (is_space c)) pre = true →
  single_spaced s = true → head_free is_space s = true →
  single_spaced (pre ++ SP :: s) = true.
Proof.
  intros Hpre Hs Hhead. induction pre as [|c pre IH].
  - cbn [app single_spaced]. rewrite Hs.
    replace (is_space SP) with true by (vm_compute; reflexivity).
    rewrite N.eqb_refl. unfold head_free in Hhead. by rewrite Hhead.
  - cbn [forallb] in Hpre. apply andb_prop in Hpre as [Hc Hpre].
    cbn [app single_spaced]. apply negb_true_iff in Hc. rewrite Hc.
    by apply IH.
Qed.

Lemma single_spaced_suffix pre s :
  single_spaced (pre ++ s) = true → single_spaced s = true.
Proof.
  induction pre as [|c pre IH]; [done|]. cbn [app single_spaced].
  intros [_ ?]%andb_prop. by apply IH.
Qed.

Lemma single_spaced_prefix s post :
  single_spaced (s ++ post) = true → single_spaced s = true.
Proof.
  induction s as [|c s IH]; [done|]. cbn [app single_spaced].
  intros [Hc Hs]%andb_prop. rewrite (IH Hs), andb_true_r.
  destruct (is_space c); [|done].
  apply andb_prop in Hc as [-> Hnext]. by destruct s.
Qed.

(** Whitespace is collapsed to single spaces, whatever the input. *)
Lemma sub_from_space : ∀ fuel s i,
  length s < fuel →
  single_spaced (sub_from fuel (plus is_space) [SP] i s) = true
  ∧ (head_free is_space s = true →
     head_free is_space (sub_from fuel (plus is_space) [SP] i s) = true).
Proof.
  induction fuel as [|fuel IH]; intros s i Hfuel; [lia|].
  cbn [sub_from]. pose proof (search_space s i) as Hsearch.
  destruct (search_from (plus is_space) i s) as [m|].
  - destruct Hsearch
      as (j & n & -> & -> & Hpre & Hzero & -> & Hlen & Hhead).
    replace (i + j + S n =? i + j)%nat with false
      by (symmetry; apply Nat.eqb_neq; lia).
    replace (i + j - i) with j by lia.
    destruct (IH (drop (j + S n) s) (i + j + S n)) as [Hspaced Hfree].
    { rewrite length_drop. lia. }
    split.
    + apply single_spaced_join; [done|done|by apply Hfree].
    + intros Hs. destruct j as [|j]; [by rewrite Hzero in Hs|].
      destruct s as [|c s]; [cbn in Hlen; lia|]. done.
  - split; [|done]. clear IH Hfuel.
    induction s as [|c s IHs]; [done|].
    cbn [forallb] in Hsearch. apply andb_prop in Hsearch as [Hc Hs].
    cbn [single_spaced]. apply negb_true_iff in Hc. rewrite Hc.
    by apply IHs.
Qed.

Lemma sub_space_single_spaced s :
  single_spaced (sub (plus is_space) [SP] s) = true.
Proof. apply sub_from_space. lia. Qed.

Lemma strip_by_single_spaced p s :
  single_spaced s = true → single_spaced (strip_by p s) = true.
Proof.
  destruct (strip_by_middle p s) as (pre & post & Hs).
  rewrite Hs at 1. intros H%single_spaced_suffix.
  by apply single_spaced_prefix in H.
Qed.

(** A single-spaced string has no line feed, and its runs of whitespace
    are single spaces. *)
Lemma single_spaced_dot s :
  single_spaced s = true → forallb dot s = true.
Proof.
  induction s as [|c s IH]; [done|]. cbn [single_spaced forallb].
  intros [Hc Hs]%andb_prop. rewrite (IH Hs), andb_true_r.
  unfold dot. destruct (c =? NL)%N eqn:Hnl; [|done].
  apply N.eqb_eq in Hnl as ->.
  replace (is_space NL) with true in Hc by (vm_compute; reflexivity).
  by apply andb_prop in Hc as [? _].
Qed.

Lemma single_spaced_run s n :
  single_spaced s = true → n ≤ length s →
  forallb is_space (take n s) = true →
  n = 0 ∨ n = 1 ∧ ∃ s', s = SP :: s'.
Proof.
  intros Hs Hn Hall. destruct n as [|[|n]]; [by left|right|exfalso].
  - split; [done|]. destruct s as [|c s]; [cbn in Hn; lia|].
    cbn [take forallb] in Hall. apply andb_prop in Hall as [Hc _].
    cbn [single_spaced] in Hs. rewrite Hc in Hs.
    apply andb_prop in Hs as [[->%N.eqb_eq _]%andb_prop _]. by exists s.
  - destruct s as [|c [|d s]]; [cbn in Hn; lia|cbn in Hn; lia|].
    cbn [take forallb] in Hall.
    apply andb_prop in Hall as [Hc [Hd _]%andb_prop].
    cbn [single_spaced] in Hs. rewrite Hc, Hd in Hs.
    by apply andb_prop in Hs as [[_ ?]%andb_prop _].
Qed.

End SpaceFacts.

Section OccurrenceFacts.
Import Re.

Implicit Types (s pat a b pre rest : ustr).

Lemma starts_with_split pat : ∀ s,
  starts_with pat s = true → s = pat ++ drop (length pat) s.
Proof.
  induction pat as [|c pat IH]; intros [|x s]; try done.
  cbn [starts_with length drop app].
  intros [->%N.eqb_eq Hrest]%andb_prop. f_equal. by apply IH.
Qed.

Lemma starts_with_refl pat rest : starts_with pat (pat ++ rest) = true.
Proof.
  induction pat as [|c pat IH]; [done|]. cbn [app starts_with].
  by rewrite N.eqb_refl.
Qed.

Lemma starts_with_app a b : ∀ s,
  starts_with (a ++ b) s
  = starts_with a s && starts_with b (drop (length a) s).
Proof.
  induction a as [|c a IH]; intros s; [done|].
  destruct s as [|x s]; [done|]. cbn [app starts_with length drop].
  rewrite IH. by rewrite andb_assoc.
Qed.

Lemma contains_split pat s :
  contains pat s = true →
  ∃ j, j ≤ length s ∧ starts_with pat (drop j s) = true.
Proof.
  induction s as [|x s IH]; cbn [contains].
  - rewrite orb_false_r. intros Hhere. by exists 0.
  - intros [Hhere|Hrest]%orb_prop.
    + exists 0. split; [lia|done].
    + destruct (IH Hrest) as (j & Hj & Hat). exists (S j).
      cbn [length drop]. split; [lia|done].
Qed.

Lemma contains_fold_split pat s :
  contains_fold pat s = true →
  ∃ j, j ≤ length s ∧ starts_with_fold pat (drop j s) = true.
Proof.
  induction s as [|x s IH]; cbn [contains_fold].
  - rewrite orb_false_r. intros Hhere. by exists 0.
  - intros [Hhere|Hrest]%orb_prop.
    + exists 0. split; [lia|done].
    + destruct (IH Hrest) as (j & Hj & Hat). exists (S j).
      cbn [length drop]. split; [lia|done].
Qed.

Lemma starts_with_contains pat s s' :
  s' `suffix_of` s → starts_with pat s' = true → contains pat s = true.
Proof.
  intros Hsuffix Hat. destruct (contains pat s) eqn:Hno; [done|].
  by rewrite (contains_suffix pat s s') in Hat.
Qed.

Lemma starts_with_fold_contains pat s s' :
  s' `suffix_of` s → starts_with_fold pat s' = true →
  contains_fold pat s = true.
Proof.
  intros Hsuffix Hat. destruct (contains_fold pat s) eqn:Hno; [done|].
  by rewrite (contains_fold_suffix pat s s') in Hat.
Qed.

Lemma spans_suffix pre s : spans s = true → spans (pre ++ s) = true.
Proof.
  intros Hs. induction pre as [|c pre IH]; [done|].
  cbn [app spans]. by rewrite IH, orb_true_r.
Qed.

Lemma spans_split s :
  spans s = true →
  ∃ j c rest, j ≤ length s
    ∧ starts_with (u "《") (drop j s) = true
    ∧ drop (S j) s = c :: rest
    ∧ contains (u "》") rest = true.
Proof.
  induction s as [|x s IH]; [done|]. cbn [spans].
  intros [[Hopen Hclose]%andb_prop|Hrest]%orb_prop.
  - destruct s as [|c rest]; [done|].
    exists 0, c, rest. cbn [drop] in *. split_and!; try done. lia.
  - destruct (IH Hrest) as (j & c & rest & Hj & Hopen & Hdrop & Hclose).
    exists (S j), c, rest. cbn [length drop]. split_and!; try done. lia.
Qed.

Lemma forallb_drop (q : N → bool) n s :
  forallb q s = true → forallb q (drop n s) = true.
Proof.
  intros Hs. rewrite <- (take_drop n s), forallb_app in Hs.
  by apply andb_prop in Hs as [_ ?].
Qed.

Lemma forallb_take (q : N → bool) n s :
  forallb q s = true → forallb q (take n s) = true.
Proof.
  intros Hs. rewrite <- (take_drop n s), forallb_app in Hs.
  by apply andb_prop in Hs as [? _].
Qed.

Lemma single_spaced_drop n s :
  single_spaced s = true → single_spaced (drop n s) = true.
Proof.
  intros Hs. rewrite <- (take_drop n s) in Hs.
  by apply single_spaced_suffix in Hs.
Qed.

Lemma rep_ext {R} greedy p (k1 k2 : nat → ustr → option R) :
  (∀ i s, k1 i s = k2 i s) →
  ∀ s i, rep greedy p i s k1 = rep greedy p i s k2.
Proof.
  intros Hk. induction s as [|c s IH]; intros i; cbn [rep]; [done|].
  by rewrite IH, Hk.
Qed.

Lemma run_ext r : ∀ {R} i s g (k1 k2 : nat → ustr → option ustr → option R),
  (∀ i' s' g', k1 i' s' g' = k2 i' s' g') →
  run r i s g k1 = run r i s g k2.
Proof.
  induction r as [|p|r1 IH1 r2 IH2|greedy p|r1 IH1|r1 IH1| |];
    intros R i s g k1 k2 Hk; cbn [run].
  - apply Hk.
  - destruct s as [|c s]; [done|]. by rewrite Hk.
  - apply IH1. intros i' s' g'. by apply IH2.
  - apply rep_ext. intros i' s'. apply Hk.
  - by rewrite (IH1 _ _ _ _ k1 k2), Hk.
  - apply IH1. intros i' s' g'. apply Hk.
  - by rewrite Hk.
  - by rewrite Hk.
Qed.

Lemma run_seq_app {R} rs1 rs2 : ∀ i s g
    (k : nat → ustr → option ustr → option R),
  run (seq (rs1 ++ rs2)) i s g k
  = run (seq rs1) i s g (λ i' s' g', run (seq rs2) i' s' g' k).
Proof.
  induction rs1 as [|r rs1 IH]; intros i s g k; [done|].
  cbn [app seq run]. apply run_ext. intros i' s' g'. apply IH.
Qed.

End OccurrenceFacts.

Section PatternFacts.
Import Re.

Implicit Types (s pat b label pre rest : ustr) (p q : N → bool).

Lemma last_free_snoc p pre c : last_free p (pre ++ [c]) = negb (p c).
Proof. unfold last_free. by rewrite rev_app_distr. Qed.

Lemma edge_free_snoc p pre c :
  edge_free p (pre ++ [c]) = true → p c = false.
Proof.
  unfold edge_free. rewrite rev_app_distr. cbn [rev app].
  by intros [_ ?%negb_true_iff]%andb_prop.
Qed.

Lemma is_Some_or_else {R} (x : option R) y : is_Some (or_else x (λ _, Some y)).
Proof. by destruct x. Qed.

(** *** A suffix pattern "\s*A\s*b.*$", [A] matching one character of the
    class [pa] *)

Section Suffix.
Context (A : regex) (pa : N → bool) (b : ustr).
Hypothesis run_A :
  ∀ R i s g (k : nat → ustr → option ustr → option R),
    run A i s g k
    = match s with
      | c :: s' => if pa c then k (S i) s' g else None
      | [] => None
      end.

Lemma suffix_pattern_none s :
  single_spaced s = true →
  (∀ c, pa c = true → follows [c] b s = false) →
  search (seq [star is_space; A; star is_space; lit b; star dot; Eol]) s
  = None.
Proof using run_A.
  intros Hs Hno.
  destruct (search _ s) as [m|] eqn:Hsearch; [exfalso|done].
  apply search_from_shape in Hsearch as (j & _ & _ & _ & _ & _ & _ & Hat).
  unfold match_at in Hat. cbn [seq run star] in Hat.
  apply rep_inv in Hat as (n0 & _ & _ & Hat).
  rewrite run_A, drop_drop in Hat.
  destruct (drop (j + n0) s) as [|c s2] eqn:Hdrop; [done|].
  destruct (pa c) eqn:Hc; [|done].
  apply rep_inv in Hat as (n1 & Hn1 & Hws & Hat).
  rewrite run_lit in Hat.
  destruct (starts_with b (drop n1 s2)) eqn:Hb; [clear Hat|done].
  assert ((c :: s2) `suffix_of` s) as Hsuffix.
  { rewrite <- Hdrop. apply suffix_drop. }
  assert (single_spaced s2 = true) as Hs2.
  { apply (single_spaced_suffix [c]). cbn [app]. rewrite <- Hdrop.
    by apply single_spaced_drop. }
  specialize (Hno c Hc). unfold follows in Hno.
  apply orb_false_iff in Hno as [Hdirect Hspace].
  destruct (single_spaced_run s2 n1 Hs2 Hn1 Hws) as [->|[-> [s3 ->]]].
  - rewrite (starts_with_contains _ s (c :: s2)) in Hdirect; [done|done|].
    cbn [app starts_with]. by rewrite N.eqb_refl.
  - rewrite (starts_with_contains _ s (c :: SP :: s3)) in Hspace;
      [done|done|].
    cbn [app starts_with]. by rewrite !N.eqb_refl.
Qed.

Lemma suffix_pattern_some s c :
  single_spaced s = true → pa c = true → follows [c] b s = true →
  is_Some (search (seq [star is_space; A; star is_space; lit b; star dot;
                        Eol]) s).
Proof using run_A.
  intros Hs Hc Hfollows.
  assert (∃ mid j, forallb is_space mid = true ∧ j ≤ length s
            ∧ starts_with (c :: mid ++ b) (drop j s) = true)
    as (mid & j & Hmid & Hj & Hat).
  { unfold follows in Hfollows.
    apply orb_prop in Hfollows as [(j & ? & ?)%contains_split
                                  |(j & ? & ?)%contains_split].
    - by exists [], j.
    - exists [SP], j. split_and!; try done. }
  apply starts_with_split in Hat.
  set (rest := drop (length (c :: mid ++ b)) (drop j s)) in Hat.
  assert (forallb dot rest = true) as Hrest.
  { subst rest. by apply forallb_drop, forallb_drop, single_spaced_dot. }
  apply (search_from_some _ s 0 j); [done|]. rewrite Hat.
  unfold match_at. cbn [seq run star].
  apply (rep_some _ _ _ 0); [lia|done|].
  rewrite Nat.add_0_r. cbn [drop app]. rewrite run_A, Hc.
  apply (rep_some _ _ _ (length mid)).
  { rewrite !length_app. lia. }
  { rewrite <- (assoc_L (++)). by rewrite take_app_length. }
  rewrite <- (assoc_L (++)), drop_app_length, run_lit, starts_with_refl.
  rewrite drop_app_length.
  apply (rep_some _ _ _ (length rest)); [done|by rewrite firstn_all|].
  rewrite drop_all. cbn [run]. by eexists.
Qed.

End Suffix.

(** *** The closing bracket at the end: "[》〉]\s*$" *)

Lemma close_pattern_none q s :
  single_spaced s = true → edge_free is_space s = true →
  last_free q s = true →
  search (seq [Chr q; star is_space; Eol]) s = None.
Proof.
  intros Hs Hedge Hlast.
  destruct (search _ s) as [m|] eqn:Hsearch; [exfalso|done].
  apply search_from_shape in Hsearch as (j & _ & _ & _ & _ & _ & _ & Hat).
  unfold match_at in Hat. cbn [seq run star] in Hat.
  destruct (drop j s) as [|c s2] eqn:Hdrop; [done|].
  destruct (q c) eqn:Hc; [|done].
  apply rep_inv in Hat as (n1 & Hn1 & Hws & Hat).
  assert (s = take j s ++ c :: s2) as Hsplit.
  { by rewrite <- Hdrop, take_drop. }
  assert (single_spaced s2 = true) as Hs2.
  { apply (single_spaced_suffix [c]). cbn [app]. rewrite <- Hdrop.
    by apply single_spaced_drop. }
  assert (forallb dot s2 = true) as Hdot by by apply single_spaced_dot.
  unfold dot in Hdot.
  destruct (single_spaced_run s2 n1 Hs2 Hn1 Hws) as [->|[-> [s3 ->]]].
  - rewrite drop_0 in Hat. destruct s2 as [|d [|e s2]]; [| |done].
    + rewrite Hsplit, last_free_snoc, Hc in Hlast. done.
    + cbn [forallb] in Hdot. by destruct (d =? NL)%N.
  - cbn [drop] in Hat. rewrite drop_0 in Hat.
    destruct s3 as [|d [|e s3]]; [| |done].
    + rewrite Hsplit in Hedge.
      change (c :: [SP]) with ([c] ++ [SP]) in Hedge.
      rewrite (assoc_L (++)) in Hedge.
      by apply edge_free_snoc in Hedge.
    + cbn [forallb] in Hdot. rewrite andb_true_r in Hdot.
      apply andb_prop in Hdot as [_ Hd]. by destruct (d =? NL)%N.
Qed.

Lemma close_pattern_some q s :
  last_free q s = false →
  is_Some (search (seq [Chr q; star is_space; Eol]) s).
Proof.
  intros Hlast. destruct s as [|x s _] using rev_ind; [done|].
  rewrite last_free_snoc in Hlast. apply negb_false_iff in Hlast.
  apply (search_from_some _ _ 0 (length s)).
  { rewrite length_app. lia. }
  rewrite drop_app_length. unfold match_at. cbn [seq run star].
  rewrite Hlast. cbn [rep run]. by eexists.
Qed.

(** *** A playlist label at the start: "^\s*label\s*[《〈]?" *)

Lemma label_pattern_some label q s :
  starts_with label s = true →
  is_Some (search (seq [Bol; star is_space; lit label; star is_space;
                        Opt (Chr q)]) s).
Proof.
  intros Hlabel. apply (search_from_some _ s 0 0); [lia|].
  rewrite drop_0. unfold match_at. cbn [seq run star Nat.add Nat.eqb].
  apply (rep_some _ _ _ 0); [lia|done|].
  rewrite drop_0, run_lit, Hlabel.
  apply (rep_some _ _ _ 0); [lia|done|].
  rewrite drop_0. cbn [run]. apply is_Some_or_else.
Qed.

(** *** The title in brackets: "label《(.+?)》" *)

Lemma match_wrapped (prefix : list regex) i s m :
  match_at (wrapped prefix) i s = Some m →
  ∃ t, m_group1 m = Some t ∧ length t < length s ∧ spans s = true.
Proof.
  unfold match_at, wrapped. rewrite run_seq_app.
  intros (n0 & g0 & _ & Hn0 & Hrun)%run_inv.
  cbn [seq run] in Hrun. rewrite run_lit in Hrun.
  destruct (starts_with (u "《") (drop n0 s)) eqn:Hopen; [|done].
  replace (length (u "《")) with 1 in Hrun by (vm_compute; reflexivity).
  change (plus_lazy dot) with (Cat (Chr dot) (Rep false dot)) in Hrun.
  apply (run_inv (Cat (Chr dot) (Rep false dot))) in Hrun
    as (n & g & Hmin & Hn & Hrun).
  cbn [min_len Nat.add] in Hmin.
  rewrite run_lit in Hrun.
  destruct (starts_with (u "》") (drop n (drop 1 (drop n0 s)))) eqn:Hclose;
    [|done].
  cbn [run] in Hrun. injection Hrun as <-. cbn [m_group1].
  rewrite !length_drop in Hn.
  eexists. split; [done|]. split.
  - rewrite length_take. lia.
  - rewrite <- (take_drop n0 s). apply spans_suffix.
    destruct (drop n0 s) as [|x s1]; [done|].
    cbn [spans]. rewrite Hopen. cbn [andb drop] in Hclose |- *.
    rewrite (starts_with_contains _ (drop 1 s1) (drop n s1)); [done| |done].
    destruct n as [|n]; [lia|].
    destruct s1 as [|y s1]; [by rewrite drop_nil|]. cbn [drop].
    apply suffix_drop.
Qed.

Lemma search_wrapped_none (prefix : list regex) s :
  spans s = false → search (wrapped prefix) s = None.
Proof.
  intros Hno. destruct (search _ s) as [m|] eqn:Hsearch; [exfalso|done].
  apply search_from_shape in Hsearch as (j & _ & _ & _ & _ & _ & _ & Hat).
  apply match_wrapped in Hat as (_ & _ & _ & Hspans).
  rewrite <- (take_drop j s), spans_suffix in Hno; done.
Qed.

Lemma search_wrapped_group (prefix : list regex) s m :
  search (wrapped prefix) s = Some m →
  length (default [] (m_group1 m)) < length s.
Proof.
  intros (j & _ & _ & _ & _ & _ & _ & Hat)%search_from_shape.
  apply match_wrapped in Hat as (t & -> & Hlen & _).
  rewrite length_drop in Hlen. cbn. lia.
Qed.

Lemma search_wrapped_some s :
  forallb dot s = true → spans s = true →
  is_Some (search (wrapped []) s).
Proof.
  intros Hdot (j & c & rest & Hj & Hopen & Hdrop & Hclose)%spans_split.
  apply contains_split in Hclose as (n & Hn & Hclose).
  apply starts_with_split in Hopen.
  replace (length (u "《")) with 1 in Hopen by (vm_compute; reflexivity).
  rewrite drop_drop in Hopen.
  replace (j + 1) with (S j) in Hopen by lia. rewrite Hdrop in Hopen.
  assert (forallb dot (c :: rest) = true) as Hinner.
  { rewrite <- Hdrop. by apply forallb_drop. }
  cbn [forallb] in Hinner. apply andb_prop in Hinner as [Hc Hrest].
  apply (search_from_some _ s 0 j); [done|]. rewrite Hopen.
  unfold match_at, wrapped. cbn [app seq run].
  rewrite run_lit, starts_with_refl.
  replace (length (u "《")) with 1 by (vm_compute; reflexivity).
  rewrite drop_app_length'; [|vm_compute; reflexivity].
  unfold plus_lazy. cbn [run]. rewrite Hc.
  apply (rep_some _ _ _ n); [done|by apply forallb_take|].
  rewrite run_lit, Hclose. cbn [run]. by eexists.
Qed.

(** The extraction loop finds nothing and returns its input, or returns
    something shorter. *)
Lemma extract_core_cases s :
  forallb dot s = true →
  spans s = false ∧ extract_core patterns_to_extract s = s
  ∨ length (extract_core patterns_to_extract s) < length s.
Proof.
  intros Hdot. unfold patterns_to_extract. cbn [extract_core].
  destruct (spans s) eqn:Hspans.
  - right.
    repeat match goal with
           | |- context [search ?r s] =>
             destruct (search r s) as [m|] eqn:?;
               [by eapply search_wrapped_group|]
           end.
    destruct (search_wrapped_some s Hdot Hspans) as [m ?]. congruence.
  - left. split; [done|]. by rewrite !search_wrapped_none.
Qed.

(** *** Single characters and literals *)

Lemma search_from_chr p : ∀ s i,
  match search_from (Chr p) i s with
  | Some m => ∃ j, m_start m = i + j
                   ∧ forallb (λ c, negb (p c)) (take j s) = true
  | None => forallb (λ c, negb (p c)) s = true
  end.
Proof.
  induction s as [|c s IH]; intros i; [done|].
  cbn [search_from]. unfold match_at. cbn [run].
  destruct (p c) eqn:Hc.
  - exists 0. by rewrite Nat.add_0_r.
  - specialize (IH (S i)).
    destruct (search_from (Chr p) (S i) s) as [m|].
    + destruct IH as (j & Hstart & Hpre). exists (S j).
      cbn [take forallb]. rewrite Hc, Hpre. split; [lia|done].
    + cbn [forallb]. by rewrite Hc.
Qed.

Lemma split_head_chr_free p s :
  forallb (λ c, negb (p c)) (split_head (Chr p) s) = true.
Proof.
  unfold split_head, search. pose proof (search_from_chr p s 0) as Hsearch.
  destruct (search_from (Chr p) 0 s) as [m|]; [|done].
  by destruct Hsearch as (j & -> & Hpre).
Qed.

Lemma search_lit_i_some pat s :
  contains_fold pat s = true → is_Some (search (lit_i pat) s).
Proof.
  intros (j & Hj & Hat)%contains_fold_split.
  apply (search_from_some _ s 0 j); [done|].
  unfold match_at. rewrite run_lit_i, Hat. by eexists.
Qed.

End PatternFacts.

(** ** The fixed points of the two normalizers *)

Section FixedPoints.
Import Re.

Implicit Types (s x repl : ustr) (p q : N → bool) (r : regex).

Lemma sub_search_none r repl s : search r s = None → sub r repl s = s.
Proof. unfold sub, search. cbn [sub_from]. by intros ->. Qed.

Lemma strip_by_cases p s :
  strip_by p s = s ∨ length (strip_by p s) < length s.
Proof.
  destruct (strip_by_middle p s) as (pre & post & Hs).
  destruct pre as [|c pre]; [destruct post as [|d post]|].
  - left. by rewrite app_nil_r in Hs.
  - right. rewrite Hs at 2. rewrite !length_app. cbn [length]. lia.
  - right. rewrite Hs at 2. rewrite !length_app. cbn [length]. lia.
Qed.

Lemma forallb_prefix q s1 s2 :
  s1 `prefix_of` s2 → forallb q s2 = true → forallb q s1 = true.
Proof.
  intros [post ->]. rewrite forallb_app. by intros [? _]%andb_prop.
Qed.

(** Steps that never lengthen a title, peeled off one at a time. *)
Ltac peel H :=
  repeat first
    [ exact H
    | eapply Nat.le_lt_trans; [apply strip_by_length|]
    | eapply Nat.le_lt_trans; [apply split_head_length|]
    | eapply Nat.le_lt_trans; [apply sub_length; vm_compute; lia|] ].

Ltac shrinks Hfix H :=
  exfalso;
  let Hlen := fresh in
  pose proof (f_equal (@length N) Hfix) as Hlen;
  match type of Hlen with
  | length ?t = length ?y => enough (length t < length y) by lia
  end;
  unfold strip; peel H.

(** *** normalize_title *)

(** What [normalize_title] returns is single-spaced and trimmed, and has
    no pipe. *)
Lemma normalize_title_shape x :
  single_spaced (normalize_title x) = true
  ∧ edge_free is_space (normalize_title x) = true
  ∧ forallb (λ c, negb (one_of (u "｜|") c)) (normalize_title x) = true.
Proof.
  unfold normalize_title. destruct (negb (nonempty x)); [done|].
  cbv zeta. unfold strip. split_and!.
  - do 2 apply strip_by_single_spaced. apply sub_space_single_spaced.
  - apply strip_by_edge_free_result.
  - do 2 apply strip_by_forallb.
    apply sub_from_forallb; [vm_compute; reflexivity|].
    eapply forallb_prefix; [apply split_head_prefix|].
    eapply forallb_prefix; [apply split_head_prefix|].
    apply split_head_chr_free.
Qed.

Lemma normalize_title_settled s :
  single_spaced s = true → edge_free is_space s = true →
  forallb (λ c, negb (one_of (u "｜|") c)) s = true →
  is_normal s = true → normalize_title s = s.
Proof.
  intros Hspaces Hedge Hpipe.
  unfold is_normal.
  intros ((Hsite%negb_true_iff & Hspans%negb_true_iff)%andb_prop
          & Hchars)%andb_prop.
  unfold normalize_title. destruct s as [|c s']; [done|].
  cbn [nonempty negb]. cbv zeta. unfold strip.
  rewrite (strip_by_edge_free is_space (c :: s')) by done.
  unfold patterns_to_extract. cbn [extract_core].
  rewrite !search_wrapped_none by done.
  rewrite (split_head_dead (c :: s')) by by apply dead_chr.
  rewrite (split_head_dead (c :: s')).
  2:{ apply dead_lit, (contains_fold_of _ (u "- youtube")); [|done].
      vm_compute. reflexivity. }
  rewrite (split_head_dead (c :: s')) by by apply dead_lit_i.
  rewrite sub_single_spaced by done.
  rewrite (strip_by_edge_free (one_of _)) by done.
  by apply strip_by_edge_free.
Qed.

Lemma normalize_title_fixed s :
  single_spaced s = true → edge_free is_space s = true →
  forallb (λ c, negb (one_of (u "｜|") c)) s = true →
  normalize_title s = s → is_normal s = true.
Proof.
  intros Hspaces Hedge Hpipe.
  unfold normalize_title. destruct s as [|c s']; [done|].
  cbn [nonempty negb]. cbv zeta. unfold strip.
  rewrite (strip_by_edge_free is_space (c :: s')) by done.
  set (y := c :: s') in *. intros Hfix.
  destruct (extract_core_cases y) as [[Hspans Hsame]|Hshort];
    [by apply single_spaced_dot| |shrinks Hfix Hshort].
  rewrite Hsame in Hfix. clear Hsame.
  rewrite (split_head_dead y) in Hfix by by apply dead_chr.
  destruct (split_head_cases (lit (u "- YouTube")) y)
    as [[_ Hsame]|Hshort]; [vm_compute; lia| |shrinks Hfix Hshort].
  rewrite Hsame in Hfix. clear Hsame.
  destruct (split_head_cases (lit_i (u "- youtube")) y)
    as [[Hsite Hsame]|Hshort]; [vm_compute; lia| |shrinks Hfix Hshort].
  rewrite Hsame in Hfix. clear Hsame.
  rewrite sub_single_spaced in Hfix by done.
  destruct (strip_by_cases (one_of (u "《》[]()｜|：:")) y)
    as [Hchars|Hshort]; [|shrinks Hfix Hshort].
  apply strip_by_fixed in Hchars. unfold is_normal.
  rewrite Hspans, Hchars.
  destruct (contains_fold (u "- youtube") y) eqn:Hcontains; [|done].
  apply search_lit_i_some in Hcontains as [m Hm]. congruence.
Qed.

(** *** clean_title *)

Lemma clean_title_shape x :
  single_spaced (clean_title x) = true
  ∧ edge_free is_space (clean_title x) = true.
Proof.
  unfold clean_title. destruct (negb (nonempty x)); [done|].
  cbv zeta. unfold strip. split.
  - apply strip_by_single_spaced, sub_space_single_spaced.
  - apply strip_by_edge_free_result.
Qed.

Lemma run_pipe {R} i s g (k : nat → ustr → option ustr → option R) :
  run (Chr (one_of (u "｜|"))) i s g k
  = match s with
    | c :: s' => if one_of (u "｜|") c then k (S i) s' g else None
    | [] => None
    end.
Proof. done. Qed.

Lemma run_hyphen {R} i s g (k : nat → ustr → option ustr → option R) :
  run (lit (u "-")) i s g k
  = match s with
    | c :: s' => if (45 =? c)%N then k (S i) s' g else None
    | [] => None
    end.
Proof. by destruct s. Qed.

Lemma pipe_cases c :
  one_of (u "｜|") c = true → [c] = u "｜" ∨ [c] = u "|".
Proof.
  unfold one_of. intros Hc%bool_decide_eq_true.
  replace (u "｜|") with (u "｜" ++ u "|") in Hc by (vm_compute; reflexivity).
  apply elem_of_app in Hc as [Hc|Hc]; [left|right];
    vm_compute in Hc; apply list_elem_of_singleton in Hc as ->;
    vm_compute; reflexivity.
Qed.

Lemma hyphen_cases c : (45 =? c)%N = true → [c] = u "-".
Proof. by intros <-%N.eqb_eq. Qed.

Lemma clean_title_settled s :
  single_spaced s = true → edge_free is_space s = true →
  is_clean s = true → clean_title s = s.
Proof.
  intros Hspaces Hedge. unfold is_clean.
  intros ((((((Hfull%negb_true_iff & Hpipe%negb_true_iff)%andb_prop
              & Hsite%negb_true_iff)%andb_prop
             & Hfilm%negb_true_iff)%andb_prop
            & Hsong%negb_true_iff)%andb_prop
           & Hshow%negb_true_iff)%andb_prop & Hclose)%andb_prop.
  unfold clean_title. destruct s as [|c s']; [done|].
  cbn [nonempty negb]. cbv zeta.
  set (y := c :: s') in *.
  assert (Hhead : match y with
                  | [] => true
                  | d :: _ => negb (is_space d)
                  end = true)
    by by apply andb_prop in Hedge as [? _].
  rewrite (sub_search_none _ _ y).
  2:{ apply (suffix_pattern_none _ _ _ (@run_pipe)); [done|].
      by intros d [-> | ->]%pipe_cases. }
  rewrite (sub_search_none _ _ y).
  2:{ apply (suffix_pattern_none _ _ _ (@run_hyphen)); [done|].
      by intros d ->%hyphen_cases. }
  rewrite (sub_search_none _ _ y) by by apply search_label_prefix.
  rewrite (sub_search_none _ _ y) by by apply search_label_prefix.
  rewrite (sub_search_none _ _ y) by by apply search_label_prefix.
  rewrite (sub_search_none _ _ y) by by apply close_pattern_none.
  rewrite sub_single_spaced by done.
  by apply strip_by_edge_free.
Qed.

Lemma clean_title_fixed s :
  single_spaced s = true → edge_free is_space s = true →
  clean_title s = s → is_clean s = true.
Proof.
  intros Hspaces Hedge.
  unfold clean_title. destruct s as [|c s']; [done|].
  cbn [nonempty negb]. cbv zeta.
  remember (c :: s') as y eqn:Hy. clear Hy. intros Hfix.
  repeat match type of Hfix with
         | context [sub ?r [] y] =>
           let Hnone := fresh "Hnone" in
           let Hsame := fresh "Hsame" in
           let Hshort := fresh "Hshort" in
           destruct (sub_cases r y) as [[Hnone Hsame]|Hshort];
             [vm_compute; lia| |shrinks Hfix Hshort];
           rewrite Hsame in Hfix; clear Hsame
         end.
  unfold is_clean.
  repeat match goal with
         | |- context [follows ?a ?b y] =>
           destruct (follows a b y) eqn:?
         | |- context [starts_with ?a y] =>
           destruct (starts_with a y) eqn:?
         | |- context [last_free ?q y] =>
           destruct (last_free q y) eqn:?
         end;
    try done; exfalso.
  all: match goal with
       | H : follows (u "｜") _ _ = true |- _ =>
         apply (suffix_pattern_some _ _ _ (@run_pipe)) in H as [m Hm];
           [congruence|done|vm_compute; reflexivity]
       | H : follows (u "|") _ _ = true |- _ =>
         apply (suffix_pattern_some _ _ _ (@run_pipe)) in H as [m Hm];
           [congruence|done|vm_compute; reflexivity]
       | H : follows (u "-") _ _ = true |- _ =>
         apply (suffix_pattern_some _ _ _ (@run_hyphen)) in H as [m Hm];
           [congruence|done|vm_compute; reflexivity]
       | H : starts_with ?a _ = true |- _ =>
         apply (label_pattern_some a (one_of (u "《〈"))) in H as [m Hm];
           congruence
       | H : last_free _ _ = false |- _ =>
         apply close_pattern_some in H as [m Hm]; congruence
       end.
Qed.

(** C2 (as amended).  Normalizing twice is normalizing once exactly when
    the normal form is settled.  [normalize_title] is idempotent on [x] if
    and only if [normalize_title x] has no "- youtube" in any letter case,
    no "《" that is followed after at least one character by a "》", and no
    bracket, pipe or colon as its first or last character.  [clean_title]
    is idempotent on [x] if and only if [clean_title x] has no pipe
    followed by the channel name and no hyphen followed by the site name
    (directly or after one space), does not start with one of the three
    playlist labels, and does not end with a closing title bracket. *)
Theorem normalization_idempotent_on_settled x :
  (normalize_title (normalize_title x) = normalize_title x
   ↔ is_normal (normalize_title x) = true)
  ∧ (clean_title (clean_title x) = clean_title x
     ↔ is_clean (clean_title x) = true).
Proof.
  destruct (normalize_title_shape x) as (Hspaces & Hedge & Hpipe).
  destruct (clean_title_shape x) as (Hspaces' & Hedge').
  split; split.
  - by apply normalize_title_fixed.
  - by apply normalize_title_settled.
  - by apply clean_title_fixed.
  - by apply clean_title_settled.
Qed.

(** C2, witness: the flagship title, and titles that keep a bracket or
    the channel name where the normalizers do not look for them. *)
Lemma normalization_idempotent_witness :
  normalize_title (normalize_title (u "試玩毛EP06《哈利波腎》｜試當真"))
  = normalize_title (u "試玩毛EP06《哈利波腎》｜試當真")
  ∧ normalize_title (normalize_title (u "大軍《預告"))
    = normalize_title (u "大軍《預告")
  ∧ clean_title (clean_title (u "試玩毛EP06《哈利波腎》｜試當真"))
    = clean_title (u "試玩毛EP06《哈利波腎》｜試當真")
  ∧ clean_title (clean_title (u "試映劇場《大軍》預告"))
    = clean_title (u "試映劇場《大軍》預告")
  ∧ clean_title (clean_title (u "試當真精選"))
    = clean_title (u "試當真精選").
Proof.
  split_and!.
  - refine (proj2 (proj1 (normalization_idempotent_on_settled
                            (u "試玩毛EP06《哈利波腎》｜試當真"))) _).
    vm_compute. reflexivity.
  - refine (proj2 (proj1 (normalization_idempotent_on_settled
                            (u "大軍《預告"))) _).
    vm_compute. reflexivity.
  - refine (proj2 (proj2 (normalization_idempotent_on_settled
                            (u "試玩毛EP06《哈利波腎》｜試當真"))) _).
    vm_compute. reflexivity.
  - refine (proj2 (proj2 (normalization_idempotent_on_settled
                            (u "試映劇場《大軍》預告"))) _).
    vm_compute. reflexivity.
  - refine (proj2 (proj2 (normalization_idempotent_on_settled
                            (u "試當真精選"))) _).
    vm_compute. reflexivity.
Defined.

(** C2, counterexample.  Two spaces before "YouTube" survive the first
    pass of [normalize_title] as one, and the second pass cuts the suffix;
    [clean_title] removes one closing bracket per pass. *)
Lemma normalization_not_idempotent :
  normalize_title (u "哈利波腎 -  YouTube") = u "哈利波腎 - YouTube"
  ∧ normalize_title (normalize_title (u "哈利波腎 -  YouTube")) = u "哈利波腎"
  ∧ clean_title (u "哈利波腎》》") = u "哈利波腎》"
  ∧ clean_title (clean_title (u "哈利波腎》》")) = u "哈利波腎".
Proof. split_and!; vm_compute; reflexivity. Qed.

End FixedPoints.

(** X1, witness: three kinds of space. *)
Lemma normalize_title_blank_witness : normalize_title (u " 　  ") = [].
Proof.
  refine (normalize_title_blank (u " 　  ") _). vm_compute. reflexivity.
Defined.

(** ** Further properties of calculate_similarity *)

Section ScoreOrder.

Lemma fmax_range lo hi a b :
  (lo <= a)%Q → (a <= hi)%Q → (lo <= b)%Q → (b <= hi)%Q →
  (lo <= fmax a b)%Q ∧ (fmax a b <= hi)%Q.
Proof. intros. unfold fmax. by destruct (Qlt_bool a b). Qed.

Lemma fmin_range lo hi a b :
  (lo <= a)%Q → (lo <= b)%Q → (b <= hi)%Q →
  (lo <= fmin a b)%Q ∧ (fmin a b <= hi)%Q.
Proof.
  intros Ha Hb Hbhi. unfold fmin. destruct (Qlt_bool b a) eqn:Hlt; [done|].
  split; [done|]. apply Qlt_bool_false in Hlt.
  apply Qle_bool_iff in Hlt. by apply Qle_trans with b.
Qed.

End ScoreOrder.

Section SimilarityRange.
Import CrossRef.

Context (ratio : ustr → ustr → Q) (lower : ustr → ustr) (is_word : N → bool).

Lemma placeholder_is_short x :
  x ∈ placeholders → (2 <=? length (strip x))%nat = false.
Proof.
  unfold placeholders. rewrite !elem_of_cons, elem_of_nil.
  intros [->|[->|[->|[->|[->|[]]]]]]; vm_compute; reflexivity.
Qed.

Lemma strip_nonempty x : (2 <=? length (strip x))%nat = true → nonempty x = true.
Proof. by destruct x. Qed.

(** X3.  When the ratio of the sequence matcher lies between 0 and 1, so
    does the similarity of any two strings. *)
Theorem similarity_in_unit_range str1 str2 :
  (∀ a b, (0 <= ratio a b)%Q ∧ (ratio a b <= 1)%Q) →
  (0 <= calculate_similarity ratio lower is_word str1 str2)%Q
  ∧ (calculate_similarity ratio lower is_word str1 str2 <= 1)%Q.
Proof.
  intros Hratio. unfold calculate_similarity.
  destruct (negb (nonempty str1) || negb (nonempty str2)); [done|].
  destruct (bool_decide _ || _); [done|].
  destruct (ueqb str1 str2); [done|]. cbv zeta.
  destruct (negb _ || negb _ || _ || _); [done|].
  destruct (ueqb _ _); [done|].
  set (r := ratio _ _).
  destruct (Hratio (lower (normalize_title str1)) (lower (normalize_title str2)))
    as [Hlo Hhi]. fold r in Hlo, Hhi.
  assert (Hboost : (0 <= (if (contains (lower (normalize_title str1))
                                      (lower (normalize_title str2))
                              || contains (lower (normalize_title str2))
                                          (lower (normalize_title str1)))
                             && (3 <=? Nat.min (length (normalize_title str1))
                                               (length (normalize_title str2)))%nat
                          then fmax r 0.8 else r))%Q
                   ∧ ((if (contains (lower (normalize_title str1))
                                    (lower (normalize_title str2))
                           || contains (lower (normalize_title str2))
                                       (lower (normalize_title str1)))
                          && (3 <=? Nat.min (length (normalize_title str1))
                                            (length (normalize_title str2)))%nat
                       then fmax r 0.8 else r) <= 1)%Q).
  { destruct (_ && _); [|done]. by apply fmax_range. }
  destruct Hboost as [Hlo' Hhi'].
  repeat match goal with
         | |- context [if ?b then fmax _ _ else _] => destruct b
         end; try done; by apply fmax_range.
Qed.

(** X4.  A string compared with itself scores 1 when at least two
    characters remain after trimming, and 0 otherwise. *)
Theorem similarity_reflexive x :
  calculate_similarity ratio lower is_word x x
  = if (2 <=? length (strip x))%nat then 1%Q else 0%Q.
Proof.
  unfold calculate_similarity.
  destruct (2 <=? length (strip x))%nat eqn:Hlong.
  - rewrite (strip_nonempty x Hlong). cbn [negb orb].
    replace (bool_decide (x ∈ placeholders)) with false.
    2:{ symmetry. apply bool_decide_eq_false.
        intros Hin%placeholder_is_short. congruence. }
    replace (length (strip x) <? 2)%nat with false.
    2:{ symmetry. apply Nat.ltb_ge. by apply Nat.leb_le. }
    cbn [orb]. unfold ueqb. by rewrite bool_decide_eq_true_2.
  - destruct (negb (nonempty x) || negb (nonempty x)); [done|].
    replace (length (strip x) <? 2)%nat with true.
    2:{ symmetry. apply Nat.ltb_lt. apply Nat.leb_gt in Hlong. lia. }
    by rewrite orb_true_r.
Qed.

End SimilarityRange.

(** X3, witness: with the constant ratio 0. *)
Lemma similarity_in_unit_range_witness :
  (0 <= CrossRef.calculate_similarity Examples.no_ratio id Examples.ascii_digit
          (u "哈利波腎 2") (u "哈利波"))%Q
  ∧ (CrossRef.calculate_similarity Examples.no_ratio id Examples.ascii_digit
       (u "哈利波腎 2") (u "哈利波") <= 1)%Q.
Proof.
  refine (similarity_in_unit_range Examples.no_ratio id Examples.ascii_digit
            (u "哈利波腎 2") (u "哈利波") _).
  intros a b. split; vm_compute; discriminate.
Defined.

(** ** Further properties of find_matches *)

Section SortLength.
Import CrossRef.

Lemma length_insert_desc x l : length (insert_desc x l) = S (length l).
Proof.
  induction l as [|y l IH]; [done|]. cbn [insert_desc].
  destruct (Qlt_bool _ _); cbn [length]; by rewrite ?IH.
Qed.

Lemma length_sort_desc l : length (sort_desc l) = length l.
Proof.
  induction l as [|x l IH]; [done|]. unfold sort_desc in *. cbn [foldr].
  by rewrite length_insert_desc, IH.
Qed.

End SortLength.

Section FindMatchesMore.
Import CrossRef CrossRefRun.

Context (ratio : ustr → ustr → Q) (lower : ustr → ustr) (is_word : N → bool).

Abbreviation consider := (consider ratio lower is_word).
Abbreviation best_matches_of := (best_matches_of ratio lower is_word).
Abbreviation top_matches := (top_matches ratio lower is_word).
Abbreviation find_matches := (find_matches ratio lower is_word).

Implicit Types (film item : gmap string value).
Implicit Types (films other_data : list (gmap string value)).

Lemma consider_well_formed source_name min_confidence film item c :
  c ∈ consider source_name min_confidence film item →
  well_formed source_name min_confidence film item c.
Proof.
  unfold CrossRef.consider.
  destruct (truthy (get item "videoUrl")) eqn:Hurl; cbn [negb];
    [|by intros ?%elem_of_nil].
  destruct (similarities_of _ _ _ _ _ _) as [|first others];
    [by intros ?%elem_of_nil|].
  destruct (max_by_score first others) as [best_sim_type best_sim_score].
  destruct (Qle_bool _ _) eqn:Hmin; [|by intros ?%elem_of_nil].
  intros ->%list_elem_of_singleton. by repeat split.
Qed.

(** The candidates that pass a higher threshold also pass a lower one. *)
Lemma consider_threshold source_name low high film item :
  Qle_bool low high = true →
  consider source_name high film item = []
  ∨ consider source_name high film item = consider source_name low film item.
Proof.
  intros Hle. unfold CrossRef.consider.
  destruct (negb _); [by left|].
  destruct (similarities_of _ _ _ _ _ _) as [|first others]; [by left|].
  destruct (max_by_score first others) as [best_sim_type best_sim_score].
  destruct (Qle_bool high best_sim_score) eqn:Hhigh; [|by left].
  right. replace (Qle_bool low best_sim_score) with true; [done|].
  symmetry. apply Qle_bool_iff.
  apply Qle_trans with high; by apply Qle_bool_iff.
Qed.

Lemma best_matches_threshold_length source_name low high other_data film :
  Qle_bool low high = true →
  length (best_matches_of source_name high other_data film)
  ≤ length (best_matches_of source_name low other_data film).
Proof.
  intros Hle. unfold CrossRef.best_matches_of.
  induction other_data as [|item rest IH]; [done|].
  cbn [flat_map]. rewrite !length_app.
  destruct (consider_threshold source_name low high film item Hle)
    as [->| ->]; cbn [length]; lia.
Qed.

(** X5.  Raising the minimum confidence never makes [find_matches] return
    more candidates. *)
Theorem find_matches_threshold_monotone films other_data source_name low high :
  Qle_bool low high = true →
  length (find_matches films other_data source_name high)
  ≤ length (find_matches films other_data source_name low).
Proof.
  intros Hle. unfold CrossRef.find_matches.
  induction films as [|film rest IH]; [done|].
  cbn [flat_map]. rewrite !length_app.
  assert (length (top_matches source_name high other_data film)
          ≤ length (top_matches source_name low other_data film)); [|lia].
  unfold CrossRef.top_matches. rewrite !length_take, !length_sort_desc.
  pose proof (best_matches_threshold_length source_name low high other_data
                film Hle).
  lia.
Qed.

Lemma top_matches_elem source_name min_confidence other_data film c :
  c ∈ top_matches source_name min_confidence other_data film →
  match_item c ∈ other_data
  ∧ well_formed source_name min_confidence film (match_item c) c.
Proof.
  unfold CrossRef.top_matches.
  intros (i & Hc%list_elem_of_lookup_2 & _)%elem_of_take.
  apply (proj1 (elem_of_sort_desc _ _)) in Hc.
  unfold CrossRef.best_matches_of in Hc.
  apply list_elem_of_In, in_flat_map in Hc as (item & Hitem & Hc).
  apply list_elem_of_In in Hitem, Hc.
  apply consider_well_formed in Hc.
  pose proof Hc as (_ & <- & _). done.
Qed.

(** X6.  Every candidate of [find_matches] pairs one of the given films
    with an item of the pool that has a link; it proposes that link, names
    the source searched, and has at least the minimum confidence. *)
Theorem find_matches_candidates films other_data source_name min_confidence c :
  c ∈ find_matches films other_data source_name min_confidence →
  CrossRef.film c ∈ films
  ∧ match_item c ∈ other_data
  ∧ well_formed source_name min_confidence (CrossRef.film c) (match_item c) c.
Proof.
  unfold CrossRef.find_matches.
  intros (film & Hfilm & Hc)%list_elem_of_In%in_flat_map.
  apply list_elem_of_In in Hfilm, Hc.
  apply top_matches_elem in Hc as [Hitem Hwell].
  pose proof Hwell as (Hsame & _). rewrite Hsame. done.
Qed.

End FindMatchesMore.

Section FindMatchesExamples.
Import CrossRef CrossRefRun Examples MoreExamples.

(** X5, witness: one film against a pool of an exact and a partial match;
    two candidates at 0.6, one at 0.9. *)
Lemma find_matches_threshold_monotone_witness :
  length (find_matches no_ratio id ascii_digit [film_2020]
                       [linked_film; spin_off] "ads" 0.9)
  ≤ length (find_matches no_ratio id ascii_digit [film_2020]
                         [linked_film; spin_off] "ads" 0.6).
Proof.
  refine (find_matches_threshold_monotone no_ratio id ascii_digit [film_2020]
            [linked_film; spin_off] "ads" 0.6 0.9 _).
  vm_compute. reflexivity.
Defined.

(** X6, witness: the candidate for the exact match. *)
Lemma find_matches_candidates_witness :
  film exact_candidate ∈ [film_2020]
  ∧ match_item exact_candidate ∈ [linked_film; spin_off]
  ∧ well_formed "ads" 0.6 (film exact_candidate) (match_item exact_candidate)
                exact_candidate.
Proof.
  refine (find_matches_candidates no_ratio id ascii_digit [film_2020]
            [linked_film; spin_off] "ads" 0.6 exact_candidate _).
  vm_compute. constructor.
Defined.

End FindMatchesExamples.

(** ** Further properties of find_best_match and match_videos_to_json *)

Section ScoreOrderBool.

Lemma Qle_bool_trans a b c :
  Qle_bool a b = true → Qle_bool b c = true → Qle_bool a c = true.
Proof.
  rewrite !Qle_bool_iff. intros Hab Hbc. by apply Qle_trans with b.
Qed.

Lemma Qle_bool_refl a : Qle_bool a a = true.
Proof. apply Qle_bool_iff, Qle_refl. Qed.

Lemma Qlt_bool_above a b c :
  Qle_bool a b = true → Qlt_bool b c = true → Qlt_bool a c = true.
Proof.
  unfold Qlt_bool. rewrite !negb_true_iff. intros Hab Hcb.
  apply not_true_is_false. intros Hca.
  assert (Qle_bool c b = true) by by apply Qle_bool_trans with a.
  congruence.
Qed.

End ScoreOrderBool.

Section BestMatchFacts.
Import Matching MatchingSpec.

Context (fuzz_ratio fuzz_token_sort_ratio fuzz_partial_ratio : ustr → ustr → Q).
Context (is_digit : N → bool) (min_confidence : Q).

Abbreviation calculate_match_score :=
  (calculate_match_score fuzz_ratio fuzz_token_sort_ratio fuzz_partial_ratio
                         is_digit).
Abbreviation best_step :=
  (best_step fuzz_ratio fuzz_token_sort_ratio fuzz_partial_ratio is_digit
             min_confidence).
Abbreviation find_best_match :=
  (find_best_match fuzz_ratio fuzz_token_sort_ratio fuzz_partial_ratio is_digit
                   min_confidence).
Abbreviation match_video :=
  (match_video fuzz_ratio fuzz_token_sort_ratio fuzz_partial_ratio is_digit
               min_confidence).
Abbreviation match_videos_to_json :=
  (match_videos_to_json fuzz_ratio fuzz_token_sort_ratio fuzz_partial_ratio
                        is_digit min_confidence).
Abbreviation boosted_score :=
  (boosted_score fuzz_ratio fuzz_token_sort_ratio fuzz_partial_ratio is_digit).
Abbreviation best_among :=
  (best_among fuzz_ratio fuzz_token_sort_ratio fuzz_partial_ratio is_digit
              min_confidence).

Implicit Types (video entry : gmap string value).
Implicit Types (json_entries seen : list (gmap string value)).
Implicit Types (best : option (gmap string value) * Q).

Lemma best_step_cases video best entry :
  best_step video best entry =
  if passed_over video entry then best
  else if Qlt_bool best.2 (boosted_score video entry)
          && Qle_bool min_confidence (boosted_score video entry)
       then (Some entry, boosted_score video entry)
       else best.
Proof. done. Qed.

Lemma best_among_weaken video seen entry best :
  best_among video seen best →
  (passed_over video entry = false →
   Qle_bool min_confidence (boosted_score video entry) = true →
   Qle_bool (boosted_score video entry) best.2 = true) →
  best_among video (seen ++ [entry]) best.
Proof.
  intros (Hpos & Hmax & Hbest) Hentry. split_and!; [done| |].
  - intros e [He| ->%list_elem_of_singleton]%elem_of_app; [by apply Hmax|done].
  - destruct best.1; [|done]. destruct Hbest as (Hin & Hrest).
    split; [|done]. apply elem_of_app. by left.
Qed.

Lemma best_step_among video seen best entry :
  best_among video seen best →
  best_among video (seen ++ [entry]) (best_step video best entry).
Proof.
  intros Hbest. rewrite best_step_cases.
  destruct (passed_over video entry) eqn:Hpassed.
  { apply best_among_weaken; [done|]. congruence. }
  destruct (Qlt_bool best.2 (boosted_score video entry)) eqn:Hlt; cbn [andb].
  2:{ destruct (Qle_bool min_confidence (boosted_score video entry));
        (apply best_among_weaken; [done|]);
        intros _ _; by apply Qlt_bool_false. }
  destruct (Qle_bool min_confidence (boosted_score video entry)) eqn:Hmin.
  2:{ apply best_among_weaken; [done|]. congruence. }
  destruct Hbest as (Hpos & Hmax & _).
  assert (Qlt_bool 0 (boosted_score video entry) = true) as Hpositive
    by by eapply Qlt_bool_above.
  split_and!; cbn [fst snd].
  - by apply Qlt_bool_true.
  - intros e [He| ->%list_elem_of_singleton]%elem_of_app Hpass Hmine.
    + apply Qle_bool_trans with best.2; [by apply Hmax|].
      by apply Qlt_bool_true.
    + apply Qle_bool_refl.
  - split_and!; try done. apply elem_of_app. right. by apply list_elem_of_singleton.
Qed.

Lemma fold_best_among video json_entries : ∀ seen best,
  best_among video seen best →
  best_among video (seen ++ json_entries)
             (fold_left (best_step video) json_entries best).
Proof.
  induction json_entries as [|entry rest IH]; intros seen best Hbest;
    cbn [fold_left].
  - by rewrite app_nil_r.
  - rewrite (assoc_L (++) seen [entry] rest : seen ++ entry :: rest = _).
    apply IH. by apply best_step_among.
Qed.

Lemma find_best_match_among video json_entries :
  best_among video json_entries (find_best_match video json_entries).
Proof.
  apply (fold_best_among video json_entries [] (None, 0%Q)).
  split_and!; [done| |done]. by intros e ?%elem_of_nil.
Qed.

(** X7.  [find_best_match] returns the highest score: no entry that is not
    passed over and reaches the minimum confidence scores more than the
    score returned.  The entry returned is one of the entries given, is
    not passed over, has exactly the score returned, and that score is
    positive and at least the minimum confidence; when no entry is
    returned the score is 0. *)
Theorem find_best_match_maximal video json_entries :
  (∀ entry, entry ∈ json_entries → passed_over video entry = false →
     Qle_bool min_confidence (boosted_score video entry) = true →
     Qle_bool (boosted_score video entry)
              (find_best_match video json_entries).2 = true)
  ∧ match (find_best_match video json_entries).1 with
    | Some entry =>
      entry ∈ json_entries
      ∧ passed_over video entry = false
      ∧ (find_best_match video json_entries).2 = boosted_score video entry
      ∧ Qle_bool min_confidence (find_best_match video json_entries).2 = true
      ∧ Qlt_bool 0 (find_best_match video json_entries).2 = true
    | None => (find_best_match video json_entries).2 = 0%Q
    end.
Proof.
  by destruct (find_best_match_among video json_entries) as (_ & Hmax & Hbest).
Qed.

Lemma match_video_cases json_entries video :
  match_video json_entries video = []
  ∨ ∃ entry,
      (find_best_match video json_entries).1 = Some entry
      ∧ entry ≠ ∅
      ∧ match_video json_entries video
        = [ {| Matching.video := video;
               json_entry := entry;
               confidence := (find_best_match video json_entries).2;
               video_url := get_or_empty video "url";
               match_type :=
                 if Qle_bool 90 (find_best_match video json_entries).2
                 then "automatic" else "fuzzy" |} ].
Proof.
  unfold Matching.match_video.
  destruct (find_best_match video json_entries) as [[entry|] score];
    [|by left].
  case_bool_decide; [by left|]. right. by exists entry.
Qed.

(** X9.  [match_videos_to_json] returns at most one match per video.  Every
    match pairs one of the videos with one of the entries, never the empty
    entry; it proposes the url of its video, carries the score of the pair,
    which is at least the minimum confidence, and is called automatic
    exactly when that score is at least 90. *)
Theorem match_videos_to_json_matches videos json_entries :
  length (match_videos_to_json videos json_entries) ≤ length videos
  ∧ Forall (λ m,
      Matching.video m ∈ videos
      ∧ json_entry m ∈ json_entries
      ∧ json_entry m ≠ ∅
      ∧ video_url m = get_or_empty (Matching.video m) "url"
      ∧ confidence m = boosted_score (Matching.video m) (json_entry m)
      ∧ Qle_bool min_confidence (confidence m) = true
      ∧ match_type m = (if Qle_bool 90 (confidence m)
                        then "automatic" else "fuzzy"))
      (match_videos_to_json videos json_entries).
Proof.
  unfold Matching.match_videos_to_json.
  induction videos as [|video rest [IHlen IHall]]; [by split|].
  cbn [flat_map]. rewrite length_app, Forall_app.
  assert (Hrest : Forall (λ m,
      Matching.video m ∈ video :: rest
      ∧ json_entry m ∈ json_entries
      ∧ json_entry m ≠ ∅
      ∧ video_url m = get_or_empty (Matching.video m) "url"
      ∧ confidence m = boosted_score (Matching.video m) (json_entry m)
      ∧ Qle_bool min_confidence (confidence m) = true
      ∧ match_type m = (if Qle_bool 90 (confidence m)
                        then "automatic" else "fuzzy"))
      (flat_map (match_video json_entries) rest)).
  { eapply Forall_impl; [done|]. intros m (? & ?). split; [|done].
    by apply list_elem_of_further. }
  destruct (match_video_cases json_entries video)
    as [->|(entry & Hentry & Hnonempty & ->)].
  - split; [cbn [length]; lia|]. by split.
  - split; [cbn [length]; lia|]. split; [|done].
    apply Forall_singleton. cbn.
    pose proof (find_best_match_among video json_entries)
      as (_ & _ & Hbest).
    rewrite Hentry in Hbest. destruct Hbest as (Hin & _ & Hscore & Hmin & _).
    split_and!; try done. apply list_elem_of_here.
Qed.

End BestMatchFacts.

Section MatchScoreRange.
Import Matching MatchingSpec.

Context (fuzz_ratio fuzz_token_sort_ratio fuzz_partial_ratio : ustr → ustr → Q).
Context (is_digit : N → bool) (min_confidence : Q).

Lemma max_list_percent first others :
  percent first → Forall percent others → percent (max_list first others).
Proof.
  unfold max_list. revert first.
  induction others as [|x others IH]; intros first Hfirst Hothers; [done|].
  apply Forall_cons in Hothers as [Hx Hothers]. cbn [fold_left].
  apply IH; [|done]. destruct Hfirst, Hx. by apply fmax_range.
Qed.

Lemma optional_percent (b : bool) q : percent q → Forall percent (if b then [q] else []).
Proof. destruct b; [by apply Forall_singleton|constructor]. Qed.

(** X8.  When the three fuzzy ratios lie between 0 and 100, so does the
    match score of any three titles, and the score [find_best_match]
    returns lies between 0 and 105. *)
Theorem match_score_range video_title json_title json_full_title video
    json_entries :
  (∀ a b, percent (fuzz_ratio a b)) →
  (∀ a b, percent (fuzz_token_sort_ratio a b)) →
  (∀ a b, percent (fuzz_partial_ratio a b)) →
  percent (calculate_match_score fuzz_ratio fuzz_token_sort_ratio
             fuzz_partial_ratio is_digit video_title json_title
             json_full_title)
  ∧ (0 <= (find_best_match fuzz_ratio fuzz_token_sort_ratio
             fuzz_partial_ratio is_digit min_confidence video
             json_entries).2)%Q
  ∧ ((find_best_match fuzz_ratio fuzz_token_sort_ratio fuzz_partial_ratio
        is_digit min_confidence video json_entries).2 <= 105)%Q.
Proof.
  intros Hratio Htoken Hpartial.
  assert (Hscore : ∀ v j f,
    percent (calculate_match_score fuzz_ratio fuzz_token_sort_ratio
               fuzz_partial_ratio is_digit v j f)).
  { intros v j f. unfold calculate_match_score.
    destruct (_ || _); [by split|]. cbv zeta.
    assert (percent 95%Q) as H95 by by split.
    match goal with
    | |- percent (match ?scores with _ => _ end) =>
      assert (Forall percent scores) as Hall
    end.
    { repeat apply Forall_app_2;
        try apply optional_percent; try (by apply Forall_singleton);
        try done.
      destruct (extract_episode_info is_digit (clean_title v))
        as [video_base [video_ep|]];
        destruct (extract_episode_info is_digit (clean_title j))
          as [json_base [json_ep|]]; try constructor.
      destruct (_ && _); [|constructor]. apply Forall_singleton.
      destruct (Hratio video_base json_base) as [Hlo Hhi].
      apply fmin_range; [|done..].
      apply Qle_trans with (fuzz_ratio video_base json_base); [done|].
      rewrite <- (Qplus_0_r (fuzz_ratio video_base json_base)) at 1.
      by apply Qplus_le_r. }
    destruct Hall as [|first others Hfirst Hothers]; [by split|].
    by apply max_list_percent. }
  split; [apply Hscore|].
  pose proof (find_best_match_among fuzz_ratio fuzz_token_sort_ratio
                fuzz_partial_ratio is_digit min_confidence video json_entries)
    as (Hpos & _ & Hbest).
  split; [by apply Qle_bool_iff|].
  destruct (find_best_match _ _ _ _ _ _ _).1 as [entry|].
  - destruct Hbest as (_ & _ & -> & _). unfold boosted_score.
    unfold is_playlist_appropriate.
    destruct (Hscore (text (get_or_empty video "title"))
                     (text (get_or_empty entry "title"))
                     (text (get_or_empty entry "fullTitle"))) as [_ Hhi].
    replace 105%Q with (100 + 5)%Q by done.
    by apply Qplus_le_l.
  - by rewrite Hbest.
Qed.

End MatchScoreRange.

(** X8, witness: with the constant ratio 0. *)
Lemma match_score_range_witness :
  MatchingSpec.percent (Matching.calculate_match_score Examples.no_ratio Examples.no_ratio
             Examples.no_ratio Examples.ascii_digit
             (u "試玩毛EP06《哈利波腎》｜試當真") (u "試玩毛EP07《大軍》") [])
  ∧ (0 <= (Matching.find_best_match Examples.no_ratio Examples.no_ratio
             Examples.no_ratio Examples.ascii_digit 70 Examples.video_hp
             [Examples.record42]).2)%Q
  ∧ ((Matching.find_best_match Examples.no_ratio Examples.no_ratio
        Examples.no_ratio Examples.ascii_digit 70 Examples.video_hp
        [Examples.record42]).2 <= 105)%Q.
Proof.
  refine (match_score_range Examples.no_ratio Examples.no_ratio
            Examples.no_ratio Examples.ascii_digit 70 _ _ _ _ _ _ _ _);
    intros a b; split; vm_compute; discriminate.
Defined.

(** ** Further properties of the merge loop of json_updater.py *)

Section UpdaterMore.
Import Matching Updater UpdaterSpec.

Implicit Types (data : list (gmap string value)) (m : match_info).
Implicit Types (matches : list match_info) (entry e : gmap string value).

(** A merge step leaves the data alone and counts nothing, or sets the
    link of one record and counts one update. *)
Lemma merge_match_cases data m :
  (data_of (merge_match data m) = data ∧ updates_made (merge_match data m) = 0)
  ∨ ∃ i e,
      data !! i = Some e
      ∧ data_of (merge_match data m)
        = <[i := <["videoUrl" := video_url m]> e]> data
      ∧ updates_made (merge_match data m) = 1.
Proof.
  rewrite merge_match_locate. destruct (by_identity m).
  - rewrite by_id_find.
    destruct (list_find _ data) as [[i e]|] eqn:Hfind; [|by left].
    apply list_find_Some in Hfind as (Hi & _). cbv zeta.
    destruct (_ || _); [right|by left]. by exists i, e.
  - rewrite by_title_find.
    destruct (list_find _ data) as [[i e]|] eqn:Hfind; [|by left].
    apply list_find_Some in Hfind as (Hi & _).
    destruct (_ || _); [right|by left]. by exists i, e.
Qed.

Lemma apply_matches_cons data m matches :
  apply_matches data (m :: matches) =
  (data_of (apply_matches (data_of (merge_match data m)) matches),
   updates_made (merge_match data m)
   + updates_made (apply_matches (data_of (merge_match data m)) matches),
   log_of (merge_match data m)
   ++ log_of (apply_matches (data_of (merge_match data m)) matches)).
Proof.
  cbn [apply_matches]. destruct (merge_match data m) as [[data1 n1] log1].
  cbn [data_of fst]. by destruct (apply_matches data1 matches) as [[? ?] ?].
Qed.

Lemma relinked_refl matches e : relinked matches e e.
Proof. split; [done|by left]. Qed.

Lemma relinked_trans matches e1 e2 e3 :
  relinked matches e1 e2 → relinked matches e2 e3 → relinked matches e1 e3.
Proof.
  intros [Hframe12 Hlink12] [Hframe23 Hlink23]. split.
  - intros k Hk. by rewrite Hframe23, Hframe12.
  - destruct Hlink23 as [->|Hnew]; [done|by right].
Qed.

Lemma relinked_more m matches e e' :
  relinked matches e e' → relinked (m :: matches) e e'.
Proof.
  intros [Hframe [->|(m' & Hm' & Hurl)]]; split; try done; [by left|].
  right. exists m'. split; [by apply list_elem_of_further|done].
Qed.

Lemma Forall2_relinked_refl matches data : Forall2 (relinked matches) data data.
Proof. induction data; constructor; auto using relinked_refl. Qed.

Lemma merge_match_relinked data m matches :
  Forall2 (relinked (m :: matches)) data (data_of (merge_match data m)).
Proof.
  destruct (merge_match_cases data m) as [[-> _]|(i & e & Hi & -> & _)].
  - apply Forall2_relinked_refl.
  - rewrite <- (list_insert_id data i e) at 1 by done.
    apply Forall2_insert; [apply Forall2_relinked_refl|]. split.
    + intros k Hk. by rewrite lookup_insert_ne.
    + right. exists m. split; [apply list_elem_of_here|].
      by rewrite lookup_insert_eq.
Qed.

(** X10.  The merge loop neither adds, removes nor reorders records.  In
    every record all fields but [videoUrl] are as before, and a record that
    changed carries the URL of one of the matches. *)
Theorem apply_matches_frame data matches :
  Forall2 (relinked matches) data (data_of (apply_matches data matches)).
Proof.
  revert data. induction matches as [|m matches IH]; intros data.
  - apply Forall2_relinked_refl.
  - rewrite apply_matches_cons. cbn [data_of fst].
    eapply Forall2_trans; [apply relinked_trans|apply merge_match_relinked|].
    eapply Forall2_impl; [apply IH|]. apply relinked_more.
Qed.

(** X11.  The merge loop counts at most one update per match, and when it
    counts none the data is unchanged. *)
Theorem apply_matches_count data matches :
  updates_made (apply_matches data matches) ≤ length matches
  ∧ (updates_made (apply_matches data matches) = 0 →
     data_of (apply_matches data matches) = data).
Proof.
  revert data. induction matches as [|m matches IH]; intros data;
    [by split|].
  rewrite apply_matches_cons. cbn [data_of updates_made fst snd length].
  destruct (IH (data_of (merge_match data m))) as [IHle IHzero].
  destruct (merge_match_cases data m) as [[Hsame Hnone]|(i & e & _ & _ & Hone)].
  - rewrite Hnone. split; [lia|]. intros Hzero.
    rewrite IHzero by done. done.
  - rewrite Hone. split; [lia|]. lia.
Qed.

Lemma linked_count_cons e data :
  linked_count (e :: data)
  = (if truthy (get e "videoUrl") then 1 else 0) + linked_count data.
Proof. done. Qed.

Lemma linked_count_insert data i e video_url :
  data !! i = Some e → truthy video_url = true →
  linked_count (<[i := <["videoUrl" := video_url]> e]> data)
  = linked_count data + (if truthy (get e "videoUrl") then 0 else 1).
Proof.
  intros Hi Hurl.
  revert i Hi. induction data as [|d data IH]; intros [|i] Hi; try done.
  - injection Hi as ->.
    change (<[0 := <["videoUrl" := video_url]> e]> (e :: data))
      with (<["videoUrl" := video_url]> e :: data).
    rewrite !linked_count_cons, get_update_videoUrl, Hurl.
    destruct (truthy (get e "videoUrl")); lia.
  - change (<[S i := <["videoUrl" := video_url]> e]> (d :: data))
      with (d :: <[i := <["videoUrl" := video_url]> e]> data).
    rewrite !linked_count_cons. rewrite (IH i) by done. lia.
Qed.

(** X13.  When every match proposes a non-empty URL, the merge loop never
    reduces the number of records with a link, and raises it by at most
    the number of updates it counts. *)
Theorem apply_matches_linked_count data matches :
  Forall (λ m, truthy (video_url m) = true) matches →
  linked_count data ≤ linked_count (data_of (apply_matches data matches))
  ∧ linked_count (data_of (apply_matches data matches))
    ≤ linked_count data + updates_made (apply_matches data matches).
Proof.
  intros Hurls. revert data.
  induction Hurls as [|m matches Hm _ IH]; intros data.
  { cbn [apply_matches data_of updates_made fst snd]. lia. }
  rewrite apply_matches_cons. cbn [data_of updates_made fst snd].
  specialize (IH (data_of (merge_match data m))).
  destruct (merge_match_cases data m) as [[Hsame ->]|(i & e & Hi & Hnew & ->)].
  - rewrite Hsame in IH |- *. lia.
  - rewrite Hnew in IH |- *.
    rewrite (linked_count_insert data i e) in IH by done.
    destruct (truthy (get e "videoUrl")); lia.
Qed.

Lemma validate_nil_iff data :
  Stats.validate_video_urls data = []
  ↔ Forall (λ entry, valid_link (get entry "videoUrl")) data.
Proof.
  unfold Stats.validate_video_urls, valid_link.
  induction data as [|entry data IH]; cbn [flat_map]; [by split|].
  rewrite Forall_cons, <- IH.
  destruct (truthy (get entry "videoUrl")); cbn [andb].
  - destruct (starts_with _ _); cbn [negb app].
    + split; [by intros ->|by intros [_ ->]].
    + split; [done|]. intros [Hno _]. by specialize (Hno eq_refl).
  - cbn [app]. split; [by intros ->|by intros [_ ->]].
Qed.

(** X14.  When [validate_video_urls] reports nothing on the data and every
    match proposes a URL it would accept, it reports nothing on the data
    the merge loop returns. *)
Theorem apply_matches_keeps_valid data matches :
  Stats.validate_video_urls data = [] →
  Forall (λ m, valid_link (video_url m)) matches →
  Stats.validate_video_urls (data_of (apply_matches data matches)) = [].
Proof.
  intros Hvalid Hurls. revert data Hvalid.
  induction Hurls as [|m matches Hm _ IH]; intros data Hvalid; [done|].
  rewrite apply_matches_cons. cbn [data_of fst]. apply IH.
  destruct (merge_match_cases data m) as [[-> _]|(i & e & Hi & -> & _)];
    [done|].
  apply validate_nil_iff. apply validate_nil_iff in Hvalid.
  apply Forall_insert; [done|].
  unfold get. by rewrite lookup_insert_eq.
Qed.

End UpdaterMore.

Section UpdaterMoreExamples.
Import Matching Updater UpdaterSpec Examples.

(** X13, witness: the record with id 42 and a match for it. *)
Lemma apply_matches_linked_count_witness :
  linked_count [record42]
  ≤ linked_count (data_of (apply_matches [record42] [match42 80]))
  ∧ linked_count (data_of (apply_matches [record42] [match42 80]))
    ≤ linked_count [record42]
      + updates_made (apply_matches [record42] [match42 80]).
Proof.
  refine (apply_matches_linked_count [record42] [match42 80] _).
  constructor; [vm_compute; reflexivity|constructor].
Defined.

(** X14, witness: the same batch; its URL is a watch URL. *)
Lemma apply_matches_keeps_valid_witness :
  Stats.validate_video_urls (data_of (apply_matches [record42] [match42 80]))
  = [].
Proof.
  refine (apply_matches_keeps_valid [record42] [match42 80] _ _).
  - vm_compute. reflexivity.
  - constructor; [|constructor]. intros _. vm_compute. reflexivity.
Defined.

End UpdaterMoreExamples.

(** ** get_file_statistics *)

Section StatsFacts.
Import Stats.

Lemma count_if_le p data : count_if p data ≤ length data.
Proof.
  induction data as [|entry data IH]; [done|]. cbn.
  destruct (p entry); lia.
Qed.

Lemma coverage_range (linked total : nat) :
  linked ≤ total → 0 < total →
  (0 <= inject_Z (Z.of_nat linked) / inject_Z (Z.of_nat total) * 100)%Q
  ∧ (inject_Z (Z.of_nat linked) / inject_Z (Z.of_nat total) * 100 <= 100)%Q.
Proof.
  intros Hle Hpos.
  assert (0 < inject_Z (Z.of_nat total))%Q as Htotal.
  { rewrite <- (Zlt_Qlt 0). lia. }
  assert (0 <= inject_Z (Z.of_nat linked))%Q as Hlinked.
  { rewrite <- (Zle_Qle 0). lia. }
  assert (inject_Z (Z.of_nat linked) <= inject_Z (Z.of_nat total))%Q as Hle'.
  { rewrite <- Zle_Qle. lia. }
  assert (0 <= inject_Z (Z.of_nat linked) / inject_Z (Z.of_nat total))%Q
    as Hlo.
  { apply Qle_shift_div_l; [done|]. by rewrite Qmult_0_l. }
  assert (inject_Z (Z.of_nat linked) / inject_Z (Z.of_nat total) <= 1)%Q
    as Hhi.
  { apply Qle_shift_div_r; [done|]. by rewrite Qmult_1_l. }
  split.
  - apply Qmult_le_0_compat; [done|]. discriminate.
  - rewrite <- (Qmult_1_l 100) at 2. apply Qmult_le_compat_r; [done|].
    discriminate.
Qed.

(** X12.  In the statistics of a file the entries with and without a link
    add up to the total, which is the length of the data; neither count is
    negative, and the coverage lies between 0 and 100 (0 for an empty
    file). *)
Theorem file_statistics_consistent filename data :
  total_entries (get_file_statistics filename data) = length data
  ∧ (Z.of_nat (entries_with_urls (get_file_statistics filename data))
     + entries_without_urls (get_file_statistics filename data)
     = Z.of_nat (total_entries (get_file_statistics filename data)))%Z
  ∧ (0 <= entries_without_urls (get_file_statistics filename data))%Z
  ∧ (0 <= url_coverage (get_file_statistics filename data))%Q
  ∧ (url_coverage (get_file_statistics filename data) <= 100)%Q
  ∧ (data = [] → url_coverage (get_file_statistics filename data) = 0%Q).
Proof.
  unfold get_file_statistics.
  cbn [total_entries entries_with_urls entries_without_urls url_coverage].
  set (linked := match data with
                 | Object _ :: _ => count_if has_url data
                 | _ => 0
                 end).
  assert (linked ≤ length data) as Hle.
  { subst linked. destruct data as [|[d|t] data]; try lia.
    apply count_if_le. }
  split_and!; [done|lia|lia|..].
  - destruct (0 <? length data)%nat eqn:Hpos; [|done].
    apply coverage_range; [done|]. by apply Nat.ltb_lt.
  - destruct (0 <? length data)%nat eqn:Hpos; [|done].
    apply coverage_range; [done|]. by apply Nat.ltb_lt.
  - by intros ->.
Qed.

End StatsFacts.

(** ** The confidence counts of the report *)

Section ReportFacts.
Import Matching Report.

(** X15.  The high, medium and low counts of the report of a file add up
    to the number of its matches. *)
Theorem report_counts_partition matches :
  high_confidence_matches matches + medium_confidence_matches matches
  + low_confidence_matches matches = length matches.
Proof.
  unfold high_confidence_matches, medium_confidence_matches,
    low_confidence_matches.
  induction matches as [|m matches IH]; [done|].
  rewrite !filter_cons. cbn [length]. rewrite <- IH. clear IH.
  unfold Qlt_bool.
  destruct (Qle_bool 90 (confidence m)) eqn:H90.
  - assert (Qle_bool 75 (confidence m) = true) as H75.
    { apply Qle_bool_trans with 90%Q; done. }
    rewrite H75. cbn [andb negb].
    repeat case_decide; try done; cbn [length]; lia.
  - destruct (Qle_bool 75 (confidence m)) eqn:H75.
    + cbn [andb negb].
      assert (Qle_bool (confidence m) 90 = true) as Hle.
      { apply Qle_bool_iff, Qlt_le_weak, Qnot_le_lt. intros Hge.
        apply Qle_bool_iff in Hge. congruence. }
      assert (Qle_bool 90 (confidence m) = false) as Hlt by done.
      repeat case_decide; try done; cbn [length]; try lia.
    + cbn [andb negb].
      repeat case_decide; try done; cbn [length]; try lia.
Qed.

End ReportFacts.

(** ** Further properties of apply_updates *)

Section ApplyUpdatesMore.
Import ApplyUpdates ApplyUpdatesSpec UpdaterSpec.

Implicit Types (films : list (gmap string value)) (film : gmap string value).
Implicit Types (matches : list xref_match).

Lemma linked_by_refl matches min_confidence films :
  Forall2 (linked_by matches min_confidence) films films.
Proof. induction films; constructor; auto. by left. Qed.

(** The loop over matches that all reach the minimum confidence and
    propose a non-empty URL. *)
Lemma update_all_linked_by min_confidence matches : ∀ films,
  Forall (λ m, Qle_bool min_confidence (confidence m) = true
               ∧ truthy (video_url m) = true) matches →
  Forall2 (linked_by matches min_confidence) films (update_all films matches).1
  ∧ linked_count (update_all films matches).1
    = linked_count films + (update_all films matches).2.
Proof.
  induction matches as [|m matches IH]; intros films Hall.
  { split; [apply linked_by_refl|]. cbn [update_all fst snd]. lia. }
  apply Forall_cons in Hall as [[Hmin Hurl] Hall].
  cbn [update_all]. rewrite update_first_find.
  destruct (list_find _ films) as [[i film]|] eqn:Hfind.
  - apply list_find_Some in Hfind as (Hi & Hawaits & _).
    destruct (IH (<[i := <["videoUrl" := video_url m]> film]> films) Hall)
      as [IHrel IHcount].
    destruct (update_all _ matches) as [films2 n2]. cbn [fst snd] in *.
    split.
    + eapply Forall2_trans; [| |exact IHrel].
      2:{ rewrite <- (list_insert_id films i film) at 1 by done.
          apply Forall2_insert.
          - apply (linked_by_refl [m] min_confidence).
          - right. exists m. split_and!; [apply list_elem_of_here|done..]. }
      intros f f1 f2 [->|(m1 & ->%list_elem_of_singleton & _ & Hf & ->)].
      * intros [->|(m2 & Hm2 & Hrest)]; [by left|].
        right. exists m2. split; [by apply list_elem_of_further|done].
      * intros [->|(m2 & _ & _ & [_ Hunlinked] & _)].
        { right. exists m. split_and!; [apply list_elem_of_here|done..]. }
        rewrite get_update_videoUrl in Hunlinked. congruence.
    + rewrite IHcount, linked_count_insert by done.
      destruct Hawaits as [_ ->]. lia.
  - destruct (IH films Hall) as [IHrel IHcount].
    destruct (update_all films matches) as [films2 n2]. cbn [fst snd] in *.
    split; [|lia].
    eapply Forall2_impl; [done|].
    intros f f2 [->|(m2 & Hm2 & Hrest)]; [by left|].
    right. exists m2. split; [by apply list_elem_of_further|done].
Qed.

(** X16.  When every match proposes a non-empty URL, [apply_updates]
    leaves each film as it is or links it, the film having had no link,
    with the URL of a match that reaches the minimum confidence and names
    the film's title.  The number of films with a link grows by exactly
    the number of updates returned. *)
Theorem apply_updates_accounting films all_matches min_confidence :
  Forall (λ m, truthy (video_url m) = true) all_matches →
  Forall2 (linked_by all_matches min_confidence) films
          (apply_updates films all_matches min_confidence).1
  ∧ linked_count (apply_updates films all_matches min_confidence).1
    = linked_count films + (apply_updates films all_matches min_confidence).2.
Proof.
  intros Hurls. unfold apply_updates.
  set (high := filter _ all_matches).
  destruct (update_all_linked_by min_confidence high films) as [Hrel Hcount].
  { apply Forall_forall. intros m [Hmin Hm]%list_elem_of_filter.
    split; [done|]. by eapply Forall_forall in Hurls. }
  split; [|done].
  eapply Forall2_impl; [done|].
  intros f f' [->|(m & [_ Hm]%list_elem_of_filter & Hrest)]; [by left|].
  right. by exists m.
Qed.

End ApplyUpdatesMore.

Section ApplyUpdatesMoreExamples.
Import ApplyUpdates ApplyUpdatesSpec UpdaterSpec Examples MoreExamples.

(** X16, witness: two films of one title and one match for that title. *)
Lemma apply_updates_accounting_witness :
  Forall2 (linked_by [result_hp] 0.9) [film_2020; film_2021]
          (apply_updates [film_2020; film_2021] [result_hp] 0.9).1
  ∧ linked_count (apply_updates [film_2020; film_2021] [result_hp] 0.9).1
    = linked_count [film_2020; film_2021]
      + (apply_updates [film_2020; film_2021] [result_hp] 0.9).2.
Proof.
  refine (apply_updates_accounting [film_2020; film_2021] [result_hp] 0.9 _).
  constructor; [vm_compute; reflexivity|constructor].
Defined.

End ApplyUpdatesMoreExamples.

(** ** The run of cross_reference_films.py and its application *)

Section CrossRefRunFacts.
Import CrossRef CrossRefRun ApplyUpdatesSpec UpdaterSpec.

Context (ratio : ustr → ustr → Q) (lower : ustr → ustr) (is_word : N → bool).

Abbreviation all_matches := (all_matches ratio lower is_word).

Implicit Types (films ads variety_shows audition_films songs
                : list (gmap string value)).

Lemma find_matches_without_url films other_data source_name c :
  c ∈ find_matches ratio lower is_word (films_without_url films) other_data
                   source_name 0.6 →
  film c ∈ films
  ∧ truthy (get (film c) "videoUrl") = false
  ∧ match_item c ∈ other_data
  ∧ well_formed source_name 0.6 (film c) (match_item c) c.
Proof.
  unfold find_matches.
  intros (film & Hfilm & Hc)%list_elem_of_In%in_flat_map.
  apply list_elem_of_In in Hfilm, Hc.
  apply top_matches_elem in Hc as [Hitem Hwell].
  pose proof Hwell as (-> & _).
  apply list_elem_of_filter in Hfilm as [Hunlinked Hfilm]. done.
Qed.

Lemma all_matches_elem films ads variety_shows audition_films songs c :
  c ∈ all_matches films ads variety_shows audition_films songs →
  film c ∈ films
  ∧ truthy (get (film c) "videoUrl") = false
  ∧ match_item c ∈ ads ++ variety_shows ++ audition_films ++ songs
  ∧ ∃ source_name, well_formed source_name 0.6 (film c) (match_item c) c.
Proof.
  unfold CrossRefRun.all_matches. cbv zeta.
  intros Hc. apply (proj1 (elem_of_sort_desc _ _)) in Hc.
  rewrite !elem_of_app in Hc. rewrite !elem_of_app.
  destruct Hc as [Hc|[Hc|[Hc|Hc]]];
    apply find_matches_without_url in Hc as (? & ? & ? & ?);
    split_and!; eauto.
Qed.

(** The three tiers divide a list of matches of confidence 0.6 or more. *)
Lemma tiers_partition (matches : list candidate) :
  Forall (λ m, Qle_bool 0.6 (confidence m) = true) matches →
  length (high_confidence matches) + length (medium_confidence matches)
  + length (low_confidence matches) = length matches.
Proof.
  unfold high_confidence, medium_confidence, low_confidence.
  induction 1 as [|m matches Hm _ IH]; [done|].
  rewrite !filter_cons. cbn [length]. rewrite <- IH. clear IH.
  unfold Qlt_bool. rewrite Hm.
  destruct (Qle_bool 0.9 (confidence m)) eqn:H90.
  - assert (Qle_bool 0.8 (confidence m) = true) as H80.
    { apply Qle_bool_trans with 0.9%Q; done. }
    rewrite H80. cbn [andb negb].
    repeat case_decide; try done; cbn [length]; lia.
  - destruct (Qle_bool 0.8 (confidence m)) eqn:H80; cbn [andb negb];
      repeat case_decide; try done; cbn [length]; lia.
Qed.

(** X17.  The matches of a run stand in descending order of confidence and
    fall into exactly one of the three tiers each: the sizes of the high,
    medium and low tier add up to the number of matches.  Every match is
    for a film of the catalogue that has no link, and proposes the
    non-empty link of an item of one of the four pools. *)
Theorem run_matches_tiers films ads variety_shows audition_films songs :
  length (high_confidence (all_matches films ads variety_shows audition_films
                                       songs))
  + length (medium_confidence (all_matches films ads variety_shows
                                           audition_films songs))
  + length (low_confidence (all_matches films ads variety_shows
                                        audition_films songs))
  = length (all_matches films ads variety_shows audition_films songs)
  ∧ StronglySorted not_below
      (all_matches films ads variety_shows audition_films songs)
  ∧ Forall (λ m,
      film m ∈ films
      ∧ truthy (get (film m) "videoUrl") = false
      ∧ match_item m ∈ ads ++ variety_shows ++ audition_films ++ songs
      ∧ truthy (video_url m) = true
      ∧ video_url m = get (match_item m) "videoUrl")
      (all_matches films ads variety_shows audition_films songs).
Proof.
  split_and!.
  - apply tiers_partition, Forall_forall.
    intros m (_ & _ & _ & source_name & Hwell)%all_matches_elem.
    by destruct Hwell as (_ & _ & _ & _ & _ & _ & Hmin).
  - apply sort_desc_sorted.
  - apply Forall_forall.
    intros m (Hfilm & Hunlinked & Hitem & source_name & Hwell)%all_matches_elem.
    destruct Hwell as (_ & _ & _ & Hurl & Hsame & _).
    split_and!; try done. by rewrite Hsame.
Qed.

(** X18.  Applying the matches of a run with the default threshold 0.9
    leaves each film of the catalogue as it is, or gives a film that had no
    link the link of a pool item, on account of a match of confidence 0.9
    or more that names the film's title.  The number of films with a link
    grows by exactly the number of updates returned. *)
Theorem run_then_apply films ads variety_shows audition_films songs :
  Forall2 (linked_from
             (all_matches films ads variety_shows audition_films songs)
             (ads ++ variety_shows ++ audition_films ++ songs))
          films
          (ApplyUpdates.apply_updates films
             (as_result <$> all_matches films ads variety_shows audition_films
                                        songs) 0.9).1
  ∧ linked_count
      (ApplyUpdates.apply_updates films
         (as_result <$> all_matches films ads variety_shows audition_films
                                    songs) 0.9).1
    = linked_count films
      + (ApplyUpdates.apply_updates films
           (as_result <$> all_matches films ads variety_shows audition_films
                                      songs) 0.9).2.
Proof.
  set (matches := all_matches films ads variety_shows audition_films songs).
  unfold ApplyUpdates.apply_updates.
  set (high := filter _ (as_result <$> matches)).
  assert (Hhigh : ∀ r, r ∈ high →
    ∃ m, m ∈ matches ∧ r = as_result m
         ∧ Qle_bool 0.9 (confidence m) = true).
  { intros r [Hmin (m & -> & Hm)%list_elem_of_fmap]%list_elem_of_filter.
    by exists m. }
  destruct (update_all_linked_by 0.9 high films) as [Hrel Hcount].
  { apply Forall_forall. intros r (m & Hm & -> & Hmin)%Hhigh.
    split; [done|].
    apply all_matches_elem in Hm as (_ & _ & _ & source_name & Hwell).
    destruct Hwell as (_ & _ & _ & Hurl & Hsame & _).
    cbn. by rewrite Hsame. }
  split; [|done].
  eapply Forall2_impl; [done|].
  intros f f' [->|(r & (m & Hm & -> & Hmin)%Hhigh & _ & [Htitle Hunlinked]
                   & ->)]; [by left|].
  right. exists m.
  pose proof Hm as (_ & _ & Hitem & source_name & Hwell)%all_matches_elem.
  destruct Hwell as (_ & _ & _ & Hurl & Hsame & _).
  cbn in Htitle |- *. rewrite Hsame. by split_and!.
Qed.

End CrossRefRunFacts.

(** ** The summary of a run *)

Section CrossRefMainFacts.
Import CrossRef CrossRefRun CrossRefMain.

Context (ratio : ustr → ustr → Q) (lower : ustr → ustr) (is_word : N → bool).

Abbreviation run_matches := (CrossRefRun.all_matches ratio lower is_word).
Abbreviation main := (main ratio lower is_word).

Implicit Types (films ads variety_shows audition_films songs
                : list (gmap string value)).

Lemma find_matches_nil other_data source_name min_confidence :
  find_matches ratio lower is_word [] other_data source_name min_confidence
  = [].
Proof. done. Qed.

Lemma run_matches_source films ads variety_shows audition_films songs c :
  c ∈ run_matches films ads variety_shows audition_films songs →
  source c ∈ sources.
Proof.
  unfold CrossRefRun.all_matches, sources. cbv zeta.
  intros Hc. apply (proj1 (elem_of_sort_desc _ _)) in Hc.
  rewrite !elem_of_app in Hc.
  destruct Hc as [Hc|[Hc|[Hc|Hc]]];
    apply find_matches_without_url in Hc as (_ & _ & _ & Hwell);
    destruct Hwell as (_ & _ & -> & _).
  - apply list_elem_of_here.
  - do 1 apply list_elem_of_further. apply list_elem_of_here.
  - do 2 apply list_elem_of_further. apply list_elem_of_here.
  - do 3 apply list_elem_of_further. apply list_elem_of_here.
Qed.

Lemma from_source_partition (matches : list candidate) :
  Forall (λ m, source m ∈ sources) matches →
  from_source "ads" matches + from_source "variety-shows" matches
  + from_source "audition-films" matches + from_source "songs" matches
  = length matches.
Proof.
  unfold from_source.
  induction 1 as [|m matches Hm _ IH]; [done|].
  rewrite !filter_cons. cbn [length]. rewrite <- IH. clear IH.
  unfold sources in Hm.
  repeat (apply elem_of_cons in Hm as [->|Hm]);
    [..|by apply elem_of_nil in Hm];
    repeat case_decide; try done; cbn [length]; lia.
Qed.

Lemma linked_split films :
  length (filter (λ film, truthy (get film "videoUrl") = true) films)
  + length (CrossRefRun.films_without_url films) = length films.
Proof.
  unfold CrossRefRun.films_without_url.
  induction films as [|film films IH]; [done|].
  rewrite !filter_cons. cbn [length]. rewrite <- IH.
  destruct (truthy (get film "videoUrl"));
    repeat case_decide; try done; cbn [length]; lia.
Qed.

Lemma run_matches_none films ads variety_shows audition_films songs :
  CrossRefRun.films_without_url films = [] →
  run_matches films ads variety_shows audition_films songs = [].
Proof.
  unfold CrossRefRun.all_matches. cbv zeta. intros ->.
  by rewrite !find_matches_nil.
Qed.

Lemma without_url_nil films :
  CrossRefRun.films_without_url films = []
  ↔ Forall (λ film, truthy (get film "videoUrl") = true) films.
Proof.
  unfold CrossRefRun.films_without_url. split.
  - intros Hnil. apply Forall_forall. intros film Hfilm.
    destruct (truthy (get film "videoUrl")) eqn:Hurl; [done|].
    assert (film ∈ filter (λ film, truthy (get film "videoUrl") = false) films)
      as Hin by by apply list_elem_of_filter.
    rewrite Hnil in Hin. by apply elem_of_nil in Hin.
  - induction 1 as [|film films Hfilm _ IH]; [done|].
    rewrite filter_cons. case_decide; [congruence|done].
Qed.

(** X19.  The summary of a run fails in two ways.  It raises
    [ZeroDivisionError] exactly when every film of the catalogue has a link
    (an empty catalogue included), and [KeyError] exactly when a match is
    for a film that has no title; in both cases no results are saved. *)
Theorem main_failures films ads variety_shows audition_films songs :
  (main films ads variety_shows audition_films songs = inl ZeroDivisionError
   ↔ Forall (λ film, truthy (get film "videoUrl") = true) films)
  ∧ (main films ads variety_shows audition_films songs = inl KeyError
     ↔ Exists (λ m, film m !! "title" = None)
              (run_matches films ads variety_shows audition_films songs)).
Proof.
  unfold CrossRefMain.main. cbv zeta.
  set (matches := run_matches films ads variety_shows audition_films songs).
  destruct (mapM (λ m, film m !! "title") matches) as [titles|] eqn:Htitles.
  - assert (¬ Exists (λ m, film m !! "title" = None) matches) as Hno.
    { intros Hex%mapM_None_2. congruence. }
    destruct (length (CrossRefRun.films_without_url films)) as [|n] eqn:Hlen.
    + apply nil_length_inv in Hlen.
      split; [|split; [done|by intros ?%Hno]].
      split; [intros _|done]. by apply without_url_nil.
    + split; [|split; [done|by intros ?%Hno]].
      split; [done|]. intros Hnil%without_url_nil.
      rewrite Hnil in Hlen. done.
  - apply mapM_None_1 in Htitles as Hex.
    split; [|done].
    split; [done|]. intros Hnil%without_url_nil.
    subst matches. rewrite run_matches_none in Hex by done.
    by apply Exists_nil in Hex.
Qed.

(** X20.  The numbers of saved results agree with one another: the films
    with and without a link add up to the films, and some film has no
    link; the three tiers, and the four sources, each add up to the
    matches found; the films with matches are no more than the matches and
    no more than the films without a link, and none exactly when there is
    no match; the coverage lies between 0 and 100.  The results carry the
    matches of the run. *)
Theorem main_results_consistent films ads variety_shows audition_films songs r :
  main films ads variety_shows audition_films songs = inr r →
  consistent r
  ∧ CrossRefMain.all_matches r
    = run_matches films ads variety_shows audition_films songs.
Proof.
  unfold CrossRefMain.main. cbv zeta.
  set (matches := run_matches films ads variety_shows audition_films songs).
  destruct (mapM (λ m, film m !! "title") matches) as [titles|] eqn:Htitles;
    [|done].
  destruct (length (CrossRefRun.films_without_url films)) as [|n] eqn:Hlen;
    [done|].
  intros [= <-]. split; [|done].
  assert (length (remove_dups titles) ≤ length titles) as Hunique.
  { apply submseteq_length, NoDup_submseteq; [apply NoDup_remove_dups|].
    intros t Ht. by apply (proj1 (elem_of_remove_dups _ _)) in Ht. }
  pose proof (length_mapM _ _ _ Htitles) as Hsame.
  apply mapM_Some in Htitles.
  assert (length (remove_dups titles)
          ≤ length (CrossRefRun.films_without_url films)) as Hfilms.
  { rewrite <- (length_fmap (λ film, get film "title")).
    apply submseteq_length, NoDup_submseteq; [apply NoDup_remove_dups|].
    intros t Ht. apply (proj1 (elem_of_remove_dups _ _)) in Ht.
    apply list_elem_of_lookup_1 in Ht as [i Ht].
    destruct (Forall2_lookup_r _ _ _ _ _ Htitles Ht) as (m & Hm & Htitle).
    apply list_elem_of_lookup_2 in Hm.
    apply all_matches_elem in Hm as (Hfilm & Hunlinked & _).
    apply list_elem_of_fmap. exists (film m). split.
    - unfold get. by rewrite Htitle.
    - by apply list_elem_of_filter. }
  unfold consistent.
  cbn [summary_of confidence_breakdown_of matches_by_source_of
       CrossRefMain.all_matches total_films films_with_url
       CrossRefMain.films_without_url total_matches_found
       unique_films_with_matches coverage_improvement_potential
       CrossRefMain.high_confidence CrossRefMain.medium_confidence
       CrossRefMain.low_confidence CrossRefMain.ads
       CrossRefMain.variety_shows CrossRefMain.audition_films
       CrossRefMain.songs snd].
  rewrite <- Hlen.
  split_and!.
  - apply linked_split.
  - lia.
  - done.
  - apply tiers_partition, Forall_forall.
    intros m (_ & _ & _ & source_name & Hwell)%all_matches_elem.
    by destruct Hwell as (_ & _ & _ & _ & _ & _ & Hmin).
  - apply from_source_partition, Forall_forall.
    intros m Hm. by eapply run_matches_source.
  - lia.
  - done.
  - rewrite Hsame. destruct titles as [|t titles]; [done|].
    split; [|done]. intros Hnone%nil_length_inv.
    assert (t ∈ remove_dups (t :: titles)) as Hin.
    { apply (proj2 (elem_of_remove_dups _ _)), list_elem_of_here. }
    rewrite Hnone in Hin. by apply elem_of_nil in Hin.
  - apply coverage_range; [done|lia].
  - apply coverage_range; [done|lia].
Qed.

End CrossRefMainFacts.

Section CrossRefMainExamples.
Import CrossRef CrossRefRun CrossRefMain Examples MoreExamples.

(** X20, witness: one film without a link, and two ads that match it. *)
Lemma main_results_consistent_witness :
  consistent results_hp_run
  ∧ CrossRefMain.all_matches results_hp_run
    = CrossRefRun.all_matches no_ratio id ascii_digit [film_2020]
                              [linked_film; spin_off] [] [] [].
Proof.
  refine (main_results_consistent no_ratio id ascii_digit [film_2020]
            [linked_film; spin_off] [] [] [] results_hp_run _).
  vm_compute. reflexivity.
Defined.

End CrossRefMainExamples.

(** ** Updating the files *)

Section VideoMatcherFacts.
Import Matching VideoMatcher.

Implicit Types (io : string → file_io) (matches : list match_info).
Implicit Types (all_matches : list (string * list match_info)).

Lemma updates_made_le data matches :
  Updater.updates_made (Updater.apply_matches data matches) ≤ length matches.
Proof.
  revert data. induction matches as [|m matches IH]; intros data; [done|].
  rewrite apply_matches_cons.
  cbn [Updater.updates_made fst snd length].
  specialize (IH (Updater.data_of (Updater.merge_match data m))).
  destruct (merge_match_cases data m) as [[_ ->]|(_ & _ & _ & _ & ->)]; lia.
Qed.

Lemma apply_matches_to_file_le io file_type matches :
  (apply_matches_to_file io file_type matches).1 ≤ length matches.
Proof.
  unfold apply_matches_to_file.
  destruct (json_files !! file_type) as [filename|]; [|cbn; lia].
  destruct (backup_made (io filename)); [|cbn; lia].
  destruct (loaded (io filename)) as [|entry data]; [cbn; lia|].
  cbv zeta.
  pose proof (updates_made_le (entry :: data) matches) as Hle.
  destruct (0 <? _); [destruct (save_ok _)|]; cbn [fst]; lia.
Qed.

Lemma apply_matches_unfold io json_file_type matches all_matches dry_run :
  apply_matches io ((json_file_type, matches) :: all_matches) dry_run
  = ((json_file_type,
      (if dry_run then (length matches, NoWrite)
       else apply_matches_to_file io json_file_type matches).1)
     :: (apply_matches io all_matches dry_run).1,
     (if dry_run then (length matches, NoWrite)
      else apply_matches_to_file io json_file_type matches).2
     :: (apply_matches io all_matches dry_run).2).
Proof.
  cbn [apply_matches].
  destruct (if dry_run then _ else _) as [n w].
  by destruct (apply_matches io all_matches dry_run) as [results writes].
Qed.

(** X21.  [apply_matches_to_file] returns at most the number of matches.
    It returns more than 0 exactly when it has saved the file.  Whenever
    it writes to a file, saved or not, that file is the one of the file
    type, its backup has been made, its data was not empty, and what is
    written is the outcome of the merge loop on the data loaded. *)
Theorem file_written_after_backup io file_type matches :
  (apply_matches_to_file io file_type matches).1 ≤ length matches
  ∧ (0 < (apply_matches_to_file io file_type matches).1
     ↔ ∃ filename data,
         (apply_matches_to_file io file_type matches).2 = Saved filename data)
  ∧ ∀ filename data,
      writes_to (apply_matches_to_file io file_type matches).2 filename data →
      json_files !! file_type = Some filename
      ∧ backup_made (io filename) = true
      ∧ loaded (io filename) ≠ []
      ∧ data = Updater.data_of
                 (Updater.apply_matches (loaded (io filename)) matches)
      ∧ 0 < Updater.updates_made
               (Updater.apply_matches (loaded (io filename)) matches).
Proof.
  split; [apply apply_matches_to_file_le|].
  unfold apply_matches_to_file, writes_to.
  destruct (json_files !! file_type) as [filename|] eqn:Hfile.
  2: { cbn. split; [split; [lia|by intros (? & ? & ?)]|].
       by intros ? ? [?|?]. }
  destruct (backup_made (io filename)) eqn:Hbackup.
  2: { cbn. split; [split; [lia|by intros (? & ? & ?)]|].
       by intros ? ? [?|?]. }
  destruct (loaded (io filename)) as [|entry data] eqn:Hloaded.
  { cbn. split; [split; [lia|by intros (? & ? & ?)]|].
    by intros ? ? [?|?]. }
  cbv zeta.
  destruct (0 <? _) eqn:Hpos.
  - apply Nat.ltb_lt in Hpos.
    destruct (save_ok (io filename)); cbn [fst snd].
    + split; [split; [by eauto|done]|].
      intros filename' data' [[= <- <-]|?]; [|done].
      by rewrite Hbackup, Hloaded.
    + split; [split; [lia|by intros (? & ? & ?)]|].
      intros filename' data' [?|[= <- <-]]; [done|].
      by rewrite Hbackup, Hloaded.
  - apply Nat.ltb_ge in Hpos. cbn [fst snd].
    split; [split; [lia|by intros (? & ? & ?)]|].
    by intros ? ? [?|?].
Qed.

(** X22.  The update results name the files of the matches, in order, and
    give no file more updates than it has matches: the updates applied
    are at most the matches found.  In a dry run, and when only a report
    is asked for, they count every match as an update, and nothing is
    written. *)
Theorem updates_within_matches io all_matches report_only dry_run :
  (update_results io all_matches report_only dry_run).1.*1 = all_matches.*1
  ∧ Forall2 (λ result kv, result.2 ≤ length kv.2)
      (update_results io all_matches report_only dry_run).1 all_matches
  ∧ total_updates_applied (update_results io all_matches report_only dry_run).1
    ≤ total_matches_found all_matches
  ∧ (report_only || dry_run = true →
     total_updates_applied
       (update_results io all_matches report_only dry_run).1
     = total_matches_found all_matches
     ∧ Forall (λ w, w = NoWrite)
         (update_results io all_matches report_only dry_run).2).
Proof.
  unfold update_results, total_updates_applied, total_matches_found.
  destruct report_only.
  { cbn [fst snd orb].
    induction all_matches as [|[json_file_type matches] all_matches IH].
    { by split_and!. }
    destruct IH as (IHnames & IHeach & IHle & IHdry).
    specialize (IHdry eq_refl) as [IHsame _].
    rewrite !fmap_cons. cbn [sum_list_with fst snd].
    split_and!.
    - by rewrite IHnames.
    - by constructor.
    - lia.
    - intros _. split; [lia|done]. }
  cbn [orb].
  induction all_matches as [|[json_file_type matches] all_matches IH].
  { by split_and!. }
  destruct IH as (IHnames & IHeach & IHle & IHdry).
  rewrite apply_matches_unfold. cbn [fst snd].
  rewrite !fmap_cons. cbn [sum_list_with fst snd].
  pose proof (apply_matches_to_file_le io json_file_type matches) as Hle.
  split_and!.
  - by rewrite IHnames.
  - constructor; [|done]. cbn [snd]. by destruct dry_run.
  - destruct dry_run; cbn [fst]; lia.
  - intros ->. destruct (IHdry eq_refl) as [IHsame IHnone].
    cbn [fst snd]. split; [lia|by constructor].
Qed.

End VideoMatcherFacts.
